(** * matrix-publisher-bot: the export engine of [export.py]

    A shallow embedding of the message classification, thread closure and
    incremental merge of [export.py], and the properties of its
    specification checked against it.

    Conventions.
    - A Python [str] is a list of Unicode code points ([N]).  String
      literals of the source are written [py "..."], which decodes the
      UTF-8 bytes of the literal.
    - A raw event is a record whose optional keys are [option] fields:
      [msg.get(k)] is a projection, [x or d] is [default].  Every event
      carries an [event_id] string, as the Matrix protocol and the
      specification's data model have it; a persisted document is made of
      records of the minimal schema.
    - Python sets are [gset], the edit dictionary is a [gmap]; [sorted] and
      [list.sort] are a merge sort on the code-point order and a stable
      insertion sort.
    - The [while] loop of the thread closure is run with a pass counter;
      [closure_loop_terminates] shows that it never runs out.
    - The interpreter's Unicode tables for [\w] and [str.lower] outside
      ASCII are section variables: they are not part of this repository. *)

From Stdlib Require Import NArith ZArith Ascii String.
From stdpp Require Import gmap list sorting strings.

Set Warnings "-clear-no-such-hyp".

Abbreviation char := N (only parsing).
Abbreviation str := (list N) (only parsing).

Local Open Scope N_scope.

(** ** Python strings *)
Module Py.

Fixpoint bytes (s : string) : list N :=
  match s with
  | EmptyString => []
  | String a s' => N_of_ascii a :: bytes s'
  end.

(** UTF-8 decoding of a well-formed byte sequence. *)
Fixpoint utf8 (bs : list N) : str :=
  match bs with
  | [] => []
  | b0 :: t =>
      if b0 <? 128 then b0 :: utf8 t
      else if b0 <? 224 then
        match t with
        | b1 :: t1 =>
            N.lor (N.shiftl (N.land b0 31) 6) (N.land b1 63) :: utf8 t1
        | _ => []
        end
      else if b0 <? 240 then
        match t with
        | b1 :: b2 :: t2 =>
            N.lor (N.shiftl (N.land b0 15) 12)
              (N.lor (N.shiftl (N.land b1 63) 6) (N.land b2 63)) :: utf8 t2
        | _ => []
        end
      else
        match t with
        | b1 :: b2 :: b3 :: t3 =>
            N.lor (N.shiftl (N.land b0 7) 18)
              (N.lor (N.shiftl (N.land b1 63) 12)
                 (N.lor (N.shiftl (N.land b2 63) 6) (N.land b3 63))) :: utf8 t3
        | _ => []
        end
  end.

(** A string literal of the source. *)
Definition lit (s : string) : str := utf8 (bytes s).

(** [str.isspace] on one code point; also the class [\s] of [re]. *)
Definition isspace (c : N) : bool :=
  ((9 <=? c) && (c <=? 13)) || ((28 <=? c) && (c <=? 32))
  || (c =? 0x85) || (c =? 0xA0) || (c =? 0x1680)
  || ((0x2000 <=? c) && (c <=? 0x200A))
  || (c =? 0x2028) || (c =? 0x2029) || (c =? 0x202F) || (c =? 0x205F)
  || (c =? 0x3000).

Definition is_ascii (c : N) : bool := c <? 128.

Definition ascii_isupper (c : N) : bool := (65 <=? c) && (c <=? 90).
Definition ascii_islower (c : N) : bool := (97 <=? c) && (c <=? 122).
Definition ascii_isdigit (c : N) : bool := (48 <=? c) && (c <=? 57).
Definition ascii_isalnum (c : N) : bool :=
  ascii_isupper c || ascii_islower c || ascii_isdigit c.
Definition ascii_lower (c : N) : N := if ascii_isupper c then c + 32 else c.

Fixpoint drop_while (p : N → bool) (s : str) : str :=
  match s with
  | [] => []
  | c :: t => if p c then drop_while p t else s
  end.

Fixpoint take_while (p : N → bool) (s : str) : str :=
  match s with
  | [] => []
  | c :: t => if p c then c :: take_while p t else []
  end.

Definition lstrip (s : str) : str := drop_while isspace s.
Definition rstrip (s : str) : str := reverse (drop_while isspace (reverse s)).
Definition strip (s : str) : str := rstrip (lstrip s).

(** [s.startswith(p)] *)
Fixpoint startswith (s p : str) : bool :=
  match p, s with
  | [], _ => true
  | a :: p', c :: s' => (a =? c) && startswith s' p'
  | _ :: _, [] => false
  end.

(** [s.split(sep)] for a one-character separator: empty fields are kept. *)
Fixpoint split_on (sep : N) (s : str) : list str :=
  match s with
  | [] => [[]]
  | c :: t =>
      if c =? sep then [] :: split_on sep t
      else match split_on sep t with
           | w :: ws => (c :: w) :: ws
           | [] => [[c]]
           end
  end.

(** [s.split()]: the maximal runs of non-whitespace. *)
Fixpoint split_ws_aux (cur : str) (s : str) : list str :=
  match s with
  | [] => if bool_decide (cur = []) then [] else [cur]
  | c :: t =>
      if isspace c
      then (if bool_decide (cur = []) then split_ws_aux [] t
            else cur :: split_ws_aux [] t)
      else split_ws_aux (cur ++ [c]) t
  end.
Definition split (s : str) : list str := split_ws_aux [] s.

(** [s.replace(old, new)] for a non-empty [old]: occurrences are replaced
    from left to right and do not overlap. *)
Fixpoint replace_aux (old new : str) (skip : nat) (s : str) : str :=
  match s with
  | [] => []
  | c :: t =>
      match skip with
      | S k => replace_aux old new k t
      | O =>
          if startswith s old
          then new ++ replace_aux old new (pred (length old)) t
          else c :: replace_aux old new O t
      end
  end.
Definition replace (old new s : str) : str := replace_aux old new O s.

(** [list(dict.fromkeys(l))]: first occurrences, in order. *)
Fixpoint dedupe (seen : list str) (l : list str) : list str :=
  match l with
  | [] => []
  | x :: l' =>
      if bool_decide (x ∈ seen) then dedupe seen l'
      else x :: dedupe (x :: seen) l'
  end.

End Py.

Abbreviation py := Py.lit.

(** ** The fragment of [re] that [export.py] uses

    Every pattern of the source is a sequence of single-character classes,
    each with a quantifier among none, [?], [*] and [+] (all greedy), with
    [^] and [$] anchors and at most one group.  The matcher backtracks as
    [re] does: a quantified class first takes as many characters as it can
    and gives them back one at a time while the rest of the pattern fails. *)
Module Re.

Inductive quant := One | Opt | Star | Plus.

(** [Atom cap q cls]: the class [cls] under quantifier [q]; [cap] tells
    whether the atom lies inside the group of the pattern. *)
Inductive item :=
| Atom (cap : bool) (q : quant) (cls : N → bool)
| Bol
| Eol.

Abbreviation regex := (list item) (only parsing).

(** [$] without [re.MULTILINE]: at the end, or before a final newline. *)
Definition at_eol (s : str) : bool :=
  match s with
  | [] => true
  | [c] => c =? 10
  | _ => false
  end.

Fixpoint greedy {R} (cls : N → bool) (k : str → str → option R)
    (acc : str) (s : str) : option R :=
  match s with
  | c :: t =>
      if cls c then
        match greedy cls k (acc ++ [c]) t with
        | Some r => Some r
        | None => k acc s
        end
      else k acc s
  | [] => k acc []
  end.

(** [match_here re bos s]: match [re] at the start of [s]; [bos] tells
    whether [s] starts at the beginning of the subject.  The result is
    the text of the group and the unmatched rest. *)
Fixpoint match_here (re : regex) (bos : bool) (s : str) : option (str * str) :=
  match re with
  | [] => Some ([], s)
  | Bol :: re' => if bos then match_here re' bos s else None
  | Eol :: re' => if at_eol s then match_here re' bos s else None
  | Atom cap q cls :: re' =>
      let k (m rest : str) : option (str * str) :=
        match match_here re' (bos && bool_decide (m = [])) rest with
        | Some (g, r) => Some ((if cap then m else []) ++ g, r)
        | None => None
        end in
      match q with
      | One =>
          match s with
          | c :: t => if cls c then k [c] t else None
          | [] => None
          end
      | Opt =>
          match s with
          | c :: t =>
              if cls c then
                match k [c] t with Some r => Some r | None => k [] s end
              else k [] s
          | [] => k [] s
          end
      | Star => greedy cls k [] s
      | Plus =>
          match s with
          | c :: t => if cls c then greedy cls k [c] t else None
          | [] => None
          end
      end
  end.

(** [re.match(re, s)] *)
Definition rmatch (re : regex) (s : str) : option str :=
  fst <$> match_here re true s.

(** [re.search(re, s)]: the group of the leftmost match. *)
Fixpoint search_from (re : regex) (bos : bool) (s : str) : option str :=
  match match_here re bos s with
  | Some (g, _) => Some g
  | None =>
      match s with
      | [] => None
      | _ :: t => search_from re false t
      end
  end.
Definition search (re : regex) (s : str) : option str := search_from re true s.

(** The scan shared by [re.findall], [re.finditer] and [re.sub]: the
    subject cut into the characters outside any match ([inl]) and the
    successive non-overlapping matches ([inr], with the group's text).
    [skip] counts the characters of the current match still to pass.  The
    patterns of [export.py] consume at least one character, so the rules
    of [re] for empty matches are never exercised. *)
Fixpoint scan (re : regex) (skip : nat) (bos : bool) (s : str) : list (N + str) :=
  match s with
  | [] =>
      match skip, match_here re bos [] with
      | O, Some (g, _) => [inr g]
      | _, _ => []
      end
  | c :: t =>
      match skip with
      | S k => scan re k false t
      | O =>
          match match_here re bos s with
          | Some (g, rest) =>
              match (length s - length rest)%nat with
              | O => inr g :: inl c :: scan re O false t
              | S k => inr g :: scan re k false t
              end
          | None => inl c :: scan re O false t
          end
      end
  end.

(** [re.findall(re, s)] for a pattern with one group. *)
Definition findall (re : regex) (s : str) : list str :=
  omap (λ x, match x with inr g => Some g | inl _ => None end) (scan re O true s).

(** [re.sub(re, repl, s)], [repl] being given the group's text. *)
Definition sub (re : regex) (repl : str → str) (s : str) : str :=
  flat_map (λ x, match x with inr g => repl g | inl c => [c] end) (scan re O true s).

(** What it means for a subject to start with a match of a pattern: the
    subject splits into one piece per atom, each piece made of characters
    of the atom's class and of a length its quantifier allows. *)
Fixpoint accepts (re : regex) (bos : bool) (s : str) : Prop :=
  match re with
  | [] => True
  | Bol :: re' => bos = true ∧ accepts re' bos s
  | Eol :: re' => at_eol s = true ∧ accepts re' bos s
  | Atom _ One cls :: re' =>
      ∃ c rest, s = c :: rest ∧ cls c = true ∧ accepts re' false rest
  | Atom _ Opt cls :: re' =>
      accepts re' bos s
      ∨ ∃ c rest, s = c :: rest ∧ cls c = true ∧ accepts re' false rest
  | Atom _ Star cls :: re' =>
      ∃ m rest, s = m ++ rest ∧ Forall (λ c, cls c = true) m
                ∧ accepts re' (bos && bool_decide (m = [])) rest
  | Atom _ Plus cls :: re' =>
      ∃ c m rest, s = c :: m ++ rest ∧ cls c = true
                  ∧ Forall (λ c, cls c = true) m ∧ accepts re' false rest
  end.

(** A piece of the subject fits an item of a pattern. *)
Definition conforms (it : item) (piece : str) : Prop :=
  match it with
  | Atom _ One cls => ∃ c, piece = [c] ∧ cls c = true
  | Atom _ Opt cls => piece = [] ∨ ∃ c, piece = [c] ∧ cls c = true
  | Atom _ Star cls => Forall (λ c, cls c = true) piece
  | Atom _ Plus cls => piece ≠ [] ∧ Forall (λ c, cls c = true) piece
  | Bol | Eol => piece = []
  end.

(** The text of the group, given the piece of each item. *)
Definition group_of (re : regex) (pieces : list str) : str :=
  concat (zip_with (λ it piece, match it with
                                | Atom true _ _ => piece
                                | _ => []
                                end) re pieces).

(** What follows a greedy class is not of the class. *)
Definition stops (cls : N → bool) (rest : str) : Prop :=
  match rest with
  | [] => True
  | c :: _ => cls c = false
  end.

(** The subject rebuilt from a scan, [full g] being the whole text of a
    match whose group is [g]. *)
Definition rebuild (full : str → str) (pieces : list (N + str)) : str :=
  flat_map (λ x, match x with inr g => full g | inl c => [c] end) pieces.

(** Pattern constructors. *)
Definition chr (c : N) : item := Atom false One (N.eqb c).
Definition lits (s : str) : regex := chr <$> s.

(** A literal letter under [re.IGNORECASE]: the subject character matches
    when its lowercase is the pattern's.  Besides the ASCII capital, the
    Unicode tables send U+0130 to [i] and U+212A to [k], and [re] pairs
    [i] with U+0131 and [s] with U+017F. *)
Definition ci_eq (p c : N) : bool :=
  (c =? p)
  || (Py.ascii_islower p && (c =? p - 32))
  || ((p =? 105) && ((c =? 0x130) || (c =? 0x131)))
  || ((p =? 107) && (c =? 0x212A))
  || ((p =? 115) && (c =? 0x17F)).
Definition ci (c : N) : item := Atom false One (ci_eq c).
Definition ci_lits (s : str) : regex := ci <$> s.

End Re.

(** [ord "x"]: the code point of an ASCII character. *)
Definition ord (a : ascii) : N := N_of_ascii a.
Arguments ord a%_char.

(** ** Data model *)

(** The [m.in_reply_to] object.  A Python dict is falsy only when it is
    empty: [irt_other_keys] tells whether the object holds anything besides
    a string under [event_id] (another key, or a null [event_id]). *)
Record InReplyTo := mkInReplyTo {
  irt_event_id : option str;
  irt_other_keys : bool }.

(** The [m.new_content] object of an edit, with [nc_other_keys] as above
    (a [msgtype], for one). *)
Record NewContent := mkNewContent {
  nc_body : option str;
  nc_formatted_body : option str;
  nc_other_keys : bool }.

(** The [m.relates_to] object. *)
Record RelatesTo := mkRelatesTo {
  r_rel_type : option str;
  r_event_id : option str;
  r_in_reply_to : option InReplyTo }.

(** The [content] object of an event. *)
Record Content := mkContent {
  c_body : option str;
  c_formatted_body : option str;
  c_relates_to : option RelatesTo;
  c_in_reply_to : option InReplyTo;
  c_new_content : option NewContent }.

(** A raw event, as delivered. *)
Record RawMessage := mkRaw {
  m_type : option str;
  m_event_id : str;
  m_origin_server_ts : option Z;
  m_content : option Content }.

(** A key of an output record: missing, [null], or a value. *)
Inductive field (A : Type) := Absent | Null | Val (a : A).
Arguments Absent {A}.
Arguments Null {A}.
Arguments Val {A} a.

(** A record of the minimal schema.  [to_minimal_message] always writes
    [id], [ts], [type], [body] and [parent_id]; a reader of a persisted
    document uses [m["id"]], [m.get("ts", 0)] and [m.get("parent_id")]. *)
Record MinimalMessage := mkMinimal {
  mm_id : str;
  mm_ts : option Z;
  mm_type : str;
  mm_body : str;
  mm_parent_id : field str;
  mm_formatted_body : option str;
  mm_keywords : option (list str) }.

(** The persisted document. *)
Record ExportState := mkExport {
  messages : list MinimalMessage;
  processed_ids : list str;
  last_processed_ts : Z }.

#[global] Instance InReplyTo_eq_dec : EqDecision InReplyTo.
Proof. solve_decision. Defined.
#[global] Instance NewContent_eq_dec : EqDecision NewContent.
Proof. solve_decision. Defined.
#[global] Instance RelatesTo_eq_dec : EqDecision RelatesTo.
Proof. solve_decision. Defined.
#[global] Instance Content_eq_dec : EqDecision Content.
Proof. solve_decision. Defined.
#[global] Instance RawMessage_eq_dec : EqDecision RawMessage.
Proof. solve_decision. Defined.
#[global] Instance field_eq_dec {A} `{EqDecision A} : EqDecision (field A).
Proof. solve_decision. Defined.
#[global] Instance MinimalMessage_eq_dec : EqDecision MinimalMessage.
Proof. solve_decision. Defined.
#[global] Instance ExportState_eq_dec : EqDecision ExportState.
Proof. solve_decision. Defined.

(** Truth value of an optional string: [None] and the empty string are
    falsy. *)
Definition truthy (o : option str) : bool :=
  match o with
  | Some (_ :: _) => true
  | _ => false
  end.

Definition field_truthy (f : field str) : bool :=
  match f with
  | Val (_ :: _) => true
  | _ => false
  end.

(** [msg.get("content") or {}] and [content.get("m.relates_to") or {}] *)
Definition content_of (msg : RawMessage) : Content :=
  default (mkContent None None None None None) (m_content msg).
Definition relates_to_of (content : Content) : RelatesTo :=
  default (mkRelatesTo None None None) (c_relates_to content).

Definition in_reply_nonempty (d : InReplyTo) : bool :=
  bool_decide (is_Some (irt_event_id d)) || irt_other_keys d.
Definition new_content_nonempty (d : NewContent) : bool :=
  bool_decide (is_Some (nc_body d)) || bool_decide (is_Some (nc_formatted_body d))
  || nc_other_keys d.

Definition M_ROOM_MESSAGE : str := py "m.room.message".
Definition M_REPLACE : str := py "m.replace".
Definition M_THREAD : str := py "m.thread".

(** ** Ordering and sorting *)

(** Python's order on [str]: lexicographic on code points. *)
Fixpoint str_leb (a b : str) : bool :=
  match a, b with
  | [], _ => true
  | _ :: _, [] => false
  | x :: a', y :: b' => (x <? y) || ((x =? y) && str_leb a' b')
  end.
Definition str_le (a b : str) : Prop := str_leb a b = true.

#[global] Instance str_le_dec a b : Decision (str_le a b).
Proof. unfold str_le. apply _. Defined.

(** [sorted(s)] for a set of strings. *)
Definition sorted_ids (s : gset str) : list str := merge_sort str_le (elements s).

Local Open Scope Z_scope.

(** [l.sort(key=...)]: a stable sort, here by insertion. *)
Fixpoint insert_by {A} (key : A → Z) (x : A) (l : list A) : list A :=
  match l with
  | [] => [x]
  | y :: l' => if key x <=? key y then x :: l else y :: insert_by key x l'
  end.
Fixpoint sort_by {A} (key : A → Z) (l : list A) : list A :=
  match l with
  | [] => []
  | x :: l' => insert_by key x (sort_by key l')
  end.

Local Close Scope Z_scope.

(** ** The functions of [export.py] *)

(** Emoji → type mapping, in the order of the source. *)
Definition EMOJI_TO_TYPE : list (str * str) :=
  [ (py "📥", py "journal");
    (py "🔗", py "link");
    (py "❓", py "question");
    (py "💾", py "project");
    (py "💡", py "idea");
    (py "📔", py "field_note");
    (py "📄", py "blog_post") ].

Definition CATEGORY_EMOJIS : list str := EMOJI_TO_TYPE.*1.

(** U+FE0F, the emoji presentation selector. *)
Definition VS16 : str := [0xFE0F].

Definition not_chr (a : ascii) : N → bool := λ c, negb (c =? ord a).
Arguments not_chr a%_char.

(** [^[\s#\-*]+] *)
Definition leading_markdown (c : N) : bool :=
  Py.isspace c || (c =? ord "#") || (c =? ord "-") || (c =? ord "*").
Definition re_leading_markdown : list Re.item :=
  [Re.Bol; Re.Atom false Re.Plus leading_markdown].

(** [_\s*originally posted[^_]*_] under [re.I] *)
Definition re_originally_posted_italic : list Re.item :=
  [Re.chr (ord "_"); Re.Atom false Re.Star Py.isspace]
  ++ Re.ci_lits (py "originally posted")
  ++ [Re.Atom false Re.Star (not_chr "_"); Re.chr (ord "_")].

(** [originally posted[^\n]*] under [re.I] *)
Definition re_originally_posted : list Re.item :=
  Re.ci_lits (py "originally posted") ++ [Re.Atom false Re.Star (λ c, negb (c =? 10))].

(** [https?://] *)
Definition re_scheme : list Re.item :=
  Re.lits (py "http") ++ [Re.Atom false Re.Opt (N.eqb (ord "s"))] ++ Re.lits (py "://").

(** The pattern of the first [re.match] of [is_link_only]: from [^], spaces,
    a bracketed title (the group, any characters but the closing bracket,
    possibly none), then a parenthesised [https?://] address of one or more
    characters other than the closing parenthesis, spaces, [$]. *)
Definition re_single_markdown_link : list Re.item :=
  [Re.Bol; Re.Atom false Re.Star Py.isspace; Re.chr (ord "[");
   Re.Atom true Re.Star (not_chr "]"); Re.chr (ord "]"); Re.chr (ord "(")]
  ++ re_scheme
  ++ [Re.Atom false Re.Plus (not_chr ")"); Re.chr (ord ")");
      Re.Atom false Re.Star Py.isspace; Re.Eol].

(** [^\s*https?://\S+\s*$] *)
Definition re_bare_url : list Re.item :=
  [Re.Bol; Re.Atom false Re.Star Py.isspace]
  ++ re_scheme
  ++ [Re.Atom false Re.Plus (λ c, negb (Py.isspace c));
      Re.Atom false Re.Star Py.isspace; Re.Eol].

(** [https?://[^\s\)\]]+] *)
Definition re_url : list Re.item :=
  re_scheme
  ++ [Re.Atom false Re.Plus
        (λ c, negb (Py.isspace c || (c =? ord ")") || (c =? ord "]")))].

(** [\[([^\]]+)\]\([^\)]+\)] *)
Definition re_markdown_link : list Re.item :=
  [Re.chr (ord "["); Re.Atom true Re.Plus (not_chr "]"); Re.chr (ord "]");
   Re.chr (ord "("); Re.Atom false Re.Plus (not_chr ")"); Re.chr (ord ")")].

(** [\s+] *)
Definition re_spaces : list Re.item := [Re.Atom false Re.Plus Py.isspace].

(** [keywords?\s*:\s*([^\n#]+)] under [re.I] *)
Definition re_keywords : list Re.item :=
  Re.ci_lits (py "keyword")
  ++ [Re.Atom false Re.Opt (Re.ci_eq (ord "s")); Re.Atom false Re.Star Py.isspace;
      Re.chr (ord ":"); Re.Atom false Re.Star Py.isspace;
      Re.Atom true Re.Plus (λ c, negb ((c =? 10) || (c =? ord "#")))].

(** [\*\*([^*]+)\*\*] *)
Definition re_bold : list Re.item :=
  [Re.chr (ord "*"); Re.chr (ord "*"); Re.Atom true Re.Plus (not_chr "*");
   Re.chr (ord "*"); Re.chr (ord "*")].

Definition get_message_content (msg : RawMessage) : str * str :=
  let content := content_of msg in
  (default [] (c_body content), default [] (c_formatted_body content)).

Definition strip_emojis (body : str) : str :=
  foldl (λ b emoji, Py.replace emoji [] (Py.replace (emoji ++ VS16) [] b))
    body CATEGORY_EMOJIS.

Definition is_link_only (body : str) : bool :=
  let body := Re.sub re_originally_posted_italic (λ _, []) body in
  let body := Re.sub re_originally_posted (λ _, []) body in
  let body := strip_emojis body in
  let body := Py.strip body in
  if bool_decide (is_Some (Re.rmatch re_single_markdown_link body)) then true
  else if bool_decide (is_Some (Re.rmatch re_bare_url body)) then true
  else
    let without_urls := Re.sub re_url (λ _, []) body in
    let without_urls := Re.sub re_markdown_link (λ g, g) without_urls in
    let without_urls := Py.strip (Re.sub re_spaces (λ _, py " ") without_urls) in
    (length without_urls <? 100)%nat.

Definition normalized_body (msg : RawMessage) : str :=
  Re.sub re_leading_markdown (λ _, []) (Py.lstrip (get_message_content msg).1).

Definition is_category_post (msg : RawMessage) : bool :=
  if negb (bool_decide (m_type msg = Some M_ROOM_MESSAGE)) then false
  else
    let relates_to := relates_to_of (content_of msg) in
    if bool_decide (r_rel_type relates_to = Some M_REPLACE) then false
    else if bool_decide (r_rel_type relates_to = Some M_THREAD) then false
    else existsb (λ emoji, Py.startswith (normalized_body msg) emoji) CATEGORY_EMOJIS.

Fixpoint type_of_emoji (body body_normalized : str) (table : list (str * str)) : str :=
  match table with
  | [] => py "field_note"
  | (emoji, t) :: table' =>
      if Py.startswith body_normalized emoji
         || Py.startswith body_normalized (emoji ++ VS16)
      then (if bool_decide (t = py "journal") && is_link_only body
            then py "link" else t)
      else type_of_emoji body body_normalized table'
  end.

Definition get_message_type (msg : RawMessage) (is_reply : bool) : str :=
  if is_reply then py "reply"
  else type_of_emoji (Py.lstrip (get_message_content msg).1)
         (normalized_body msg) EMOJI_TO_TYPE.

Definition get_parent_id (msg : RawMessage) : option str :=
  let content := content_of msg in
  let relates_to := relates_to_of content in
  if bool_decide (r_rel_type relates_to = Some M_THREAD) then r_event_id relates_to
  else
    let in_reply :=
      match r_in_reply_to relates_to with
      | Some d => if in_reply_nonempty d then Some d else c_in_reply_to content
      | None => c_in_reply_to content
      end in
    match in_reply with
    | Some d => if truthy (irt_event_id d) then irt_event_id d else None
    | None => None
    end.

(** The body of the loop of [build_edit_map]. *)
Definition edit_step (edits : gmap str (str * str)) (msg : RawMessage)
    : gmap str (str * str) :=
  if negb (bool_decide (m_type msg = Some M_ROOM_MESSAGE)) then edits
  else
    let content := content_of msg in
    let relates_to := relates_to_of content in
    if negb (bool_decide (r_rel_type relates_to = Some M_REPLACE)) then edits
    else
      match r_event_id relates_to with
      | Some ((_ :: _) as original_id) =>
          let '(b, fb) :=
            match c_new_content content with
            | Some nc =>
                if new_content_nonempty nc then (nc_body nc, nc_formatted_body nc)
                else (c_body content, c_formatted_body content)
            | None => (c_body content, c_formatted_body content)
            end in
          <[original_id := (default [] b, default [] fb)]> edits
      | _ => edits
      end.

Definition build_edit_map (messages : list RawMessage) : gmap str (str * str) :=
  foldl edit_step ∅ messages.

(** A Unicode table that knows no letter, digit or case outside ASCII; the
    examples are run with it. *)
Definition ascii_isalnum_only : N → bool := λ _, false.
Definition ascii_lower_only : list N → list N := λ s, s.

Section Engine.

(** The interpreter's Unicode database outside ASCII: [str.isalnum] on a
    code point (it decides [\w]) and [str.lower] on a string. *)
Variable uni_isalnum : N → bool.
Variable uni_lower : str → str.

(** [\w] *)
Definition is_word (c : N) : bool :=
  if Py.is_ascii c then Py.ascii_isalnum c || (c =? ord "_") else uni_isalnum c.

(** [s.lower()] *)
Definition lower (s : str) : str :=
  if forallb Py.is_ascii s then Py.ascii_lower <$> s else uni_lower s.

(** The hashtag pattern: [#], then the group, a [\w] followed by any
    number of [\w] or hyphens. *)
Definition re_hashtag : list Re.item :=
  [Re.chr (ord "#"); Re.Atom true Re.One is_word;
   Re.Atom true Re.Star (λ c, is_word c || (c =? ord "-"))].

(** The comprehension over the fields of the [keywords:] line. *)
Definition keyword_line_tokens (g : str) : list str :=
  (λ w, lower (Py.strip w)) <$> filter (λ w, Py.strip w ≠ []) (Py.split_on (ord ",") g).

(** The body of the loop over the bold spans. *)
Definition bold_step (keywords : list str) (span : str) : list str :=
  let phrase := Py.strip span in
  let n := length (Py.split phrase) in
  if (2 <=? n)%nat && (n <=? 4)%nat
     && negb (bool_decide (lower phrase ∈ lower <$> keywords))
  then keywords ++ [phrase] else keywords.

Definition extract_keywords (body : str) : list str :=
  let keywords :=
    match Re.search re_keywords body with
    | Some g => keyword_line_tokens g
    | None => []
    end in
  let keywords := keywords ++ Re.findall re_hashtag body in
  let keywords := foldl bold_step keywords (Re.findall re_bold body) in
  take 15 (Py.dedupe [] keywords).

Definition to_minimal_message (msg : RawMessage) (is_reply : bool)
    (edit_map : gmap str (str * str)) : MinimalMessage :=
  let eid := m_event_id msg in
  let ts := default 0%Z (m_origin_server_ts msg) in
  let msg_type := get_message_type msg is_reply in
  let parent_id := if is_reply then get_parent_id msg else None in
  let '(body, formatted_body) :=
    match edit_map !! eid with
    | Some e => e
    | None => get_message_content msg
    end in
  {| mm_id := eid;
     mm_ts := Some ts;
     mm_type := msg_type;
     mm_body := body;
     mm_parent_id := match parent_id with Some p => Val p | None => Null end;
     mm_formatted_body :=
       if bool_decide (formatted_body = []) then None else Some formatted_body;
     mm_keywords :=
       if is_reply then None
       else match extract_keywords body with
            | [] => None
            | kw => Some kw
            end |}.

(** *** [process_messages], piece by piece *)

Definition already_processed_of (existing_export : option ExportState) : gset str :=
  match existing_export with
  | Some e => list_to_set (processed_ids e)
  | None => ∅
  end.

Definition existing_messages_of (existing_export : option ExportState)
    : list MinimalMessage :=
  match existing_export with
  | Some e => messages e
  | None => []
  end.

Definition existing_last_ts_of (existing_export : option ExportState) : Z :=
  match existing_export with
  | Some e => last_processed_ts e
  | None => 0%Z
  end.

Definition new_only_of (messages : list RawMessage)
    (existing_export : option ExportState) : list RawMessage :=
  match existing_export with
  | Some _ =>
      filter (λ m, m_event_id m ∉ already_processed_of existing_export) messages
  | None => messages
  end.

(** Ids of the persisted records without a (truthy) [parent_id]. *)
Definition existing_root_ids_of (existing_export : option ExportState) : gset str :=
  list_to_set
    (mm_id <$> filter (λ m, field_truthy (mm_parent_id m) = false)
                 (existing_messages_of existing_export)).

Definition root_step (roots : gset str) (msg : RawMessage) : gset str :=
  if is_category_post msg && negb (bool_decide (m_event_id msg = []))
  then {[m_event_id msg]} ∪ roots else roots.

Definition category_root_ids_of (existing_root_ids : gset str)
    (new_only : list RawMessage) : gset str :=
  foldl root_step existing_root_ids new_only.

(** The first scan: direct children of the roots. *)
Definition child_step (category_root_ids keep_ids : gset str) (msg : RawMessage)
    : gset str :=
  if negb (bool_decide (m_type msg = Some M_ROOM_MESSAGE)) then keep_ids
  else
    match get_parent_id msg with
    | Some ((_ :: _) as root_id) =>
        if bool_decide (root_id ∈ category_root_ids)
        then {[m_event_id msg]} ∪ keep_ids else keep_ids
    | _ => keep_ids
    end.

(** The body of the [for] inside the [while]: the state is [keep_ids]
    and the flag [changed]. *)
Definition closure_step (st : gset str * bool) (msg : RawMessage) : gset str * bool :=
  if negb (bool_decide (m_type msg = Some M_ROOM_MESSAGE)) then st
  else if bool_decide (m_event_id msg ∈ st.1) then st
  else
    match get_parent_id msg with
    | Some ((_ :: _) as parent_id) =>
        if bool_decide (parent_id ∈ st.1)
        then ({[m_event_id msg]} ∪ st.1, true) else st
    | _ => st
    end.

Definition closure_pass (new_only : list RawMessage) (keep_ids : gset str)
    : gset str * bool :=
  foldl closure_step (keep_ids, false) new_only.

(** [while changed: ...] with the number of passes bounded by [fuel]. *)
Fixpoint closure_loop (fuel : nat) (new_only : list RawMessage) (keep_ids : gset str)
    : option (gset str) :=
  match fuel with
  | O => None
  | S fuel' =>
      let '(keep_ids', changed) := closure_pass new_only keep_ids in
      if changed then closure_loop fuel' new_only keep_ids' else Some keep_ids'
  end.

(** The loop run with one pass more than there are messages, which is
    always enough (see [closure_loop_terminates]). *)
Definition thread_closure (new_only : list RawMessage) (keep_ids : gset str)
    : gset str :=
  default keep_ids (closure_loop (S (length new_only)) new_only keep_ids).

Definition keep_ids_of (category_root_ids : gset str) (new_only : list RawMessage)
    : gset str :=
  thread_closure new_only
    (foldl (child_step category_root_ids) category_root_ids new_only).

Definition raw_ts (m : RawMessage) : Z := default 0%Z (m_origin_server_ts m).
Definition min_ts (m : MinimalMessage) : Z := default 0%Z (mm_ts m).

Definition kept_of (keep_ids : gset str) (new_only : list RawMessage)
    : list RawMessage :=
  sort_by raw_ts (filter (λ m, m_event_id m ∈ keep_ids) new_only).

Definition minimal_new_of (category_root_ids : gset str)
    (edit_map : gmap str (str * str)) (kept : list RawMessage)
    : list MinimalMessage :=
  (λ m, to_minimal_message m
          (negb (bool_decide (m_event_id m ∈ category_root_ids))) edit_map) <$> kept.

Definition process_messages (messages : list RawMessage)
    (existing_export : option ExportState) : ExportState :=
  let already_processed := already_processed_of existing_export in
  let existing_messages := existing_messages_of existing_export in
  let existing_last_ts := existing_last_ts_of existing_export in
  let new_only := new_only_of messages existing_export in
  let existing_root_ids := existing_root_ids_of existing_export in
  let category_root_ids := category_root_ids_of existing_root_ids new_only in
  let keep_ids := keep_ids_of category_root_ids new_only in
  let kept := kept_of keep_ids new_only in
  let edit_map := build_edit_map messages in
  let minimal_new := minimal_new_of category_root_ids edit_map kept in
  let '(minimal, processed) :=
    match existing_messages with
    | _ :: _ =>
        (sort_by min_ts (existing_messages ++ minimal_new),
         sorted_ids (already_processed ∪ keep_ids))
    | [] => (minimal_new, sorted_ids keep_ids)
    end in
  {| messages := minimal;
     processed_ids := processed;
     last_processed_ts := foldr Z.max existing_last_ts (raw_ts <$> kept) |}.

End Engine.

(** ** Predicates of the specification *)

Local Close Scope N_scope.

(** Sorted ascending by a key. *)
Definition sorted_by {A} (key : A → Z) : list A → Prop :=
  Sorted (λ a b, (key a ≤ key b)%Z).

(** [m] is a text message whose parent reference resolves to the
    (non-empty) id [p]. *)
Definition is_child_of (m : RawMessage) (p : str) : Prop :=
  m_type m = Some M_ROOM_MESSAGE ∧ get_parent_id m = Some p ∧ p ≠ [].

(** Thread closure: the ids reachable from the seeds through the resolved
    parent references of the messages of [new_only]. *)
Inductive reachable (seeds : gset str) (new_only : list RawMessage) : str → Prop :=
| reach_seed e : e ∈ seeds → reachable seeds new_only e
| reach_child m p :
    m ∈ new_only → is_child_of m p → reachable seeds new_only p →
    reachable seeds new_only (m_event_id m).

(** No message of [l] can still be added to [K]. *)
Definition closed_on (l : list RawMessage) (K : gset str) : Prop :=
  ∀ m p, m ∈ l → is_child_of m p → p ∈ K → m_event_id m ∈ K.

(** The ids of the messages of a batch. *)
Definition event_ids (l : list RawMessage) : gset str :=
  list_to_set (m_event_id <$> l).

(** A reply chain hanging from [p]: each message answers the one before. *)
Fixpoint reply_chain (p : str) (ms : list RawMessage) : Prop :=
  match ms with
  | [] => True
  | m :: ms' => is_child_of m p ∧ reply_chain (m_event_id m) ms'
  end.

(** [e] is an edit event whose target is the (non-empty) id [t]. *)
Definition is_edit_of (e : RawMessage) (t : str) : Prop :=
  m_type e = Some M_ROOM_MESSAGE
  ∧ r_rel_type (relates_to_of (content_of e)) = Some M_REPLACE
  ∧ r_event_id (relates_to_of (content_of e)) = Some t
  ∧ t ≠ [].

(** The replacement text an edit event carries: that of its nested new
    content when there is one, else its own top-level content. *)
Definition replacement_of (e : RawMessage) : str * str :=
  let content := content_of e in
  match c_new_content content with
  | Some nc =>
      if new_content_nonempty nc
      then (default [] (nc_body nc), default [] (nc_formatted_body nc))
      else (default [] (c_body content), default [] (c_formatted_body content))
  | None => (default [] (c_body content), default [] (c_formatted_body content))
  end.

(** Leading decoration that the root test skips: whitespace and the
    markdown characters [#], [-] and [*]. *)
Definition is_decoration (c : N) : Prop :=
  Py.isspace c = true ∨ c = ord "#" ∨ c = ord "-" ∨ c = ord "*".

(** The body, after its leading decoration, starts with a marker glyph. *)
Definition glyph_prefixed (body : str) : Prop :=
  ∃ deco glyph rest,
    body = deco ++ glyph ++ rest ∧ Forall is_decoration deco
    ∧ glyph ∈ CATEGORY_EMOJIS.

(** The text [is_link_only] judges: the body without its "originally
    posted" annotations and without marker glyphs, stripped. *)
Definition link_text (body : str) : str :=
  Py.strip
    (strip_emojis
       (Re.sub re_originally_posted (λ _, [])
          (Re.sub re_originally_posted_italic (λ _, []) body))).

(** The prose left once the addresses are removed: markdown links reduced
    to their titles, whitespace runs to one space, stripped. *)
Definition prose_of (text : str) : str :=
  Py.strip
    (Re.sub re_spaces (λ _, py " ")
       (Re.sub re_markdown_link (λ g, g) (Re.sub re_url (λ _, []) text))).

Definition is_scheme (s : str) : Prop := s = py "http://" ∨ s = py "https://".
Definition all_space (s : str) : Prop := Forall (λ c, Py.isspace c = true) s.

(** A bare URL and nothing else: [http://] or [https://] and a non-empty
    run without whitespace, whitespace around it allowed. *)
Definition is_bare_url (t : str) : Prop :=
  ∃ ws scheme u ws',
    t = ws ++ scheme ++ u ++ ws'
    ∧ all_space ws ∧ is_scheme scheme
    ∧ u ≠ [] ∧ Forall (λ c, Py.isspace c = false) u
    ∧ all_space ws'.

(** A single markdown link and nothing else: a bracketed title and a
    parenthesised address, whitespace around it allowed. *)
Definition is_single_markdown_link (t : str) : Prop :=
  ∃ ws title scheme u ws',
    t = ws ++ py "[" ++ title ++ py "](" ++ scheme ++ u ++ py ")" ++ ws'
    ∧ all_space ws
    ∧ Forall (λ c, c ≠ ord "]") title
    ∧ is_scheme scheme
    ∧ u ≠ [] ∧ Forall (λ c, c ≠ ord ")") u
    ∧ all_space ws'.

(** [text] spells [w], case folded as [re.IGNORECASE] does. *)
Definition ci_word (w text : str) : Prop :=
  Forall2 (λ p c, Re.ci_eq p c = true) w text.

(** The label of a keywords line: [keyword] or [keywords] in any case,
    a colon, whitespace allowed on both sides of the colon. *)
Definition is_keywords_label (label : str) : Prop :=
  ∃ word ws1 ws2,
    label = word ++ ws1 ++ py ":" ++ ws2
    ∧ (ci_word (py "keyword") word ∨ ci_word (py "keywords") word)
    ∧ all_space ws1 ∧ all_space ws2.

(** ** Sample events *)

(** A text message with a body and an optional relation. *)
Definition text_message (id : string) (ts : Z) (body : string)
    (rel : option RelatesTo) : RawMessage :=
  {| m_type := Some M_ROOM_MESSAGE;
     m_event_id := py id;
     m_origin_server_ts := Some ts;
     m_content := Some {| c_body := Some (py body);
                          c_formatted_body := None;
                          c_relates_to := rel;
                          c_in_reply_to := None;
                          c_new_content := None |} |}.

Definition in_reply_to (parent : string) : option RelatesTo :=
  Some {| r_rel_type := None;
          r_event_id := None;
          r_in_reply_to := Some {| irt_event_id := Some (py parent);
                                   irt_other_keys := false |} |}.

Definition in_thread (parent : string) : option RelatesTo :=
  Some {| r_rel_type := Some M_THREAD;
          r_event_id := Some (py parent);
          r_in_reply_to := None |}.

(** An edit of [target] whose new text is [body]. *)
Definition edit_message (id : string) (ts : Z) (target body : string) : RawMessage :=
  {| m_type := Some M_ROOM_MESSAGE;
     m_event_id := py id;
     m_origin_server_ts := Some ts;
     m_content := Some {| c_body := Some (py ("* " ++ body));
                          c_formatted_body := None;
                          c_relates_to := Some {| r_rel_type := Some M_REPLACE;
                                                  r_event_id := Some (py target);
                                                  r_in_reply_to := None |};
                          c_in_reply_to := None;
                          c_new_content := Some {| nc_body := Some (py body);
                                                   nc_formatted_body := None;
                                                   nc_other_keys := true |} |} |}.

(** A glyph-prefixed message that answers another one directly. *)
Definition glyph_reply : RawMessage :=
  text_message "$reply" 2 "💡 an idea in passing" (in_reply_to "$parent").

(** A root and a chain of three replies, delivered out of order. *)
Definition chain_batch : list RawMessage :=
  [ text_message "$r3" 4 "third" (in_reply_to "$r2");
    text_message "$r1" 2 "first" (in_thread "$root");
    text_message "$r2" 3 "second" (in_reply_to "$r1");
    text_message "$root" 1 "❓ who knows" None;
    text_message "$lost" 5 "nobody home" (in_reply_to "$nowhere") ].

(** A root and a later edit of it. *)
Definition draft_batch : list RawMessage :=
  [ text_message "$A" 1 "💡 draft" None;
    edit_message "$edit" 2 "$A" "final" ].

(** Two messages that answer each other, and no root. *)
Definition cyclic_batch : list RawMessage :=
  [ text_message "$a" 1 "ping" (in_reply_to "$b");
    text_message "$b" 2 "pong" (in_reply_to "$a") ].

(** A state that lists a processed id and holds no record. *)
Definition stale_state : ExportState :=
  {| messages := []; processed_ids := [py "$root"]; last_processed_ts := 0 |}.

(** Decides a closed decidable proposition by evaluation. *)
Ltac by_computation := apply (bool_decide_unpack _); vm_compute; exact I.

(** * The quality gate of [validate_export.py] *)

Module Str.

Local Open Scope N_scope.

(** [sub in s] *)
Fixpoint contains (s sub : str) : bool :=
  Py.startswith s sub
  || match s with
     | [] => false
     | _ :: t => contains t sub
     end.

(** [s.endswith(c)] for a one-character suffix. *)
Definition endswith_char (s : str) (c : N) : bool :=
  match last s with
  | Some d => d =? c
  | None => false
  end.

Definition ascii_isalpha (c : N) : bool :=
  Py.ascii_isupper c || Py.ascii_islower c.

End Str.

(** An entry of the validation report. *)
Record FlaggedItem := mkFlagged {
  f_id : str;
  f_type : str;
  f_body_preview : str;
  f_issues : list str }.

(** The validation report. *)
Record Report := mkReport {
  rep_total : nat;
  rep_valid_count : nat;
  rep_flagged_count : nat;
  rep_flagged : list FlaggedItem }.

#[global] Instance FlaggedItem_eq_dec : EqDecision FlaggedItem.
Proof. solve_decision. Defined.
#[global] Instance Report_eq_dec : EqDecision Report.
Proof. solve_decision. Defined.

(** [not m.get("parent_id")] *)
Definition is_root_record (m : MinimalMessage) : bool :=
  negb (field_truthy (mm_parent_id m)).

Definition REPLACEMENT_CHARACTER : N := 0xFFFD%N.
Definition BACKSLASH : N := 92%N.

Module ValidateExport.

Section Validator.

(** [str.isalpha] outside ASCII, a table of the interpreter. *)
Variable uni_isalpha : N → bool.

Definition isalpha (c : N) : bool :=
  if Py.is_ascii c then Str.ascii_isalpha c else uni_isalpha c.

Definition has_url (body : str) : bool :=
  Str.contains body (py "http://") || Str.contains body (py "https://").

Definition validate_message (msg : MinimalMessage) (is_root : bool) : list str :=
  let body := Py.strip (mm_body msg) in
  let body_len := length body in
  if is_root then
    (if (body_len <? 25)%nat && negb (has_url body)
     then [py "empty_or_minimal"] else [])
    ++ (if (0 <? body_len)%nat && (body_len <? 100)%nat
           && negb (existsb isalpha body)
        then [py "no_substantive_text"] else [])
    ++ (if Str.contains body [REPLACEMENT_CHARACTER]
           || Str.endswith_char body BACKSLASH
        then [py "possible_encoding_issue"] else [])
  else [].

(** The first 120 characters of the body, on one line. *)
Definition body_preview (m : MinimalMessage) : str :=
  Py.replace [10%N] (py " ") (take 120 (mm_body m)).

(** The issues of a record, as the loop of [validate_export] computes
    them, and the entry the loop writes for a flagged record. *)
Definition issues_of (m : MinimalMessage) : list str :=
  validate_message m (is_root_record m).

Definition flagged_item (m : MinimalMessage) : FlaggedItem :=
  {| f_id := mm_id m;
     f_type := mm_type m;
     f_body_preview := body_preview m;
     f_issues := issues_of m |}.

(** The body of the loop of [validate_export]: the state is the pair of
    the lists [valid] and [flagged]. *)
Definition validate_step (st : list MinimalMessage * list FlaggedItem)
    (m : MinimalMessage) : list MinimalMessage * list FlaggedItem :=
  match issues_of m with
  | _ :: _ => (st.1, st.2 ++ [flagged_item m])
  | [] => (st.1 ++ [m], st.2)
  end.

(** [validate_export], on the document read from the file. *)
Definition validate_export (data : ExportState)
    : list MinimalMessage * list FlaggedItem :=
  foldl validate_step ([], []) (messages data).

(** [main], from the document read to the report written, the document
    left in the export file and the exit status.  The file is rewritten
    only when something is flagged. *)
Definition main (data : ExportState) : Report * ExportState * Z :=
  let '(valid, flagged) := validate_export data in
  let report := {| rep_total := length valid + length flagged;
                   rep_valid_count := length valid;
                   rep_flagged_count := length flagged;
                   rep_flagged := flagged |} in
  match flagged with
  | _ :: _ =>
      let flagged_ids : gset str := list_to_set (f_id <$> flagged) in
      (report,
       {| messages := valid;
          processed_ids := filter (λ i, i ∉ flagged_ids) (processed_ids data);
          last_processed_ts := last_processed_ts data |},
       1%Z)
  | [] => (report, data, 0%Z)
  end.

(** The document the gate leaves in the export file. *)
Definition gated (data : ExportState) : ExportState := (main data).1.2.

End Validator.

End ValidateExport.

(** A table that knows no letter outside ASCII; the examples are run with
    it. *)
Definition ascii_isalpha_only : N → bool := λ _, false.

(** * The review listing of [export.py] *)

(** The line [review_types] prints for a root. *)
Definition review_line (m : MinimalMessage) : str :=
  let body := Py.rstrip (Py.replace [10%N] (py " ") (take 80 (mm_body m))) in
  let suffix := if (80 <? length (mm_body m))%nat then py "..." else [] in
  mm_id m ++ [9%N] ++ mm_type m ++ [9%N] ++ body ++ suffix.

(** [review_types], on the document read: the lines printed, in order. *)
Definition review_types (data : ExportState) : list str :=
  review_line <$> filter (λ m, field_truthy (mm_parent_id m) = false) (messages data).

(** * Reading notes *)

(** The text without the code points of the marker glyphs. *)
Definition without_glyphs (s : str) : str :=
  filter (λ c, [c] ∉ CATEGORY_EMOJIS) s.

(** A reading note whose first sentence happens to hold the two words of
    the annotation: 190 characters on one line, no address. *)
Definition reposted_note : RawMessage :=
  text_message "$note" 1
    "📥 I originally posted this elsewhere, but the argument deserves repeating in full: incentives shape behaviour far more than rules do, and the paper shows it with three careful field studies."
    None.

(** The two sample bodies of a reading note: an address alone, and a note
    of more than 100 characters. *)
Definition bare_address_note : RawMessage :=
  text_message "$l" 1 "📥 https://example.com/article" None.
Definition long_note : RawMessage :=
  text_message "$j" 2
    "📥 I found this paper interesting because it argues X at length, and I keep coming back to its second section on incentives."
    None.

(** * The bot of [bot.py] *)

(** An event as the client API delivers it, a dictionary.  A key can be
    missing, which [ev.get(k, default)] tells from a key that holds [null].
    As for [RawMessage], the keys listed are those the export reads;
    [sender], [room_id] and [unsigned] are carried along and never looked
    at. *)
Record ClientEvent := mkEvent {
  ev_type : field str;
  ev_event_id : str;
  ev_origin_server_ts : field Z;
  ev_content : field Content }.

#[global] Instance ClientEvent_eq_dec : EqDecision ClientEvent.
Proof. solve_decision. Defined.

(** [ev.get(k)] and [ev.get(k, default)] *)
Definition get {A} (f : field A) : option A :=
  match f with
  | Val a => Some a
  | _ => None
  end.
Definition get_default {A} (f : field A) (default : A) : option A :=
  match f with
  | Absent => Some default
  | Null => None
  | Val a => Some a
  end.

(** The event read as [export.py] reads the events of an export file:
    through [msg.get(k)], which gives [None] for a missing key. *)
Definition raw_message (ev : ClientEvent) : RawMessage :=
  {| m_type := get (ev_type ev);
     m_event_id := ev_event_id ev;
     m_origin_server_ts := get (ev_origin_server_ts ev);
     m_content := get (ev_content ev) |}.

Definition event_to_message (ev : ClientEvent) : RawMessage :=
  {| m_type := get_default (ev_type ev) M_ROOM_MESSAGE;
     m_event_id := ev_event_id ev;
     m_origin_server_ts := get_default (ev_origin_server_ts ev) 0%Z;
     m_content := get_default (ev_content ev) (mkContent None None None None None) |}.

(** What [client.room_messages] answers: an error, something that is not
    a [RoomMessagesResponse], or a page of events with the token of the
    next page. *)
Inductive Response :=
| RoomMessagesError
| OtherResponse
| RoomMessagesResponse (chunk : list ClientEvent) (end_token : option str).

(** The events of a page that the loop of [fetch_room_messages] takes. *)
Definition is_text_event (ev : ClientEvent) : bool :=
  bool_decide (get (ev_type ev) = Some M_ROOM_MESSAGE).

(** The loop of [fetch_room_messages], run on the answers the client gets
    to its successive requests; [None] when the answers run out before the
    loop stops. *)
Fixpoint fetch_loop (responses : list Response) (messages : list RawMessage)
    : option (list RawMessage) :=
  match responses with
  | [] => None
  | RoomMessagesError :: _ => Some messages
  | OtherResponse :: _ => Some messages
  | RoomMessagesResponse chunk end_token :: responses' =>
      match chunk with
      | [] => Some messages
      | _ :: _ =>
          let messages :=
            messages ++ (event_to_message <$> filter (λ ev, is_text_event ev = true) chunk) in
          if truthy end_token then fetch_loop responses' messages
          else Some messages
      end
  end.

Definition fetch_room_messages (responses : list Response)
    : option (list RawMessage) :=
  sort_by raw_ts <$> fetch_loop responses [].

(** The page an answer brings, and whether the loop goes on after it. *)
Definition chunk_of (resp : Response) : list ClientEvent :=
  match resp with
  | RoomMessagesResponse chunk _ => chunk
  | _ => []
  end.
Definition goes_on (resp : Response) : bool :=
  match resp with
  | RoomMessagesResponse (_ :: _) end_token => truthy end_token
  | _ => false
  end.

(** An event with its defaults filled in: the merge reads an event through
    its type, its id, [raw_ts] and [content_of] only. *)
Definition filled (m : RawMessage) : RawMessage :=
  {| m_type := m_type m;
     m_event_id := m_event_id m;
     m_origin_server_ts := Some (raw_ts m);
     m_content := Some (content_of m) |}.

(** A text event of the client, with all its keys. *)
Definition text_event (id : string) (ts : Z) (body : string) : ClientEvent :=
  {| ev_type := Val M_ROOM_MESSAGE;
     ev_event_id := py id;
     ev_origin_server_ts := Val ts;
     ev_content := Val {| c_body := Some (py body);
                          c_formatted_body := None;
                          c_relates_to := None;
                          c_in_reply_to := None;
                          c_new_content := None |} |}.

(** A membership event, without content and without timestamp. *)
Definition member_event (id : string) : ClientEvent :=
  {| ev_type := Val (py "m.room.member");
     ev_event_id := py id;
     ev_origin_server_ts := Absent;
     ev_content := Absent |}.

(** ** More sample events *)

(** A root and a reply to it, and the same history once a reply to the
    reply has come. *)
Definition first_delivery : list RawMessage :=
  [ text_message "$root" 1 "❓ who knows" None;
    text_message "$r1" 2 "first" (in_reply_to "$root") ].
Definition late_nested_reply : RawMessage :=
  text_message "$r2" 3 "second" (in_reply_to "$r1").
Definition second_delivery : list RawMessage :=
  first_delivery ++ [late_nested_reply].

(** A root that is a glyph and nothing else. *)
Definition bare_question : RawMessage := text_message "$q" 1 "❓" None.

(** A root and two successive edits of it. *)
Definition twice_edited_batch : list RawMessage :=
  [ text_message "$A" 1 "💡 draft" None;
    edit_message "$e1" 2 "$A" "second thoughts";
    edit_message "$e2" 3 "$A" "final" ].

(** Two pages of history, the newest first. *)
Definition newest_page : Response :=
  RoomMessagesResponse [text_event "$n2" 2 "later"; member_event "$j"]
    (Some (py "t1")).
Definition oldest_page : Response :=
  RoomMessagesResponse [text_event "$n1" 1 "earlier"] None.

(** ** Sorting *)

Lemma insert_by_perm {A} (key : A → Z) x l : insert_by key x l ≡ₚ x :: l.
Proof.
  induction l as [|y l IH]; simpl; [done|].
  destruct (key x <=? key y)%Z; [done|].
  rewrite IH. apply Permutation_swap.
Qed.

Lemma sort_by_perm {A} (key : A → Z) l : sort_by key l ≡ₚ l.
Proof.
  induction l as [|x l IH]; simpl; [done|].
  by rewrite insert_by_perm, IH.
Qed.

Lemma elem_of_sort_by {A} (key : A → Z) l x : x ∈ sort_by key l ↔ x ∈ l.
Proof. by rewrite sort_by_perm. Qed.

Lemma insert_by_sorted {A} (key : A → Z) x l :
  sorted_by key l → sorted_by key (insert_by key x l).
Proof.
  unfold sorted_by. induction 1 as [|y l Hl IH Hhd]; simpl.
  { repeat constructor. }
  destruct (Z.leb_spec (key x) (key y)).
  - constructor; [by constructor|by constructor].
  - constructor; [done|].
    destruct Hhd as [|z l' Hz]; simpl.
    + constructor. lia.
    + destruct (key x <=? key z)%Z; constructor; lia.
Qed.

Lemma sort_by_sorted {A} (key : A → Z) l : sorted_by key (sort_by key l).
Proof.
  induction l as [|x l IH]; simpl; [constructor|].
  by apply insert_by_sorted.
Qed.

(** A stable sort leaves a sorted list as it is. *)
Lemma sort_by_id {A} (key : A → Z) l : sorted_by key l → sort_by key l = l.
Proof.
  unfold sorted_by. induction 1 as [|x l Hl IH Hhd]; simpl; [done|].
  rewrite IH. destruct Hhd as [|y l' Hy]; simpl; [done|].
  by destruct (Z.leb_spec (key x) (key y)); [|lia].
Qed.

Lemma sorted_by_fmap {A B} (f : A → B) (key1 : A → Z) (key2 : B → Z) l :
  (∀ x, key2 (f x) = key1 x) → sorted_by key1 l → sorted_by key2 (f <$> l).
Proof.
  intros Hk. unfold sorted_by. induction 1 as [|x l Hl IH Hhd]; simpl.
  { constructor. }
  constructor; [done|].
  destruct Hhd; simpl; constructor. by rewrite !Hk.
Qed.

Lemma sorted_ids_perm (X : gset str) : sorted_ids X ≡ₚ elements X.
Proof. apply merge_sort_Permutation. Qed.

Lemma elem_of_sorted_ids (X : gset str) e : e ∈ sorted_ids X ↔ e ∈ X.
Proof. by rewrite sorted_ids_perm, elem_of_elements. Qed.

Lemma list_to_set_sorted_ids (X : gset str) : list_to_set (sorted_ids X) = X.
Proof.
  apply set_eq. intros e. by rewrite elem_of_list_to_set, elem_of_sorted_ids.
Qed.

Lemma sorted_ids_empty : sorted_ids ∅ = [].
Proof. apply Permutation_nil_r. by rewrite sorted_ids_perm, elements_empty. Qed.

(** ** The order on ids *)

Lemma str_leb_total a b : str_leb a b = true ∨ str_leb b a = true.
Proof.
  revert b. induction a as [|x a IH]; intros [|y b]; simpl; auto.
  destruct (N.ltb_spec x y), (N.ltb_spec y x), (N.eqb_spec x y), (N.eqb_spec y x);
    simpl; auto; try lia.
Qed.

#[global] Instance str_le_total : Total str_le.
Proof. intros a b. apply str_leb_total. Qed.

#[global] Instance str_le_trans : Transitive str_le.
Proof.
  unfold str_le. intros a. induction a as [|x a IH]; intros [|y b] [|z c]; simpl;
    try done.
  destruct (N.ltb_spec x y), (N.ltb_spec y z), (N.ltb_spec x z),
    (N.eqb_spec x y), (N.eqb_spec y z), (N.eqb_spec x z);
    simpl; try done; try lia.
  apply IH.
Qed.

#[global] Instance str_le_antisym : AntiSymm (=) str_le.
Proof.
  unfold str_le. intros a. induction a as [|x a IH]; intros [|y b]; simpl; try done.
  destruct (N.ltb_spec x y), (N.ltb_spec y x), (N.eqb_spec x y), (N.eqb_spec y x);
    simpl; try done; try lia.
  intros Hab Hba. subst. f_equal. by apply IH.
Qed.

(** [sorted(s)] is ascending and lists each member once. *)
Lemma sorted_ids_sorted (X : gset str) : Sorted str_le (sorted_ids X).
Proof. apply Sorted_merge_sort. apply _. Qed.

Lemma sorted_ids_NoDup (X : gset str) : NoDup (sorted_ids X).
Proof.
  unfold sorted_ids. rewrite merge_sort_Permutation. apply NoDup_elements.
Qed.

(** ** The closure loop *)

Lemma closure_step_cases st m :
  (closure_step st m = st
   ∧ ∀ p, is_child_of m p → p ∈ (st.1) → m_event_id m ∈ (st.1))
  ∨ (∃ p, is_child_of m p ∧ p ∈ (st.1) ∧ (m_event_id m ∉ st.1)
          ∧ closure_step st m = ({[m_event_id m]} ∪ (st.1), true)).
Proof.
  unfold closure_step, is_child_of.
  destruct (bool_decide_reflect (m_type m = Some M_ROOM_MESSAGE)) as [Ht|Ht]; simpl.
  2: { left. split; [done|]. by intros p [? _]. }
  destruct (bool_decide_reflect (m_event_id m ∈ st.1)) as [Hin|Hin].
  { left. by split. }
  destruct (get_parent_id m) as [[|c p]|] eqn:Hp.
  - left. split; [done|]. intros p (_ & [= <-] & ?). done.
  - destruct (bool_decide_reflect (c :: p ∈ st.1)) as [Hpin|Hpin].
    + right. exists (c :: p). done.
    + left. split; [done|]. intros p' (_ & [= <-] & _) ?. done.
  - left. split; [done|]. by intros p (_ & ? & _).
Qed.

Lemma fold_closure_step_mono l st : st.1 ⊆ (foldl closure_step st l).1.
Proof.
  revert st. induction l as [|m l IH]; intros st; simpl; [done|].
  etrans; [|apply IH].
  destruct (closure_step_cases st m) as [[-> _]|(p & _ & _ & _ & ->)]; set_solver.
Qed.

Lemma fold_closure_step_sub l st :
  (foldl closure_step st l).1 ⊆ st.1 ∪ event_ids l.
Proof.
  unfold event_ids.
  revert st. induction l as [|m l IH]; intros st; simpl; [set_solver|].
  etrans; [apply IH|].
  destruct (closure_step_cases st m) as [[-> _]|(p & _ & _ & _ & ->)]; set_solver.
Qed.

Lemma fold_closure_step_reach S N l st :
  l ⊆ N →
  (∀ e, e ∈ st.1 → reachable S N e) →
  ∀ e, e ∈ (foldl closure_step st l).1 → reachable S N e.
Proof.
  revert st. induction l as [|m l IH]; intros st Hl Hst; simpl; [done|].
  apply IH; [set_solver|].
  destruct (closure_step_cases st m) as [[-> _]|(p & Hc & Hp & _ & ->)]; [done|].
  simpl. intros e [->%elem_of_singleton|He]%elem_of_union; [|by auto].
  eapply reach_child; [|done|by auto]. set_solver.
Qed.

(** A scan either changes nothing, and then nothing could be added, or it
    raises the flag and the set has grown. *)
Lemma fold_closure_step_flag l st :
  let st' := foldl closure_step st l in
  (st' = st ∧ closed_on l st.1) ∨ (st'.2 = true ∧ st.1 ⊂ st'.1).
Proof.
  revert st. induction l as [|m l IH]; intros st; simpl.
  { left. split; [done|]. intros m p Hm; inv Hm. }
  destruct (closure_step_cases st m) as [[Heq Hm]|(p & Hc & Hp & Hnew & Heq)];
    rewrite Heq.
  - destruct (IH st) as [[Hst Hcl]|[Hfl Hsub]]; [left|by right].
    split; [done|].
    intros m' p' [->|Hin]%elem_of_cons ??; [by eapply Hm|by eapply Hcl].
  - right.
    assert (st.1 ⊂ ({[m_event_id m]} ∪ st.1 : gset str)) as Hgrow by set_solver.
    destruct (IH ({[m_event_id m]} ∪ st.1, true)) as [[Hst _]|[Hfl Hsub]].
    + rewrite Hst. done.
    + split; [done|]. simpl in Hsub. set_solver.
Qed.

Lemma size_event_ids l : size (event_ids l) ≤ length l.
Proof.
  unfold event_ids. induction l as [|m l IH].
  { by rewrite fmap_nil, list_to_set_nil, size_empty. }
  rewrite fmap_cons, list_to_set_cons, size_union_alt.
  assert (size (list_to_set (m_event_id <$> l) ∖ {[m_event_id m]} : gset str)
          ≤ size (list_to_set (m_event_id <$> l) : gset str)) as Hle
    by (apply subseteq_size; set_solver).
  rewrite size_singleton. simpl. lia.
Qed.

Lemma difference_shrinks (E K K1 : gset str) :
  K ⊂ K1 → K1 ⊆ K ∪ E → E ∖ K1 ⊂ E ∖ K.
Proof.
  intros [Hs Hn] Hsub. split; [set_solver|].
  intros Hc. apply Hn. intros e He.
  destruct (decide (e ∈ K)) as [|Hne]; [done|].
  assert (e ∈ E ∖ K) as HeE by set_solver.
  apply Hc in HeE. set_solver.
Qed.

(** With more fuel than there are ids left to add, the loop stops, and its
    result is the closure of its start. *)
Lemma closure_loop_spec fuel N K :
  size (event_ids N ∖ K) < fuel →
  ∃ K', closure_loop fuel N K = Some K'
        ∧ K ⊆ K' ∧ K' ⊆ K ∪ event_ids N ∧ closed_on N K'
        ∧ ∀ S, (∀ e, e ∈ K → reachable S N e) → ∀ e, e ∈ K' → reachable S N e.
Proof.
  revert K. induction fuel as [|fuel IH]; intros K Hfuel; [lia|].
  simpl. unfold closure_pass.
  pose proof (fold_closure_step_flag N (K, false)) as Hflag.
  pose proof (fold_closure_step_sub N (K, false)) as Hsub.
  pose proof (fold_closure_step_reach) as Hreach.
  specialize (λ S, Hreach S N N (K, false)).
  destruct (foldl closure_step (K, false) N) as [K1 ch] eqn:Hpass.
  simpl in *. destruct Hflag as [[[= -> ->] Hcl]|[-> Hgrow]].
  - exists K. repeat split; [done|set_solver|done|]. intros S HS. by apply Hreach.
  - destruct (IH K1) as (K' & Hloop & HK1 & HK' & Hcl & Hr).
    { pose proof (subset_size _ _ (difference_shrinks _ _ _ Hgrow Hsub)). lia. }
    exists K'. split; [done|]. split; [set_solver|]. split; [set_solver|].
    split; [done|]. intros S HS. apply Hr. by apply Hreach.
Qed.

Lemma closure_loop_enough N K :
  size (event_ids N ∖ K) < S (length N).
Proof.
  pose proof (size_event_ids N).
  assert (size (event_ids N ∖ K) ≤ size (event_ids N)) as Hle
    by (apply subseteq_size; set_solver).
  lia.
Qed.

Lemma thread_closure_spec N K :
  closure_loop (S (length N)) N K = Some (thread_closure N K)
  ∧ K ⊆ thread_closure N K
  ∧ thread_closure N K ⊆ K ∪ event_ids N
  ∧ closed_on N (thread_closure N K)
  ∧ ∀ S, (∀ e, e ∈ K → reachable S N e) →
         ∀ e, e ∈ thread_closure N K → reachable S N e.
Proof.
  destruct (closure_loop_spec (S (length N)) N K (closure_loop_enough N K))
    as (K' & Hloop & ?). unfold thread_closure. rewrite Hloop. simpl. done.
Qed.

(** The first scan adds children of the roots only. *)
Lemma fold_child_step_mono R l K : K ⊆ foldl (child_step R) K l.
Proof.
  revert K. induction l as [|m l IH]; intros K; simpl; [done|].
  etrans; [|apply IH]. unfold child_step.
  repeat case_match; set_solver.
Qed.


Lemma fold_child_step_reach R N l K :
  l ⊆ N →
  (∀ e, e ∈ K → reachable R N e) →
  ∀ e, e ∈ foldl (child_step R) K l → reachable R N e.
Proof.
  revert K. induction l as [|m l IH]; intros K Hl HK; simpl; [done|].
  apply IH; [set_solver|]. unfold child_step.
  destruct (bool_decide_reflect (m_type m = Some M_ROOM_MESSAGE)) as [Ht|?];
    simpl; [|done].
  destruct (get_parent_id m) as [[|c p]|] eqn:Hp; [done| |done].
  destruct (bool_decide_reflect (c :: p ∈ R)) as [Hin|?]; [|done].
  intros e [->%elem_of_singleton|He]%elem_of_union; [|by auto].
  eapply (reach_child _ _ m (c :: p)); [set_solver|done|by constructor].
Qed.

Lemma reachable_closed R N K e :
  R ⊆ K → closed_on N K → reachable R N e → e ∈ K.
Proof.
  intros HR Hcl. induction 1 as [e He|m p Hm Hc _ IH]; [set_solver|].
  by eapply Hcl.
Qed.


Lemma reachable_event_ids R N e : reachable R N e → e ∈ R ∪ event_ids N.
Proof.
  unfold event_ids. destruct 1 as [e He|m p Hm Hc _]; [set_solver|].
  apply elem_of_union_r, elem_of_list_to_set, list_elem_of_fmap. eauto.
Qed.

(** The keep-set is exactly the reachable ids. *)
Lemma elem_of_keep_ids R N e : e ∈ keep_ids_of R N ↔ reachable R N e.
Proof.
  unfold keep_ids_of.
  destruct (thread_closure_spec N (foldl (child_step R) R N))
    as (_ & Hsub & _ & Hcl & Hreach).
  split.
  - apply Hreach. apply fold_child_step_reach; [done|]. by constructor.
  - apply reachable_closed; [|done].
    etrans; [apply fold_child_step_mono|done].
Qed.

Lemma keep_ids_closed R N : closed_on N (keep_ids_of R N).
Proof.
  intros m p Hm Hc Hp. apply elem_of_keep_ids.
  eapply reach_child; [done..|]. by apply elem_of_keep_ids.
Qed.

Lemma keep_ids_roots R N : R ⊆ keep_ids_of R N.
Proof. intros e He. apply elem_of_keep_ids. by constructor. Qed.

Lemma keep_ids_sub R N : keep_ids_of R N ⊆ R ∪ event_ids N.
Proof. intros e He%elem_of_keep_ids. by apply reachable_event_ids. Qed.

(** ** Roots and kept messages *)

Lemma elem_of_category_root_ids E N e :
  e ∈ category_root_ids_of E N
  ↔ e ∈ E ∨ ∃ m, m ∈ N ∧ is_category_post m = true ∧ m_event_id m ≠ []
                 ∧ m_event_id m = e.
Proof.
  unfold category_root_ids_of. revert E.
  induction N as [|m N IH]; intros E; simpl.
  { split; [by left|]. intros [?|(m & Hm & _)]; [done|]. inv Hm. }
  rewrite IH. unfold root_step.
  destruct (is_category_post m) eqn:Hcat; simpl.
  - destruct (bool_decide_reflect (m_event_id m = [])) as [Hnil|Hnil]; simpl.
    + split; (intros [?|(m' & Hm' & ? & ? & ?)]; [by left|right]).
      * exists m'. split; [by right|done].
      * apply elem_of_cons in Hm' as [->|?]; [congruence|by exists m'].
    + rewrite elem_of_union, elem_of_singleton. split.
      * intros [[->|?]|(m' & Hm' & ?)]; [right|by left|right].
        -- exists m. split; [by left|done].
        -- exists m'. split; [by right|done].
      * intros [?|(m' & [->|?]%elem_of_cons & ? & ? & <-)];
          [by left; right|by left; left|right]. by exists m'.
  - split; (intros [?|(m' & Hm' & Hc & ? & ?)]; [by left|right]).
    + exists m'. split; [by right|done].
    + apply elem_of_cons in Hm' as [->|?]; [congruence|by exists m'].
Qed.

Lemma category_root_ids_existing E N : E ⊆ category_root_ids_of E N.
Proof. intros e He. apply elem_of_category_root_ids. by left. Qed.

Lemma elem_of_kept K N m : m ∈ kept_of K N ↔ m ∈ N ∧ m_event_id m ∈ K.
Proof.
  unfold kept_of.
  by rewrite elem_of_sort_by, list_elem_of_filter, (comm _ (_ ∈ K)).
Qed.

Lemma closure_loop_more_fuel fuel extra N K K' :
  closure_loop fuel N K = Some K' → closure_loop (fuel + extra) N K = Some K'.
Proof.
  revert K. induction fuel as [|fuel IH]; intros K; simpl; [done|].
  destruct (closure_pass N K) as [K1 [|]]; [apply IH|done].
Qed.

Lemma reply_chain_reachable R N p ms :
  reachable R N p → ms ⊆ N → reply_chain p ms →
  ∀ m, m ∈ ms → reachable R N (m_event_id m).
Proof.
  revert p. induction ms as [|m0 ms IH]; intros p Hp Hsub Hch m Hm; [inv Hm|].
  destruct Hch as [Hc Hch].
  assert (reachable R N (m_event_id m0)) as H0.
  { eapply reach_child; [|done..]. apply Hsub. by left. }
  apply elem_of_cons in Hm as [->|Hm]; [done|].
  eapply IH; [exact H0| |done..]. set_solver.
Qed.

Lemma elem_of_existing_root_ids prior e :
  e ∈ existing_root_ids_of prior
  ↔ ∃ r, r ∈ existing_messages_of prior
         ∧ field_truthy (mm_parent_id r) = false ∧ mm_id r = e.
Proof.
  unfold existing_root_ids_of.
  rewrite elem_of_list_to_set, list_elem_of_fmap.
  setoid_rewrite list_elem_of_filter. naive_solver.
Qed.

(** ** New messages and the edit map *)

Lemma new_only_fresh batch prior m :
  m ∈ new_only_of batch (Some prior) →
  m ∈ batch ∧ m_event_id m ∉ processed_ids prior.
Proof.
  unfold new_only_of. rewrite list_elem_of_filter. simpl.
  rewrite elem_of_list_to_set. tauto.
Qed.

Lemma elem_of_new_only batch prior m :
  m ∈ new_only_of batch prior
  ↔ m ∈ batch ∧ m_event_id m ∉ already_processed_of prior.
Proof.
  destruct prior as [prior|]; simpl.
  - rewrite list_elem_of_filter. tauto.
  - set_solver.
Qed.

(** The last edit of a target is the one the map holds. *)
Lemma edit_step_lookup em e t :
  edit_step em e !! t
  = if bool_decide (is_edit_of e t) then Some (replacement_of e) else em !! t.
Proof.
  unfold edit_step, is_edit_of, replacement_of.
  destruct (bool_decide_reflect (m_type e = Some M_ROOM_MESSAGE)) as [Ht|Ht]; simpl.
  2: { rewrite bool_decide_eq_false_2; [done|]. tauto. }
  destruct (bool_decide_reflect
              (r_rel_type (relates_to_of (content_of e)) = Some M_REPLACE))
    as [Hr|Hr]; simpl.
  2: { rewrite bool_decide_eq_false_2; [done|]. tauto. }
  destruct (r_event_id (relates_to_of (content_of e))) as [[|c t']|] eqn:Hid.
  - rewrite bool_decide_eq_false_2; [done|]. intros (_ & _ & [= <-] & ?). done.
  - destruct (decide (c :: t' = t)) as [<-|Hne].
    + rewrite bool_decide_eq_true_2 by done.
      destruct (c_new_content (content_of e)) as [nc|];
        [destruct (new_content_nonempty nc)|]; by rewrite lookup_insert_eq.
    + rewrite bool_decide_eq_false_2 by (intros (_ & _ & [= ?] & _); done).
      destruct (c_new_content (content_of e)) as [nc|];
        [destruct (new_content_nonempty nc)|]; by rewrite lookup_insert_ne.
  - rewrite bool_decide_eq_false_2; [done|]. by intros (_ & _ & ? & _).
Qed.

Lemma fold_edit_step_no_edit l em t :
  (∀ e, e ∈ l → ¬ is_edit_of e t) → foldl edit_step em l !! t = em !! t.
Proof.
  revert em. induction l as [|e l IH]; intros em Hno; simpl; [done|].
  rewrite IH by (intros; apply Hno; by right).
  rewrite edit_step_lookup, bool_decide_eq_false_2; [done|]. apply Hno. by left.
Qed.

Lemma build_edit_map_last before e after t :
  is_edit_of e t → (∀ e', e' ∈ after → ¬ is_edit_of e' t) →
  build_edit_map (before ++ e :: after) !! t = Some (replacement_of e).
Proof.
  intros He Hno. unfold build_edit_map. rewrite foldl_app. simpl.
  rewrite fold_edit_step_no_edit by done.
  by rewrite edit_step_lookup, bool_decide_eq_true_2.
Qed.

Lemma build_edit_map_none batch t :
  (∀ e, e ∈ batch → ¬ is_edit_of e t) → build_edit_map batch !! t = None.
Proof. intros Hno. unfold build_edit_map. by rewrite fold_edit_step_no_edit. Qed.

(** ** The matcher *)

Lemma greedy_sound {R} cls (k : str → str → option R) acc s r :
  Re.greedy cls k acc s = Some r →
  ∃ m rest, s = m ++ rest ∧ Forall (λ c, cls c = true) m
            ∧ k (acc ++ m) rest = Some r.
Proof.
  revert acc. induction s as [|c t IH]; intros acc; simpl.
  { intros Hk. exists [], []. rewrite (app_nil_r acc). by split; [|split; [constructor|]]. }
  destruct (cls c) eqn:Hc.
  - destruct (Re.greedy cls k (acc ++ [c]) t) as [r'|] eqn:Hg.
    + intros [= ->]. destruct (IH _ Hg) as (m & rest & -> & Hm & Hk).
      exists (c :: m), rest. rewrite <- app_assoc in Hk.
      split; [done|]. split; [by constructor|done].
    + intros Hk. exists [], (c :: t). rewrite (app_nil_r acc).
      by split; [|split; [constructor|]].
  - intros Hk. exists [], (c :: t). rewrite (app_nil_r acc).
    by split; [|split; [constructor|]].
Qed.

Lemma greedy_complete {R} cls (k : str → str → option R) acc m rest :
  Forall (λ c, cls c = true) m → is_Some (k (acc ++ m) rest) →
  is_Some (Re.greedy cls k acc (m ++ rest)).
Proof.
  intros Hm. revert acc. induction Hm as [|c m Hc Hm IH]; intros acc Hk; simpl.
  - rewrite app_nil_r in Hk. destruct rest as [|c t]; simpl; [done|].
    destruct (cls c); [|done]. by destruct (Re.greedy cls k (acc ++ [c]) t).
  - rewrite Hc. rewrite (assoc_L _ acc [c] m : acc ++ c :: m = _) in Hk.
    destruct (IH _ Hk) as [r ->]. done.
Qed.

(** When the continuation cannot fail, the class takes all it can. *)
Lemma greedy_maximal {R} cls (k : str → str → option R) acc s :
  (∀ m rest, is_Some (k m rest)) →
  Re.greedy cls k acc s
  = k (acc ++ Py.take_while cls s) (Py.drop_while cls s).
Proof.
  intros Hk. revert acc. induction s as [|c t IH]; intros acc; simpl.
  { by rewrite app_nil_r. }
  destruct (cls c); [|by rewrite app_nil_r].
  rewrite IH, <- app_assoc. simpl.
  by destruct (Hk (acc ++ c :: Py.take_while cls t) (Py.drop_while cls t)) as [r ->].
Qed.

Lemma cont_is_Some (o : option (str * str)) (f : str → str) :
  is_Some (match o with Some (g, r) => Some (f g, r) | None => None end)
  ↔ is_Some o.
Proof. destruct o as [[g r]|]; split; intros [x Hx]; by try eexists. Qed.

(** The matcher finds a match exactly when there is one. *)
Lemma match_here_accepts re bos s :
  is_Some (Re.match_here re bos s) ↔ Re.accepts re bos s.
Proof.
  revert bos s. induction re as [|[cap q cls| |] re IH]; intros bos s; simpl.
  - split; [done|by eexists].
  - destruct q.
    + destruct s as [|c t].
      { split; [by intros [? ?]|by intros (? & ? & ? & _)]. }
      destruct (cls c) eqn:Hc.
      * rewrite (cont_is_Some _ (λ g, _ ++ g)), IH, andb_false_r.
        split; [by eauto|]. by intros (? & ? & [= <- <-] & _ & ?).
      * split; [by intros [? ?]|]. intros (? & ? & [= <- <-] & ? & _). congruence.
    + rewrite ?andb_true_r, ?andb_false_r. destruct s as [|c t].
      { rewrite (cont_is_Some _ (λ g, _ ++ g)), IH.
        split; [by left|]. by intros [?|(? & ? & ? & _)]. }
      destruct (cls c) eqn:Hc.
      * destruct (Re.match_here re false t) as [[g r]|] eqn:H1.
        -- split; [|by eexists]. intros _. right. exists c, t.
           split; [done|]. split; [done|]. apply IH. rewrite H1. by eexists.
        -- rewrite (cont_is_Some _ (λ g, _ ++ g)), IH. split; [by left|].
           intros [?|(? & ? & [= <- <-] & _ & Ha)]; [done|].
           apply IH in Ha. rewrite H1 in Ha. by destruct Ha.
      * rewrite (cont_is_Some _ (λ g, _ ++ g)), IH. split; [by left|].
        intros [?|(? & ? & [= <- <-] & ? & _)]; [done|congruence].
    + split.
      * intros [r Hr]. apply greedy_sound in Hr as (m & rest & -> & Hm & Hr).
        simpl in Hr. exists m, rest. split; [done|]. split; [done|].
        apply IH. destruct (Re.match_here re _ rest); [by eexists|done].
      * intros (m & rest & -> & Hm & Ha). apply greedy_complete; [done|].
        simpl. apply IH in Ha as [[g r] ->]. by eexists.
    + destruct s as [|c t].
      { split; [by intros [? ?]|by intros (? & ? & ? & ? & _)]. }
      destruct (cls c) eqn:Hc.
      * split.
        -- intros [r Hr]. apply greedy_sound in Hr as (m & rest & -> & Hm & Hr).
           simpl in Hr. rewrite andb_false_r in Hr.
           exists c, m, rest. split; [done|]. split; [done|]. split; [done|].
           apply IH. destruct (Re.match_here re false rest); [by eexists|done].
        -- intros (c' & m & rest & [= <- ->] & _ & Hm & Ha).
           apply greedy_complete; [done|]. simpl. rewrite andb_false_r.
           apply IH in Ha as [[g r] ->]. by eexists.
      * split; [by intros [? ?]|].
        intros (? & ? & ? & [= <- _] & ? & _). congruence.
  - destruct bos.
    + rewrite IH. tauto.
    + split; [by intros [? ?]|by intros [? _]].
  - destruct (Re.at_eol s).
    + rewrite IH. tauto.
    + split; [by intros [? ?]|by intros [? _]].
Qed.

(** A literal prefix of a pattern is a prefix of the subject. *)
Lemma accepts_lits w re bos s :
  Re.accepts (Re.lits w ++ re) bos s
  ↔ ∃ rest, s = w ++ rest ∧ Re.accepts re (bos && bool_decide (w = [])) rest.
Proof.
  revert bos s. induction w as [|a w IH]; intros bos s; simpl.
  { rewrite andb_true_r. split; [by eauto|]. by intros (? & -> & ?). }
  rewrite andb_false_r. split.
  - intros (c & rest & -> & Hc%N.eqb_eq & Ha). subst c.
    apply IH in Ha as (rest' & -> & Ha). exists rest'. split; [done|].
    by destruct (bool_decide (w = [])).
  - intros (rest & -> & Ha). exists a, (w ++ rest).
    split; [done|]. split; [apply N.eqb_refl|]. apply IH. exists rest.
    split; [done|]. done.
Qed.

(** ** What a match looks like *)

(** A match splits the subject into one piece per item. *)
Lemma match_here_sound re bos s g r :
  Re.match_here re bos s = Some (g, r) →
  ∃ pieces, Forall2 Re.conforms re pieces
            ∧ s = concat pieces ++ r ∧ g = Re.group_of re pieces.
Proof.
  revert bos s g r.
  induction re as [|[cap q cls| |] re IH]; intros bos s g r; simpl.
  - intros [= <- <-]. exists []. by split; [constructor|].
  - assert (∀ m rest,
              Re.conforms (Re.Atom cap q cls) m →
              match Re.match_here re (bos && bool_decide (m = [])) rest with
              | Some (g, r) => Some ((if cap then m else []) ++ g, r)
              | None => None
              end = Some (g, r) →
              ∃ pieces, Forall2 Re.conforms (Re.Atom cap q cls :: re) pieces
                        ∧ m ++ rest = concat pieces ++ r
                        ∧ g = Re.group_of (Re.Atom cap q cls :: re) pieces) as Hk.
    { intros m rest Hm.
      destruct (Re.match_here re _ rest) as [[g' r']|] eqn:Hm'; [|done].
      intros [= <- <-]. destruct (IH _ _ _ _ Hm') as (pieces & Hp & -> & ->).
      exists (m :: pieces). split; [by constructor|].
      split; [simpl; by rewrite app_assoc|]. unfold Re.group_of. simpl.
      by destruct cap. }
    destruct q.
    + destruct s as [|c t]; [done|]. destruct (cls c) eqn:Hc; [|done].
      apply (Hk [c] t). by exists c.
    + destruct s as [|c t]; [apply (Hk [] []); by left|].
      destruct (cls c) eqn:Hc; [|apply (Hk [] (c :: t)); by left].
      destruct (Re.match_here re (bos && false) t) as [[g1 r1]|] eqn:H1.
      * intros [= <- <-]. apply (Hk [c] t); [right; by exists c|].
        simpl. by rewrite H1.
      * apply (Hk [] (c :: t)). by left.
    + intros (m & rest & -> & Hm & Hr)%greedy_sound. by apply (Hk m rest).
    + destruct s as [|c t]; [done|]. destruct (cls c) eqn:Hc; [|done].
      intros (m & rest & -> & Hm & Hr)%greedy_sound.
      apply (Hk (c :: m) rest); [|done]. split; [done|by constructor].
  - destruct bos; [|done]. intros (pieces & Hp & -> & ->)%IH.
    exists ([] :: pieces). by split; [constructor|].
  - destruct (Re.at_eol s); [|done]. intros (pieces & Hp & -> & ->)%IH.
    exists ([] :: pieces). by split; [constructor|].
Qed.

(** A greedy class at the end of a pattern leaves nothing of its own. *)
Lemma match_here_trailing_stops re cap cls bos s g r :
  Re.match_here (re ++ [Re.Atom cap Re.Plus cls]) bos s = Some (g, r) →
  Re.stops cls r.
Proof.
  revert bos s g.
  induction re as [|[cap' q cls'| |] re IH]; intros bos s g; simpl.
  - destruct s as [|c t]; [done|]. destruct (cls c); [|done].
    rewrite greedy_maximal by (intros; by eexists). intros [= _ <-].
    induction t as [|c' t IHt]; simpl; [done|]. by destruct (cls c') eqn:Hc'.
  - assert (∀ m rest,
              match Re.match_here (re ++ [Re.Atom cap Re.Plus cls])
                      (bos && bool_decide (m = [])) rest with
              | Some (g, r) => Some ((if cap' then m else []) ++ g, r)
              | None => None
              end = Some (g, r) → Re.stops cls r) as Hk.
    { intros m rest.
      destruct (Re.match_here _ _ rest) as [[g' r']|] eqn:Hm'; [|done].
      intros [= _ <-]. by eapply IH. }
    destruct q.
    + destruct s as [|c t]; [done|]. destruct (cls' c); [|done]. apply (Hk [c] t).
    + destruct s as [|c t]; [apply (Hk [] [])|].
      destruct (cls' c); [|apply (Hk [] (c :: t))].
      destruct (Re.match_here (re ++ [Re.Atom cap Re.Plus cls]) (bos && false) t)
        as [[g1 r1]|] eqn:H1.
      * intros [= _ <-]. by eapply IH.
      * apply (Hk [] (c :: t)).
    + intros (m & rest & -> & _ & Hr)%greedy_sound. by apply (Hk m rest).
    + destruct s as [|c t]; [done|]. destruct (cls' c); [|done].
      intros (m & rest & -> & _ & Hr)%greedy_sound. by apply (Hk (c :: m) rest).
  - destruct bos; [apply IH|done].
  - destruct (Re.at_eol s); [apply IH|done].
Qed.

(** [re.search] returns the group of a match at some position. *)
Lemma search_sound re s g :
  Re.search re s = Some g →
  ∃ before s' bos r, s = before ++ s' ∧ Re.match_here re bos s' = Some (g, r).
Proof.
  unfold Re.search. generalize true.
  induction s as [|c t IH]; intros bos; simpl.
  - destruct (Re.match_here re bos []) as [[g' r]|] eqn:Hm; [|done].
    intros [= <-]. by exists [], [], bos, r.
  - destruct (Re.match_here re bos (c :: t)) as [[g' r]|] eqn:Hm.
    + intros [= <-]. by exists [], (c :: t), bos, r.
    + intros (before & s' & bos' & r & -> & Hm')%IH.
      by exists (c :: before), s', bos', r.
Qed.

(** The groups of a scan are groups of matches. *)
Lemma scan_groups (P : str → Prop) re :
  (∀ bos s g r, Re.match_here re bos s = Some (g, r) → P g) →
  ∀ s skip bos g, inr g ∈ Re.scan re skip bos s → P g.
Proof.
  intros HP. induction s as [|c t IH]; intros skip bos g; simpl.
  - destruct skip; [|by intros ?%elem_of_nil].
    destruct (Re.match_here re bos []) as [[g' r]|] eqn:Hm;
      [|by intros ?%elem_of_nil].
    intros [= <-]%list_elem_of_singleton. by eapply HP.
  - destruct skip as [|k]; [|apply IH].
    destruct (Re.match_here re bos (c :: t)) as [[g' r]|] eqn:Hm.
    + destruct (_ - _) as [|k];
        intros [[= <-]|Hin]%elem_of_cons; try (by eapply HP).
      * apply elem_of_cons in Hin as [?|Hin]; [done|]. by eapply IH.
      * by eapply IH.
    + intros [?|Hin]%elem_of_cons; [done|]. by eapply IH.
Qed.

(** A scan cuts the subject into the matches and the characters between
    them, in order. *)
Lemma scan_rebuild re (full : str → str) :
  (∀ bos s g r, Re.match_here re bos s = Some (g, r) →
                s = full g ++ r ∧ full g ≠ []) →
  ∀ s skip bos, Re.rebuild full (Re.scan re skip bos s) = drop skip s.
Proof.
  intros Hfull. unfold Re.rebuild.
  induction s as [|c t IH]; intros skip bos; simpl.
  - destruct skip; [|done].
    destruct (Re.match_here re bos []) as [[g r]|] eqn:Hm; [|done].
    destruct (Hfull _ _ _ _ Hm) as [Heq Hne].
    symmetry in Heq. apply app_eq_nil in Heq as [? _]. done.
  - destruct skip as [|k]; [|apply IH].
    destruct (Re.match_here re bos (c :: t)) as [[g r]|] eqn:Hm.
    + destruct (Hfull _ _ _ _ Hm) as [Heq Hne].
      destruct (full g) as [|c' fg] eqn:Hfg; [done|].
      simpl in Heq. injection Heq as <- ->.
      rewrite length_app.
      replace (S (length fg + length r) - length r) with (S (length fg)) by lia.
      simpl. rewrite Hfg, IH. simpl. f_equal.
      by rewrite drop_app_length.
    + simpl. by rewrite IH.
Qed.

(** ** Strings and the normalized prefix *)

Lemma take_drop_while p s : Py.take_while p s ++ Py.drop_while p s = s.
Proof. induction s as [|c t IH]; simpl; [done|]. destruct (p c); simpl; congruence. Qed.

Lemma take_while_Forall p s : Forall (λ c, p c = true) (Py.take_while p s).
Proof.
  induction s as [|c t IH]; simpl; [constructor|].
  destruct (p c) eqn:Hc; by constructor.
Qed.

Lemma drop_length_take_while p s :
  drop (length (Py.take_while p s)) s = Py.drop_while p s.
Proof. induction s as [|c t IH]; simpl; [done|]. by destruct (p c). Qed.

Lemma drop_while_app p deco s :
  Forall (λ c, p c = true) deco → Py.drop_while p (deco ++ s) = Py.drop_while p s.
Proof. induction 1 as [|c deco Hc _ IH]; simpl; [done|]. by rewrite Hc. Qed.

Lemma drop_while_weaker (p q : N → bool) s :
  (∀ c, p c = true → q c = true) →
  Py.drop_while q (Py.drop_while p s) = Py.drop_while q s.
Proof.
  intros Hpq. induction s as [|c t IH]; simpl; [done|].
  destruct (p c) eqn:Hp; [by rewrite (Hpq _ Hp)|done].
Qed.

Lemma startswith_spec s p : Py.startswith s p = true ↔ ∃ rest, s = p ++ rest.
Proof.
  revert s. induction p as [|a p IH]; intros s; simpl.
  { destruct s; split; by eauto. }
  destruct s as [|c s]; simpl; [split; [done|by intros [? ?]]|].
  rewrite andb_true_iff, N.eqb_eq, IH. split.
  - intros [-> [rest ->]]. by exists rest.
  - intros [rest [= -> ->]]. split; [done|by exists rest].
Qed.

Lemma scan_bol_false re skip s :
  Re.scan (Re.Bol :: re) skip false s = inl <$> drop skip s.
Proof.
  revert skip. induction s as [|c t IH]; intros [|k]; simpl; by rewrite ?IH.
Qed.

Lemma flat_map_outside (repl : str → str) (l : str) :
  flat_map (λ x : N + str, match x with inr g => repl g | inl c => [c] end)
    (inl <$> l) = l.
Proof. induction l as [|a l IH]; [done|]. simpl. f_equal. exact IH. Qed.

(** The substitution of [re_leading_markdown] drops the leading run. *)
Lemma sub_leading_markdown s :
  Re.sub re_leading_markdown (λ _, []) s = Py.drop_while leading_markdown s.
Proof.
  unfold Re.sub, re_leading_markdown. destruct s as [|c t]; [done|].
  cbn [Re.scan Re.match_here Py.drop_while].
  destruct (leading_markdown c) eqn:Hc.
  - rewrite greedy_maximal by (intros; by eexists). simpl.
    pose proof (take_drop_while leading_markdown t) as Hsplit.
    apply (f_equal length) in Hsplit. rewrite length_app in Hsplit.
    replace (S (length t) - length (Py.drop_while leading_markdown t))
      with (S (length (Py.take_while leading_markdown t))) by lia.
    rewrite scan_bol_false. simpl.
    by rewrite flat_map_outside, drop_length_take_while.
  - simpl. rewrite scan_bol_false. simpl. f_equal. apply flat_map_outside.
Qed.

Lemma leading_markdown_decoration c :
  leading_markdown c = true ↔ is_decoration c.
Proof.
  unfold leading_markdown, is_decoration.
  rewrite !orb_true_iff, !N.eqb_eq. tauto.
Qed.

Lemma normalized_body_eq msg :
  normalized_body msg
  = Py.drop_while leading_markdown (get_message_content msg).1.
Proof.
  unfold normalized_body. rewrite sub_leading_markdown.
  apply drop_while_weaker. intros c Hc. unfold leading_markdown. by rewrite Hc.
Qed.

Lemma glyphs_not_decoration glyph :
  glyph ∈ CATEGORY_EMOJIS → ∃ c t, glyph = c :: t ∧ leading_markdown c = false.
Proof.
  assert (forallb (λ g, match g with
                        | c :: _ => negb (leading_markdown c)
                        | [] => false
                        end) CATEGORY_EMOJIS = true) as Hall by by vm_compute.
  rewrite forallb_forall in Hall. intros Hg%list_elem_of_In.
  specialize (Hall _ Hg). destruct glyph as [|c t]; [done|].
  exists c, t. split; [done|]. by apply negb_true_iff.
Qed.

Lemma starts_with_glyph_prefixed body :
  existsb (λ emoji, Py.startswith (Py.drop_while leading_markdown body) emoji)
    CATEGORY_EMOJIS = true
  ↔ glyph_prefixed body.
Proof.
  rewrite existsb_exists. unfold glyph_prefixed. split.
  - intros (glyph & Hg%list_elem_of_In & [rest Hrest]%startswith_spec).
    exists (Py.take_while leading_markdown body), glyph, rest.
    rewrite <- Hrest, take_drop_while. split; [done|]. split; [|done].
    eapply Forall_impl; [apply take_while_Forall|].
    intros c. apply leading_markdown_decoration.
  - intros (deco & glyph & rest & -> & Hdeco & Hg).
    exists glyph. split; [by apply list_elem_of_In|].
    apply startswith_spec. exists rest.
    rewrite drop_while_app
      by (eapply Forall_impl; [exact Hdeco|]; intros c; apply leading_markdown_decoration).
    destruct (glyphs_not_decoration glyph Hg) as (c & t & -> & Hc).
    simpl. by rewrite Hc.
Qed.

(** ** The two whole-text patterns of [is_link_only] *)

Lemma accepts_scheme re bos s :
  Re.accepts (re_scheme ++ re) bos s
  ↔ ∃ scheme rest, is_scheme scheme ∧ s = scheme ++ rest ∧ Re.accepts re false rest.
Proof.
  unfold re_scheme, is_scheme. rewrite <- !app_assoc, accepts_lits.
  change (bos && bool_decide (py "http" = [])) with (bos && false).
  rewrite andb_false_r. cbn [app Re.accepts]. split.
  - intros (rest & -> & [Ha|(c & rest' & -> & Hc%N.eqb_eq & Ha)]).
    + apply (accepts_lits (py "://")) in Ha as (r & -> & Ha).
      exists (py "http://"), r. split; [by left|]. split; [done|]. exact Ha.
    + apply (accepts_lits (py "://")) in Ha as (r & -> & Ha). subst c.
      exists (py "https://"), r. split; [by right|]. split; [done|]. exact Ha.
  - intros (scheme & rest & [->| ->] & -> & Ha).
    + exists (py "://" ++ rest). split; [done|]. left.
      apply (accepts_lits (py "://")). exists rest. split; [done|]. exact Ha.
    + exists (ord "s" :: py "://" ++ rest). split; [done|]. right.
      exists (ord "s"), (py "://" ++ rest). split; [done|]. split; [done|].
      apply (accepts_lits (py "://")). exists rest. split; [done|]. exact Ha.
Qed.

Lemma at_eol_space r : Re.at_eol r = true → all_space r.
Proof.
  destruct r as [|c [|c' r]]; simpl; [by constructor| |done].
  intros ->%N.eqb_eq. by repeat constructor.
Qed.

Lemma rmatch_is_Some re t :
  is_Some (Re.rmatch re t) ↔ Re.accepts re true t.
Proof. unfold Re.rmatch. by rewrite fmap_is_Some, match_here_accepts. Qed.

(** The second [re.match] of [is_link_only] recognises the bare URLs. *)
Lemma bare_url_matches t : is_Some (Re.rmatch re_bare_url t) ↔ is_bare_url t.
Proof.
  rewrite rmatch_is_Some. unfold re_bare_url, is_bare_url.
  cbn [app Re.accepts]. split.
  - intros (_ & ws & rest & -> & Hws & Ha).
    apply accepts_scheme in Ha as (scheme & rest' & Hs & -> & Ha).
    cbn [Re.accepts] in Ha.
    destruct Ha as (c & u & r1 & -> & Hc & Hu & ws' & r2 & -> & Hws' & Heol & _).
    exists ws, scheme, (c :: u), (ws' ++ r2).
    split; [reflexivity|]. split; [done|]. split; [done|].
    split; [done|]. split.
    + constructor; [by apply negb_true_iff|].
      eapply Forall_impl; [exact Hu|]. intros x. apply negb_true_iff.
    + apply Forall_app. split; [done|by apply at_eol_space].
  - intros (ws & scheme & u & ws' & -> & Hws & Hs & Hu & Hns & Hws').
    split; [done|]. exists ws, (scheme ++ u ++ ws'). split; [done|]. split; [done|].
    apply accepts_scheme. exists scheme, (u ++ ws'). split; [done|]. split; [done|].
    destruct u as [|c u]; [done|]. inv Hns. cbn [Re.accepts].
    exists c, u, ws'. split; [done|]. split; [by apply negb_true_iff|]. split.
    { eapply Forall_impl; [eassumption|]. intros x. apply negb_true_iff. }
    exists ws', []. rewrite app_nil_r. done.
Qed.

(** The first [re.match] of [is_link_only] recognises the single links. *)
Lemma single_markdown_link_matches t :
  is_Some (Re.rmatch re_single_markdown_link t) ↔ is_single_markdown_link t.
Proof.
  rewrite rmatch_is_Some. unfold re_single_markdown_link, is_single_markdown_link.
  cbn [app Re.accepts Re.chr]. split.
  - intros (_ & ws & rest & -> & Hws & c1 & rest1 & -> & <-%N.eqb_eq
            & title & rest2 & -> & Htitle & c2 & rest3 & -> & <-%N.eqb_eq
            & c3 & rest4 & -> & <-%N.eqb_eq & Ha).
    apply accepts_scheme in Ha as (scheme & rest' & Hs & -> & Ha).
    cbn [Re.accepts Re.chr] in Ha.
    destruct Ha as (c & u & r1 & -> & Hc & Hu & c4 & r2 & -> & <-%N.eqb_eq
                    & ws' & r3 & -> & Hws' & Heol & _).
    exists ws, title, scheme, (c :: u), (ws' ++ r3).
    split; [reflexivity|]. split; [done|]. split.
    { eapply Forall_impl; [exact Htitle|]. intros x Hx%negb_true_iff.
      by apply N.eqb_neq. }
    split; [done|]. split; [done|]. split.
    + constructor; [by apply N.eqb_neq, negb_true_iff|].
      eapply Forall_impl; [exact Hu|]. intros x Hx%negb_true_iff.
      by apply N.eqb_neq.
    + apply Forall_app. split; [done|by apply at_eol_space].
  - intros (ws & title & scheme & u & ws' & -> & Hws & Htitle & Hs & Hu & Hnp & Hws').
    split; [done|]. eexists ws, _. split; [done|]. split; [done|].
    eexists (ord "["), _. split; [done|]. split; [done|].
    eexists title, _. split; [done|]. split.
    { eapply Forall_impl; [exact Htitle|]. intros x Hx.
      by apply negb_true_iff, N.eqb_neq. }
    eexists (ord "]"), _. split; [done|]. split; [done|].
    eexists (ord "("), _. split; [done|]. split; [done|].
    apply accepts_scheme. eexists scheme, _. split; [done|]. split; [done|].
    destruct u as [|c u]; [done|]. inv Hnp. cbn [Re.accepts Re.chr].
    eexists c, u, _. split; [done|].
    split; [by apply negb_true_iff, N.eqb_neq|]. split.
    { eapply Forall_impl; [eassumption|]. intros x Hx.
      by apply negb_true_iff, N.eqb_neq. }
    eexists (ord ")"), _. split; [done|]. split; [done|].
    exists ws', []. rewrite app_nil_r. done.
Qed.

Lemma is_link_only_eq body :
  is_link_only body
  = bool_decide (is_Some (Re.rmatch re_single_markdown_link (link_text body)))
    || bool_decide (is_Some (Re.rmatch re_bare_url (link_text body)))
    || (length (prose_of (link_text body)) <? 100)%nat.
Proof.
  unfold is_link_only, link_text, prose_of.
  by destruct (bool_decide _), (bool_decide _).
Qed.

Lemma is_link_only_spec body :
  is_link_only body = true
  ↔ is_single_markdown_link (link_text body)
    ∨ is_bare_url (link_text body)
    ∨ length (prose_of (link_text body)) < 100.
Proof.
  rewrite is_link_only_eq, !orb_true_iff, !bool_decide_eq_true, Nat.ltb_lt.
  rewrite single_markdown_link_matches, bare_url_matches. tauto.
Qed.

(** ** Root candidates *)

Lemma type_of_emoji_range body bn table :
  type_of_emoji body bn table ∈ py "link" :: py "field_note" :: table.*2.
Proof.
  induction table as [|[emoji t] table IH]; simpl.
  { apply elem_of_cons. right. apply elem_of_cons. by left. }
  destruct (_ || _).
  - destruct (_ && _); [by left|]. right. right. by left.
  - apply elem_of_cons in IH as [->|IH]; [by left|].
    apply elem_of_cons in IH as [->|IH]; [right; by left|].
    right. right. by right.
Qed.

Lemma root_type_not_reply msg : get_message_type msg false ≠ py "reply".
Proof.
  unfold get_message_type. intros Heq.
  pose proof (type_of_emoji_range (Py.lstrip (get_message_content msg).1)
                (normalized_body msg) EMOJI_TO_TYPE) as Hr.
  rewrite Heq in Hr. revert Hr. apply (bool_decide_unpack _). by vm_compute.
Qed.

Lemma is_category_post_spec msg :
  is_category_post msg = true
  ↔ m_type msg = Some M_ROOM_MESSAGE
    ∧ r_rel_type (relates_to_of (content_of msg)) ≠ Some M_REPLACE
    ∧ r_rel_type (relates_to_of (content_of msg)) ≠ Some M_THREAD
    ∧ glyph_prefixed (get_message_content msg).1.
Proof.
  unfold is_category_post.
  rewrite <- starts_with_glyph_prefixed, <- normalized_body_eq.
  destruct (bool_decide_reflect (m_type msg = Some M_ROOM_MESSAGE)); simpl;
    [|split; [done|tauto]].
  destruct (bool_decide_reflect
              (r_rel_type (relates_to_of (content_of msg)) = Some M_REPLACE));
    [split; [done|tauto]|].
  destruct (bool_decide_reflect
              (r_rel_type (relates_to_of (content_of msg)) = Some M_THREAD));
    [split; [done|tauto]|].
  tauto.
Qed.

(** ** Insertion-ordered deduplication *)

Lemma elem_of_dedupe seen l x : x ∈ Py.dedupe seen l ↔ x ∈ l ∧ x ∉ seen.
Proof.
  revert seen. induction l as [|y l IH]; intros seen; simpl.
  { split; [by intros ?%elem_of_nil|by intros [?%elem_of_nil _]]. }
  destruct (bool_decide_reflect (y ∈ seen)) as [Hy|Hy].
  - rewrite IH, elem_of_cons. split; [by intros [? ?]; auto|].
    intros [[->|?] ?]; done.
  - rewrite !elem_of_cons, IH, elem_of_cons. split.
    + intros [->|[? Hn]]; [by auto|]. split; [by right|]. by intros ?; apply Hn; right.
    + intros [[->|?] Hn]; [by left|].
      destruct (decide (x = y)) as [->|?]; [by left|right].
      split; [done|]. intros [?|?]; done.
Qed.

Lemma NoDup_dedupe seen l : NoDup (Py.dedupe seen l).
Proof.
  revert seen. induction l as [|y l IH]; intros seen; simpl; [constructor|].
  destruct (bool_decide (y ∈ seen)); [done|].
  constructor; [|done]. rewrite elem_of_dedupe. intros [_ Hn]. apply Hn. by left.
Qed.

Lemma dedupe_sublist seen l : Py.dedupe seen l `sublist_of` l.
Proof.
  revert seen. induction l as [|y l IH]; intros seen; simpl; [done|].
  destruct (bool_decide (y ∈ seen)); [by apply sublist_cons|by apply sublist_skip].
Qed.

(** Only the members of [seen] matter. *)
Lemma dedupe_seen_ext seen seen' l :
  (∀ x, x ∈ seen ↔ x ∈ seen') → Py.dedupe seen l = Py.dedupe seen' l.
Proof.
  revert seen seen'. induction l as [|y l IH]; intros seen seen' Hs; simpl; [done|].
  rewrite (bool_decide_ext (y ∈ seen) (y ∈ seen')) by apply Hs.
  destruct (bool_decide (y ∈ seen')); [by apply IH|].
  f_equal. apply IH. intros x. rewrite !elem_of_cons. by rewrite Hs.
Qed.

(** What comes first is kept first: the second list only brings what the
    first did not have. *)
Lemma dedupe_app seen l1 l2 :
  Py.dedupe seen (l1 ++ l2) = Py.dedupe seen l1 ++ Py.dedupe (l1 ++ seen) l2.
Proof.
  revert seen. induction l1 as [|y l1 IH]; intros seen; simpl; [done|].
  destruct (bool_decide_reflect (y ∈ seen)) as [Hy|Hy].
  - rewrite IH. f_equal. apply dedupe_seen_ext. intros x.
    set_solver.
  - simpl. f_equal. rewrite IH. f_equal. apply dedupe_seen_ext. intros x.
    set_solver.
Qed.

(** ** The keyword patterns *)

(** A match of the keywords pattern: a label, then the group, which holds
    neither [#] nor a newline and runs up to the next one or to the end. *)
Lemma keywords_match bos s g r :
  Re.match_here re_keywords bos s = Some (g, r) →
  ∃ label,
    is_keywords_label label ∧ s = label ++ g ++ r ∧ g ≠ []
    ∧ Forall (λ c, c ≠ 10%N ∧ c ≠ ord "#") g
    ∧ match r with [] => True | c :: _ => c = 10%N ∨ c = ord "#" end.
Proof.
  intros Hm.
  assert (match r with [] => True | c :: _ => c = 10%N ∨ c = ord "#" end) as Hstop.
  { unfold re_keywords in Hm.
    change [?a; ?b; ?c; ?d; ?e] with ([a; b; c; d] ++ [e]) in Hm.
    rewrite app_assoc in Hm. apply match_here_trailing_stops in Hm.
    destruct r as [|c r]; [done|]. simpl in Hm.
    apply negb_false_iff, orb_true_iff in Hm as [?%N.eqb_eq|?%N.eqb_eq]; auto. }
  apply match_here_sound in Hm as (pieces & Hp & -> & ->).
  unfold re_keywords, Re.ci_lits, Re.ci, Re.chr in Hp |- *.
  change (py "keyword") with [107; 101; 121; 119; 111; 114; 100]%N in Hp |- *.
  cbn [fmap list_fmap app] in Hp |- *.
  apply Forall2_cons_inv_l in Hp as (? & ? & (k1 & -> & Hk1) & Hp & ->).
  apply Forall2_cons_inv_l in Hp as (? & ? & (k2 & -> & Hk2) & Hp & ->).
  apply Forall2_cons_inv_l in Hp as (? & ? & (k3 & -> & Hk3) & Hp & ->).
  apply Forall2_cons_inv_l in Hp as (? & ? & (k4 & -> & Hk4) & Hp & ->).
  apply Forall2_cons_inv_l in Hp as (? & ? & (k5 & -> & Hk5) & Hp & ->).
  apply Forall2_cons_inv_l in Hp as (? & ? & (k6 & -> & Hk6) & Hp & ->).
  apply Forall2_cons_inv_l in Hp as (? & ? & (k7 & -> & Hk7) & Hp & ->).
  apply Forall2_cons_inv_l in Hp as (opt & ? & Hopt & Hp & ->).
  apply Forall2_cons_inv_l in Hp as (ws1 & ? & Hws1 & Hp & ->).
  apply Forall2_cons_inv_l in Hp as (? & ? & (colon & -> & Hcolon%N.eqb_eq) & Hp & ->).
  apply Forall2_cons_inv_l in Hp as (ws2 & ? & Hws2 & Hp & ->).
  apply Forall2_cons_inv_l in Hp as (grp & ? & [Hne Hgrp] & Hp & ->).
  apply Forall2_nil_inv_l in Hp as ->. subst colon.
  unfold Re.group_of. cbn [zip_with concat app]. rewrite !app_nil_r.
  exists ([k1; k2; k3; k4; k5; k6; k7] ++ opt ++ ws1 ++ py ":" ++ ws2).
  split; [|split; [|split; [done|split; [|done]]]].
  - exists ([k1; k2; k3; k4; k5; k6; k7] ++ opt), ws1, ws2.
    split; [by rewrite <- !app_assoc|]. split; [|done].
    destruct Hopt as [->|(c & -> & Hc)]; [left|right]; unfold ci_word.
    + change (py "keyword") with [107; 101; 121; 119; 111; 114; 100]%N.
      by repeat constructor.
    + change (py "keywords") with [107; 101; 121; 119; 111; 114; 100; 115]%N.
      by repeat constructor.
  - rewrite <- !app_assoc. cbn [app]. rewrite <- !app_assoc. reflexivity.
  - eapply Forall_impl; [exact Hgrp|].
    intros c Hc. apply negb_true_iff, orb_false_iff in Hc as [?%N.eqb_neq ?%N.eqb_neq].
    done.
Qed.

(** A match of the bold pattern: the group between two pairs of asterisks. *)
Lemma bold_match bos s g r :
  Re.match_here re_bold bos s = Some (g, r) →
  (s = py "**" ++ g ++ py "**" ++ r ∧ py "**" ++ g ++ py "**" ≠ [])
  ∧ g ≠ [] ∧ Forall (λ c, c ≠ ord "*") g.
Proof.
  intros (pieces & Hp & -> & ->)%match_here_sound.
  unfold re_bold, Re.chr in Hp |- *.
  apply Forall2_cons_inv_l in Hp as (? & ? & (a1 & -> & <-%N.eqb_eq) & Hp & ->).
  apply Forall2_cons_inv_l in Hp as (? & ? & (a2 & -> & <-%N.eqb_eq) & Hp & ->).
  apply Forall2_cons_inv_l in Hp as (grp & ? & [Hne Hgrp] & Hp & ->).
  apply Forall2_cons_inv_l in Hp as (? & ? & (a3 & -> & <-%N.eqb_eq) & Hp & ->).
  apply Forall2_cons_inv_l in Hp as (? & ? & (a4 & -> & <-%N.eqb_eq) & Hp & ->).
  apply Forall2_nil_inv_l in Hp as ->.
  unfold Re.group_of. cbn [zip_with concat app]. rewrite !app_nil_r.
  split; [split; [by rewrite <- !app_assoc|done]|]. split; [done|].
  eapply Forall_impl; [exact Hgrp|]. intros c Hc%negb_true_iff. by apply N.eqb_neq.
Qed.

(** ** Termination of the closure loop *)

(** C9. The fixed-point loop stops on every batch: whatever the relation
    graph, [length new_only + 1] passes are enough, and more fuel does not
    change the result.  A pass that raises [changed] has added at least
    one id, a pass that does not leaves the set as it was; the set only
    grows, only by ids of the batch, and by no more ids than the batch has
    messages. *)
Theorem closure_loop_terminates (new_only : list RawMessage) (keep_ids : gset str) :
  ∃ result,
    (∀ extra, closure_loop (S (length new_only) + extra) new_only keep_ids
              = Some result)
    ∧ keep_ids ⊆ result
    ∧ result ⊆ keep_ids ∪ event_ids new_only
    ∧ size (result ∖ keep_ids) ≤ length new_only
    ∧ ∀ keep,
        match closure_pass new_only keep with
        | (keep', true) => keep ⊂ keep' ∧ keep' ⊆ keep ∪ event_ids new_only
        | (keep', false) => keep' = keep
        end.
Proof.
  destruct (thread_closure_spec new_only keep_ids) as (Hloop & Hsub & Hbound & _).
  exists (thread_closure new_only keep_ids).
  split; [|split; [done|split; [done|split]]].
  - intros extra. by apply closure_loop_more_fuel.
  - etrans; [|apply (size_event_ids new_only)].
    apply subseteq_size. set_solver.
  - intros keep. unfold closure_pass.
    pose proof (fold_closure_step_flag new_only (keep, false)) as Hflag.
    pose proof (fold_closure_step_sub new_only (keep, false)) as Hs.
    destruct (foldl closure_step (keep, false) new_only) as [keep' changed].
    simpl in *. destruct Hflag as [[[= -> ->] _]|[-> Hgrow]]; done.
Qed.

(** ** The merge

    The properties below are stated for any Unicode tables. *)
Section Merge.

Variable uni_isalnum : N → bool.
Variable uni_lower : list N → list N.

Set Default Proof Using "Type".

Local Abbreviation is_word := (is_word uni_isalnum).
Local Abbreviation lower := (lower uni_lower).
Local Abbreviation re_hashtag := (re_hashtag uni_isalnum).
Local Abbreviation keyword_line_tokens := (keyword_line_tokens uni_lower).
Local Abbreviation bold_step := (bold_step uni_lower).
Local Abbreviation extract_keywords := (extract_keywords uni_isalnum uni_lower).
Local Abbreviation to_minimal_message := (to_minimal_message uni_isalnum uni_lower).
Local Abbreviation minimal_new_of := (minimal_new_of uni_isalnum uni_lower).
Local Abbreviation process_messages := (process_messages uni_isalnum uni_lower).

(** ** Records and the edit map *)

Lemma to_minimal_message_id m is_reply em :
  mm_id (to_minimal_message m is_reply em) = m_event_id m.
Proof.
  unfold to_minimal_message.
  by destruct (em !! m_event_id m) as [[]|], (get_message_content m).
Qed.

Lemma to_minimal_message_ts m is_reply em :
  min_ts (to_minimal_message m is_reply em) = raw_ts m.
Proof.
  unfold to_minimal_message.
  by destruct (em !! m_event_id m) as [[]|], (get_message_content m).
Qed.

Lemma to_minimal_message_edited m is_reply em b fb :
  em !! m_event_id m = Some (b, fb) →
  mm_body (to_minimal_message m is_reply em) = b
  ∧ mm_formatted_body (to_minimal_message m is_reply em)
    = (if bool_decide (fb = []) then None else Some fb).
Proof. unfold to_minimal_message. by intros ->. Qed.

Lemma elem_of_minimal_new R em kept r :
  r ∈ minimal_new_of R em kept
  ↔ ∃ m, m ∈ kept
         ∧ r = to_minimal_message m (negb (bool_decide (m_event_id m ∈ R))) em.
Proof. unfold minimal_new_of. rewrite list_elem_of_fmap. naive_solver. Qed.

Lemma minimal_new_sorted R em K N :
  sorted_by min_ts (minimal_new_of R em (kept_of K N)).
Proof.
  unfold minimal_new_of, kept_of.
  eapply sorted_by_fmap; [|apply sort_by_sorted].
  intros m. apply to_minimal_message_ts.
Qed.

(** What [process_messages] returns, with its local variables named. *)
Lemma process_messages_unfold batch prior :
  let already := already_processed_of prior in
  let new_only := new_only_of batch prior in
  let roots := category_root_ids_of (existing_root_ids_of prior) new_only in
  let keep := keep_ids_of roots new_only in
  let kept := kept_of keep new_only in
  let minimal_new := minimal_new_of roots (build_edit_map batch) kept in
  process_messages batch prior =
    {| messages :=
         match existing_messages_of prior with
         | _ :: _ => sort_by min_ts (existing_messages_of prior ++ minimal_new)
         | [] => minimal_new
         end;
       processed_ids :=
         match existing_messages_of prior with
         | _ :: _ => sorted_ids (already ∪ keep)
         | [] => sorted_ids keep
         end;
       last_processed_ts := foldr Z.max (existing_last_ts_of prior) (raw_ts <$> kept) |}.
Proof. unfold process_messages. by destruct (existing_messages_of prior). Qed.

Lemma messages_perm batch prior :
  messages (process_messages batch prior)
  ≡ₚ existing_messages_of prior
     ++ minimal_new_of
          (category_root_ids_of (existing_root_ids_of prior) (new_only_of batch prior))
          (build_edit_map batch)
          (kept_of
             (keep_ids_of
                (category_root_ids_of (existing_root_ids_of prior)
                   (new_only_of batch prior))
                (new_only_of batch prior))
             (new_only_of batch prior)).
Proof.
  rewrite process_messages_unfold. simpl.
  destruct (existing_messages_of prior) as [|r0 rs] eqn:Hex; [done|].
  apply sort_by_perm.
Qed.

(** ** Merging a batch that brings nothing new *)

Lemma keep_ids_processed batch prior e :
  e ∈ keep_ids_of
        (category_root_ids_of (existing_root_ids_of prior) (new_only_of batch prior))
        (new_only_of batch prior) →
  e ∈ processed_ids (process_messages batch prior).
Proof.
  intros He. rewrite process_messages_unfold. simpl.
  destruct (existing_messages_of prior); apply elem_of_sorted_ids; set_solver.
Qed.

Lemma output_roots_kept batch prior :
  existing_root_ids_of (Some (process_messages batch prior))
  ⊆ keep_ids_of
      (category_root_ids_of (existing_root_ids_of prior) (new_only_of batch prior))
      (new_only_of batch prior).
Proof.
  intros e (r & Hr & Hroot & <-)%elem_of_existing_root_ids.
  simpl in Hr. rewrite messages_perm in Hr.
  apply elem_of_app in Hr as [Hr|Hr].
  - apply keep_ids_roots, category_root_ids_existing, elem_of_existing_root_ids.
    by exists r.
  - apply elem_of_minimal_new in Hr as (m & Hm & ->).
    rewrite to_minimal_message_id. by apply elem_of_kept in Hm as [_ ?].
Qed.

(** A state is left as it is by the merge of a batch when it is sorted,
    its id list is the sorted list of a set, and every id the merge would
    keep is already processed. *)
Lemma merge_noop_keep batch S :
  sorted_by min_ts (messages S) →
  processed_ids S = sorted_ids (list_to_set (processed_ids S)) →
  (messages S = [] → processed_ids S = []) →
  (∀ e, e ∈ keep_ids_of
              (category_root_ids_of (existing_root_ids_of (Some S))
                 (new_only_of batch (Some S)))
              (new_only_of batch (Some S)) →
        e ∈ processed_ids S) →
  process_messages batch (Some S) = S.
Proof.
  intros Hsorted Hcanon Hempty Hkeep.
  rewrite process_messages_unfold.
  set (N2 := new_only_of batch (Some S)) in *.
  set (R2 := category_root_ids_of (existing_root_ids_of (Some S)) N2) in *.
  set (K2 := keep_ids_of R2 N2) in *.
  assert (kept_of K2 N2 = []) as ->.
  { apply elem_of_nil_inv. intros m [Hm Hk]%elem_of_kept.
    apply new_only_fresh in Hm as [_ Hfresh]. by apply Hfresh, Hkeep. }
  unfold minimal_new_of. simpl.
  destruct S as [ms ids last]. simpl in *. f_equal.
  - destruct ms; [done|]. rewrite app_nil_r. by apply sort_by_id.
  - destruct ms as [|r rs].
    + rewrite (Hempty eq_refl). rewrite <- sorted_ids_empty. f_equal.
      apply set_eq. intros e. split; [|set_solver].
      intros He%Hkeep. rewrite (Hempty eq_refl) in He. inv He.
    + rewrite Hcanon at 2. f_equal. apply set_eq. intros e.
      rewrite elem_of_union, elem_of_list_to_set. split; [|by left].
      intros [?|He%Hkeep]; done.
Qed.

(** The merge would keep nothing new when the batch holds no root candidate
    and no child of a root of the state that is not processed. *)
Lemma merge_keeps_nothing batch S :
  (∀ e, e ∈ existing_root_ids_of (Some S) → e ∈ processed_ids S) →
  (∀ m, m ∈ batch → is_category_post m = true → m_event_id m ≠ [] →
        m_event_id m ∈ processed_ids S) →
  (∀ m p, m ∈ batch → is_child_of m p → p ∈ existing_root_ids_of (Some S) →
          m_event_id m ∈ processed_ids S) →
  ∀ e, e ∈ keep_ids_of
             (category_root_ids_of (existing_root_ids_of (Some S))
                (new_only_of batch (Some S)))
             (new_only_of batch (Some S)) →
       e ∈ processed_ids S.
Proof.
  intros Hroots Hcat Hchild.
  set (N2 := new_only_of batch (Some S)).
  set (E2 := existing_root_ids_of (Some S)).
  set (R2 := category_root_ids_of E2 N2).
  assert (∀ m, m ∈ N2 → m ∈ batch ∧ m_event_id m ∉ processed_ids S) as HN2
    by apply new_only_fresh.
  assert (R2 ⊆ E2) as HR2.
  { intros e [?|(m & Hm & Hc & Hne & <-)]%elem_of_category_root_ids; [done|].
    destruct (HN2 m Hm) as [Hb Hfresh]. destruct Hfresh. by apply Hcat. }
  intros e He%elem_of_keep_ids. apply Hroots, HR2.
  induction He as [e He|m p Hm Hc _ IH]; [done|].
  destruct (HN2 m Hm) as [Hb Hfresh]. destruct Hfresh.
  eapply Hchild; [done..|]. by apply HR2.
Qed.

Lemma merge_output_sorted batch prior :
  sorted_by min_ts (messages (process_messages batch prior)).
Proof.
  rewrite process_messages_unfold. simpl.
  destruct (existing_messages_of prior).
  - apply minimal_new_sorted.
  - apply sort_by_sorted.
Qed.

Lemma merge_output_canonical batch prior :
  processed_ids (process_messages batch prior)
  = sorted_ids (list_to_set (processed_ids (process_messages batch prior))).
Proof.
  rewrite process_messages_unfold. simpl.
  destruct (existing_messages_of prior); by rewrite list_to_set_sorted_ids.
Qed.

Lemma merge_output_empty batch prior :
  messages (process_messages batch prior) = [] →
  processed_ids (process_messages batch prior) = [].
Proof.
  rewrite process_messages_unfold. simpl.
  destruct (existing_messages_of prior) as [|r rs] eqn:Hex.
  - intros Hnil%fmap_nil_inv.
    rewrite <- sorted_ids_empty. f_equal.
    apply set_eq. intros e. split; [|set_solver]. intros He.
    assert (∃ m, m ∈ new_only_of batch prior ∧ m_event_id m = e) as (m & Hm & <-).
    { apply keep_ids_sub, elem_of_union in He as [He|He].
      - apply elem_of_category_root_ids in He as [He|(m & ? & _ & _ & ?)]; [|by eauto].
        apply elem_of_existing_root_ids in He as (r & Hr & _).
        rewrite Hex in Hr. inv Hr.
      - apply elem_of_list_to_set, list_elem_of_fmap in He as (m & -> & ?). eauto. }
    assert (m ∈ @nil RawMessage) as Hin; [|inv Hin].
    rewrite <- Hnil. by apply elem_of_kept.
  - intros Hnil. apply (f_equal length) in Hnil.
    rewrite sort_by_perm in Hnil. done.
Qed.

(** ** Keywords *)

(** A match of the hashtag pattern: [#], a word character, then word
    characters and hyphens. *)
Lemma hashtag_match bos s g r :
  Re.match_here re_hashtag bos s = Some (g, r) →
  (s = ord "#" :: g ++ r ∧ ord "#" :: g ≠ [])
  ∧ ∃ c g', g = c :: g' ∧ is_word c = true
            ∧ Forall (λ c, is_word c = true ∨ c = ord "-") g'.
Proof.
  intros (pieces & Hp & -> & ->)%match_here_sound.
  unfold re_hashtag, Re.chr in Hp |- *.
  apply Forall2_cons_inv_l in Hp as (? & ? & (a & -> & <-%N.eqb_eq) & Hp & ->).
  apply Forall2_cons_inv_l in Hp as (? & ? & (c & -> & Hc) & Hp & ->).
  apply Forall2_cons_inv_l in Hp as (g' & ? & Hg' & Hp & ->).
  apply Forall2_nil_inv_l in Hp as ->.
  unfold Re.group_of. cbn [zip_with concat app]. rewrite !app_nil_r.
  split; [done|]. exists c, g'. split; [done|]. split; [done|].
  eapply Forall_impl; [exact Hg'|].
  intros x [?|?%N.eqb_eq]%orb_true_iff; auto.
Qed.

Lemma elem_of_findall re s g : g ∈ Re.findall re s → inr g ∈ Re.scan re 0 true s.
Proof.
  unfold Re.findall. intros ([c|g'] & Hin & Heq)%list_elem_of_omap; [done|].
  by injection Heq as ->.
Qed.

(** The loop over the bold spans appends, in order, the stripped spans of
    two to four words that are not yet there, case apart. *)
Lemma fold_bold_step keywords spans :
  ∃ bold,
    foldl bold_step keywords spans = keywords ++ bold
    ∧ bold `sublist_of` (Py.strip <$> spans)
    ∧ Forall (λ p, 2 ≤ length (Py.split p) ≤ 4 ∧ lower p ∉ lower <$> keywords) bold
    ∧ NoDup (lower <$> bold)
    ∧ Forall (λ s, 2 ≤ length (Py.split (Py.strip s)) ≤ 4 →
                   lower (Py.strip s) ∈ lower <$> (keywords ++ bold)) spans.
Proof.
  revert keywords. induction spans as [|s spans IH]; intros keywords; simpl.
  { exists []. rewrite app_nil_r. repeat split; by constructor. }
  unfold bold_step at 2.
  destruct (_ && _) eqn:Hcond.
  - apply andb_true_iff in Hcond as [[H2%Nat.leb_le H4%Nat.leb_le]%andb_true_iff Hnew].
    apply negb_true_iff, bool_decide_eq_false in Hnew.
    destruct (IH (keywords ++ [Py.strip s]))
      as (bold & Heq & Hsub & Hall & Hnd & Hrep).
    exists (Py.strip s :: bold). rewrite Heq, <- app_assoc. split; [done|].
    split; [by apply sublist_skip|]. split; [|split].
    + constructor; [done|]. eapply Forall_impl; [exact Hall|].
      intros p [? Hp]. split; [done|]. intros Hin. apply Hp.
      rewrite fmap_app. apply elem_of_app. by left.
    + rewrite fmap_cons. constructor; [|done].
      intros (p & Hp & Hin)%list_elem_of_fmap.
      rewrite Forall_forall in Hall. destruct (Hall p Hin) as [_ Hno].
      apply Hno. rewrite fmap_app. apply elem_of_app. right.
      rewrite <- Hp. by left.
    + constructor.
      * intros _. rewrite fmap_app. apply elem_of_app. right. by left.
      * eapply Forall_impl; [exact Hrep|]. intros s' Hs' Hw.
        specialize (Hs' Hw). by rewrite <- app_assoc in Hs'.
  - destruct (IH keywords) as (bold & Heq & Hsub & Hall & Hnd & Hrep).
    exists bold. split; [done|]. split; [by apply sublist_cons|].
    split; [done|]. split; [done|]. constructor; [|done].
    intros [H2 H4]. rewrite fmap_app. apply elem_of_app. left.
    apply andb_false_iff in Hcond as [Hcond|Hcond].
    + apply andb_false_iff in Hcond as [?%Nat.leb_gt|?%Nat.leb_gt]; lia.
    + by apply negb_false_iff, bool_decide_eq_true in Hcond.
Qed.

(** ** Closure correctness *)

(** C4. The keep-set is exactly the set of ids reachable from the seeds
    through resolved parent references of text messages of [new_only]:
    the seeds, and every message whose parent is already in; a reply chain
    of any depth hanging from a seed is kept whole; the kept messages are
    those of [new_only] with a reachable id, so a message (not itself a
    seed) whose parent never resolves into the set is left out; and on a
    first run the processed ids are the reachable ids. *)
Theorem closure_correct (seeds : gset str) (new_only : list RawMessage) :
  (∀ e, e ∈ keep_ids_of seeds new_only ↔ reachable seeds new_only e)
  ∧ (∀ root chain m,
       root ∈ seeds → chain ⊆ new_only → reply_chain root chain → m ∈ chain →
       m_event_id m ∈ keep_ids_of seeds new_only)
  ∧ (∀ m, m ∈ kept_of (keep_ids_of seeds new_only) new_only
          ↔ m ∈ new_only ∧ reachable seeds new_only (m_event_id m))
  ∧ (∀ e, e ∈ processed_ids (process_messages new_only None)
          ↔ reachable (category_root_ids_of ∅ new_only) new_only e).
Proof.
  split; [apply elem_of_keep_ids|]. split; [|split].
  - intros root chain m Hroot Hsub Hch Hm. apply elem_of_keep_ids.
    eapply reply_chain_reachable; [|done..]. by constructor.
  - intros m. rewrite elem_of_kept. by rewrite elem_of_keep_ids.
  - intros e. unfold process_messages. simpl.
    rewrite elem_of_sorted_ids.
    replace (existing_root_ids_of None) with (∅ : gset str) by done.
    apply elem_of_keep_ids.
Qed.

(** ** Frame property of the persisted records *)

(** C3. The merge leaves the records of the prior state as they are: the
    output list is a rearrangement of the prior records followed by the
    records built in this run, so every prior record is in the output
    unchanged; and an output record whose id was already processed is a
    prior record, whatever edit events the batch holds for it. *)
Theorem prior_records_unchanged (batch : list RawMessage) (prior : ExportState)
    (r : MinimalMessage) :
  r ∈ messages prior →
  r ∈ messages (process_messages batch (Some prior))
  ∧ (∃ built, messages (process_messages batch (Some prior))
              ≡ₚ messages prior ++ built)
  ∧ ∀ r', r' ∈ messages (process_messages batch (Some prior)) →
          mm_id r' ∈ processed_ids prior → r' ∈ messages prior.
Proof.
  intros Hr. pose proof (messages_perm batch (Some prior)) as Hperm.
  split; [|split].
  - rewrite Hperm. apply elem_of_app. by left.
  - eexists. exact Hperm.
  - intros r' Hr' Hid. rewrite Hperm in Hr'.
    apply elem_of_app in Hr' as [?|Hnew]; [done|].
    apply elem_of_minimal_new in Hnew as (m & Hm & ->).
    apply elem_of_kept in Hm as [Hm _].
    apply new_only_fresh in Hm as [_ Hfresh].
    by rewrite to_minimal_message_id in Hid.
Qed.

(** ** Monotonicity of [processed_ids] *)

(** When the prior state holds at least one record, the merge keeps every
    processed id. *)
Lemma processed_ids_kept_when_messages (batch : list RawMessage)
    (prior : ExportState) (e : str) :
  messages prior ≠ [] → e ∈ processed_ids prior →
  e ∈ processed_ids (process_messages batch (Some prior)).
Proof.
  intros Hne He. rewrite process_messages_unfold. simpl.
  destruct (messages prior); [done|].
  apply elem_of_sorted_ids, elem_of_union_l, elem_of_list_to_set, He.
Qed.

(** C6. On a prior state with processed ids but no records the merge does
    not keep the ids: the branch taken when [existing_messages] is empty
    returns [sorted(keep_ids)] alone. *)
Theorem processed_ids_dropped :
  let prior := {| messages := [];
                  processed_ids := [py "$a"];
                  last_processed_ts := 0 |} in
  py "$a" ∈ processed_ids prior
  ∧ processed_ids (process_messages [] (Some prior)) = [].
Proof. split; [by apply list_elem_of_singleton|by vm_compute]. Qed.

(** ** Edit resolution *)

(** C8. The edit map is built from the whole batch and holds, for each
    target, the replacement of the last edit event in scan order: the
    text of the nested new content when present, else of the top-level
    content.  A kept message whose id is a target is emitted with that
    body and formatted body (the latter key being left out when empty). *)
Theorem edit_resolution (before after : list RawMessage) (e : RawMessage)
    (prior : option ExportState) (m : RawMessage) :
  let batch := before ++ e :: after in
  let new_only := new_only_of batch prior in
  let roots := category_root_ids_of (existing_root_ids_of prior) new_only in
  is_edit_of e (m_event_id m) →
  (∀ e', e' ∈ after → ¬ is_edit_of e' (m_event_id m)) →
  m ∈ new_only →
  m_event_id m ∈ keep_ids_of roots new_only →
  build_edit_map batch !! m_event_id m = Some (replacement_of e)
  ∧ ∃ r, r ∈ messages (process_messages batch prior)
         ∧ mm_id r = m_event_id m
         ∧ mm_ts r = Some (raw_ts m)
         ∧ mm_body r = (replacement_of e).1
         ∧ mm_formatted_body r
           = (if bool_decide ((replacement_of e).2 = []) then None
              else Some (replacement_of e).2).
Proof.
  intros batch new_only roots He Hlast Hm Hkeep.
  assert (build_edit_map batch !! m_event_id m = Some (replacement_of e)) as Hmap
    by by apply build_edit_map_last.
  split; [done|].
  exists (to_minimal_message m (negb (bool_decide (m_event_id m ∈ roots)))
            (build_edit_map batch)).
  split.
  { rewrite messages_perm. apply elem_of_app. right.
    apply elem_of_minimal_new. exists m. split; [|done].
    by apply elem_of_kept. }
  destruct (replacement_of e) as [b fb] eqn:Hrep.
  destruct (to_minimal_message_edited m
              (negb (bool_decide (m_event_id m ∈ roots))) _ _ _ Hmap) as [Hb Hfb].
  rewrite to_minimal_message_id. split; [done|]. split; [|done].
  unfold to_minimal_message. rewrite Hmap. done.
Qed.

(** ** Idempotence of the merge *)

(** After the merge of a batch into a state that holds the ids processed
    before, a second merge of the batch would keep nothing new. *)
Lemma merge_saturated (batch : list RawMessage) (prior : option ExportState) :
  (∀ e, e ∈ already_processed_of prior →
        e ∈ processed_ids (process_messages batch prior)) →
  ∀ e, e ∈ keep_ids_of
             (category_root_ids_of
                (existing_root_ids_of (Some (process_messages batch prior)))
                (new_only_of batch (Some (process_messages batch prior))))
             (new_only_of batch (Some (process_messages batch prior))) →
       e ∈ processed_ids (process_messages batch prior).
Proof.
  intros Hprior.
  pose proof (output_roots_kept batch prior) as Hroots.
  pose proof (keep_ids_processed batch prior) as Hkeep.
  set (N1 := new_only_of batch prior) in *.
  set (R1 := category_root_ids_of (existing_root_ids_of prior) N1) in *.
  apply merge_keeps_nothing.
  - intros e He. by apply Hkeep, Hroots.
  - intros m Hm Hcat Hne.
    destruct (decide (m_event_id m ∈ already_processed_of prior)) as [|Hnew];
      [by apply Hprior|].
    apply Hkeep, keep_ids_roots, elem_of_category_root_ids. right.
    exists m. split; [|done]. by apply elem_of_new_only.
  - intros m p Hm Hc Hp.
    destruct (decide (m_event_id m ∈ already_processed_of prior)) as [|Hnew];
      [by apply Hprior|].
    apply Hkeep. eapply (keep_ids_closed R1 N1); [|done|by apply Hroots].
    by apply elem_of_new_only.
Qed.

(** Merging a batch again into the state that its merge produced changes
    nothing, as soon as that state holds every id the second merge would
    keep. *)
Lemma merge_twice (batch : list RawMessage) (prior : option ExportState) :
  (∀ e, e ∈ keep_ids_of
              (category_root_ids_of
                 (existing_root_ids_of (Some (process_messages batch prior)))
                 (new_only_of batch (Some (process_messages batch prior))))
              (new_only_of batch (Some (process_messages batch prior))) →
        e ∈ processed_ids (process_messages batch prior)) →
  process_messages batch (Some (process_messages batch prior))
  = process_messages batch prior.
Proof.
  intros Hkeep. apply merge_noop_keep; [| | |done].
  - apply merge_output_sorted.
  - apply merge_output_canonical.
  - apply merge_output_empty.
Qed.

(** On a first run no id was processed before. *)
Lemma merge_twice_fresh (batch : list RawMessage) :
  process_messages batch (Some (process_messages batch None))
  = process_messages batch None.
Proof.
  apply merge_twice, merge_saturated. intros e He. simpl in He. set_solver.
Qed.

(** C2. Idempotence: let [S] be the result of merging the batch [B] into a
    prior state (or into none).  If [S] holds every id that a merge of [B]
    into [S] would keep, then merging [B] into [S] returns [S]: the same
    messages (the re-sort leaves them in place), the same processed ids,
    the same timestamp.  That is the case as soon as [S] holds the ids
    processed before the first merge, and always on a first run. *)
Theorem merge_idempotent (B : list RawMessage) (prior : option ExportState)
    (S : ExportState) :
  S = process_messages B prior →
  ((∀ e, e ∈ keep_ids_of
               (category_root_ids_of (existing_root_ids_of (Some S))
                  (new_only_of B (Some S)))
               (new_only_of B (Some S)) →
         e ∈ processed_ids S) →
   process_messages B (Some S) = S
   ∧ messages (process_messages B (Some S)) = messages S
   ∧ processed_ids (process_messages B (Some S)) = processed_ids S
   ∧ last_processed_ts (process_messages B (Some S)) = last_processed_ts S)
  ∧ ((∀ e, e ∈ already_processed_of prior → e ∈ processed_ids S) →
     process_messages B (Some S) = S)
  ∧ (prior = None → process_messages B (Some S) = S).
Proof.
  intros ->. split; [|split].
  - intros Hkeep.
    assert (process_messages B (Some (process_messages B prior))
            = process_messages B prior) as Heq by by apply merge_twice.
    by rewrite Heq.
  - intros Hprior. by apply merge_twice, merge_saturated.
  - intros ->. apply merge_twice_fresh.
Qed.

(** ** Root role and fields of the output records *)

(** C1 (amended). The root-candidate test accepts a message exactly when
    it is a text message, its relation type is neither [m.replace] nor
    [m.thread], and its body, after leading whitespace and [#], [-], [*],
    starts with one of the seven glyphs.  An in-reply-to reference is not
    looked at: a root candidate of the new messages is emitted in the root
    role, with a null parent and a type other than [reply], whether or
    not it carries one. *)
Theorem root_candidate_gating (msg : RawMessage) :
  (is_category_post msg = true
   ↔ m_type msg = Some M_ROOM_MESSAGE
     ∧ r_rel_type (relates_to_of (content_of msg)) ≠ Some M_REPLACE
     ∧ r_rel_type (relates_to_of (content_of msg)) ≠ Some M_THREAD
     ∧ glyph_prefixed (get_message_content msg).1)
  ∧ ∀ batch prior,
      is_category_post msg = true → m_event_id msg ≠ [] →
      msg ∈ new_only_of batch prior →
      ∃ r, r ∈ messages (process_messages batch prior)
           ∧ r = to_minimal_message msg false (build_edit_map batch)
           ∧ mm_parent_id r = Null
           ∧ mm_type r ≠ py "reply".
Proof.
  split; [apply is_category_post_spec|].
  intros batch prior Hcat Hid Hnew.
  set (roots := category_root_ids_of (existing_root_ids_of prior)
                  (new_only_of batch prior)).
  assert (m_event_id msg ∈ roots) as Hroot.
  { apply elem_of_category_root_ids. right. by exists msg. }
  exists (to_minimal_message msg false (build_edit_map batch)).
  split; [|split; [done|split]].
  - rewrite messages_perm. apply elem_of_app. right.
    apply elem_of_minimal_new. exists msg. split.
    + apply elem_of_kept. split; [done|]. by apply keep_ids_roots.
    + fold roots. by rewrite bool_decide_eq_true_2.
  - unfold to_minimal_message.
    by destruct (build_edit_map batch !! m_event_id msg) as [[]|],
                (get_message_content msg).
  - unfold to_minimal_message.
    destruct (build_edit_map batch !! m_event_id msg) as [[]|],
             (get_message_content msg); apply root_type_not_reply.
Qed.

(** ** Fields of the output records *)

(** C5 (amended). Every record built by the merge has the [parent_id]
    key: it holds the resolved parent on a reply (null if none resolves)
    and null on a root.  The [keywords] key is written on roots only, and
    only when the list extracted from the emitted body is not empty. *)
Theorem output_field_presence (batch : list RawMessage)
    (prior : option ExportState) (r : MinimalMessage) :
  let new_only := new_only_of batch prior in
  let roots := category_root_ids_of (existing_root_ids_of prior) new_only in
  let kept := kept_of (keep_ids_of roots new_only) new_only in
  r ∈ minimal_new_of roots (build_edit_map batch) kept →
  ∃ m, m ∈ new_only
       ∧ r = to_minimal_message m (negb (bool_decide (m_event_id m ∈ roots)))
               (build_edit_map batch)
       ∧ mm_parent_id r ≠ Absent
       ∧ mm_parent_id r
         = (if bool_decide (m_event_id m ∈ roots) then Null
            else match get_parent_id m with Some p => Val p | None => Null end)
       ∧ mm_keywords r
         = (if bool_decide (m_event_id m ∈ roots)
            then match extract_keywords (mm_body r) with
                 | [] => None
                 | kw => Some kw
                 end
            else None).
Proof.
  intros new_only roots kept (m & Hm & ->)%elem_of_minimal_new.
  exists m. split; [by apply elem_of_kept in Hm as [? _]|]. split; [done|].
  unfold to_minimal_message.
  destruct (build_edit_map batch !! m_event_id m) as [[b fb]|],
           (get_message_content m) as [b' fb'];
    destruct (bool_decide (m_event_id m ∈ roots)); simpl;
    (split; [|done]); by destruct (get_parent_id m).
Qed.

(** ** Keyword extraction *)

(** C10. The extracted list is made, in this order, of the tokens of the
    keywords line, of the hashtags, and of the bold phrases; it is
    deduplicated by exact value, first occurrence first, and cut at 15.
    - The keywords line is a [keyword(s)] label in any case and a colon,
      followed by the text up to the next [#] or newline; its comma-separated
      fields are stripped and lowercased, empty ones left out.
    - The hashtags are read off the body from left to right, as written.
    - The bold spans are read off the body from left to right; a stripped
      span of two to four words is taken unless it is already there, case
      apart.
    - A root record has no [keywords] key when the list is empty.
    The sample body of the specification yields its four keywords. *)
Theorem keyword_extraction (body : str) :
  let explicit :=
    match Re.search re_keywords body with
    | Some g => keyword_line_tokens g
    | None => []
    end in
  let tags := Re.findall re_hashtag body in
  let spans := Re.findall re_bold body in
  (∃ bold,
     extract_keywords body
     = take 15 (Py.dedupe [] explicit ++ Py.dedupe explicit tags
                ++ Py.dedupe (explicit ++ tags) bold)
     ∧ bold `sublist_of` (Py.strip <$> spans)
     ∧ Forall (λ p, 2 ≤ length (Py.split p) ≤ 4
                    ∧ lower p ∉ lower <$> (explicit ++ tags)) bold
     ∧ NoDup (lower <$> bold)
     ∧ Forall (λ s, 2 ≤ length (Py.split (Py.strip s)) ≤ 4 →
                    lower (Py.strip s) ∈ lower <$> ((explicit ++ tags) ++ bold))
         spans)
  ∧ (∀ g, Re.search re_keywords body = Some g →
          (∃ before label after,
             body = before ++ label ++ g ++ after
             ∧ is_keywords_label label ∧ g ≠ []
             ∧ Forall (λ c, c ≠ 10%N ∧ c ≠ ord "#") g
             ∧ match after with [] => True | c :: _ => c = 10%N ∨ c = ord "#" end)
          ∧ explicit
            = (λ w, lower (Py.strip w))
                <$> filter (λ w, Py.strip w ≠ []) (Py.split_on (ord ",") g))
  ∧ (Re.rebuild (λ g, ord "#" :: g) (Re.scan re_hashtag 0 true body) = body
     ∧ Forall (λ t, ∃ c t', t = c :: t' ∧ is_word c = true
                            ∧ Forall (λ c, is_word c = true ∨ c = ord "-") t') tags)
  ∧ (Re.rebuild (λ g, py "**" ++ g ++ py "**") (Re.scan re_bold 0 true body) = body
     ∧ Forall (λ s, s ≠ [] ∧ Forall (λ c, c ≠ ord "*") s) spans)
  ∧ NoDup (extract_keywords body)
  ∧ length (extract_keywords body) ≤ 15
  ∧ (∀ msg edit_map,
       mm_keywords (to_minimal_message msg false edit_map)
       = match extract_keywords (mm_body (to_minimal_message msg false edit_map)) with
         | [] => None
         | kw => Some kw
         end)
  ∧ extract_keywords (py "keywords: ai, governance #research **deep dive**")
    = [py "ai"; py "governance"; py "research"; py "deep dive"].
Proof.
  intros explicit tags spans.
  destruct (fold_bold_step (explicit ++ tags) spans)
    as (bold & Hfold & Hsub & Hall & Hnd & Hrep).
  assert (extract_keywords body
          = take 15 (Py.dedupe [] ((explicit ++ tags) ++ bold))) as Heq.
  { unfold extract_keywords. fold explicit tags spans. by rewrite Hfold. }
  split; [|split; [|split; [|split; [|split; [|split; [|split]]]]]].
  - exists bold. split; [|done]. rewrite Heq. f_equal.
    rewrite !dedupe_app, <- app_assoc. f_equal. f_equal.
    + apply dedupe_seen_ext. set_solver.
    + apply dedupe_seen_ext. set_solver.
  - intros g Hg. split; [|subst explicit; by rewrite Hg].
    apply search_sound in Hg as (before & s' & bos & r & -> & Hm).
    apply keywords_match in Hm as (label & Hl & -> & Hne & Hg & Hr).
    by exists before, label, r.
  - split.
    + rewrite (scan_rebuild re_hashtag (λ g, ord "#" :: g)); [done|].
      intros bos s g r Hm. by apply hashtag_match in Hm as [? _].
    + apply Forall_forall. intros t Ht%elem_of_findall. revert Ht.
      apply (scan_groups
               (λ t, ∃ c t', t = c :: t' ∧ is_word c = true
                             ∧ Forall (λ c, is_word c = true ∨ c = ord "-") t')).
      intros bos s g r Hm. by apply hashtag_match in Hm as [_ ?].
  - split.
    + rewrite (scan_rebuild re_bold (λ g, py "**" ++ g ++ py "**")); [done|].
      intros bos s g r Hm. apply bold_match in Hm as [[-> ?] _].
      split; [by rewrite <- !app_assoc|done].
    + apply Forall_forall. intros t Ht%elem_of_findall. revert Ht.
      apply (scan_groups (λ s, s ≠ [] ∧ Forall (λ c, c ≠ ord "*") s)).
      intros bos s g r Hm. by apply bold_match in Hm as [_ ?].
  - rewrite Heq. eapply sublist_NoDup; [apply NoDup_dedupe|apply sublist_take].
  - rewrite Heq, length_take. lia.
  - intros msg edit_map. unfold to_minimal_message.
    by destruct (edit_map !! m_event_id msg) as [[b fb]|],
                (get_message_content msg) as [b' fb'].
  - by vm_compute.
Qed.

(** ** What every merged state looks like *)

Lemma insert_by_sublist {A} (key : A → Z) (a : A) (pre l : list A) :
  Forall (λ y, (key a ≤ key y)%Z) pre → pre `sublist_of` l →
  (a :: pre) `sublist_of` insert_by key a l.
Proof.
  intros Hpre. induction l as [|y l IH]; intros Hsub.
  - apply sublist_nil_r in Hsub as ->. reflexivity.
  - simpl. destruct (Z.leb_spec (key a) (key y)) as [Hle|Hlt].
    + by apply sublist_skip.
    + apply sublist_cons_r in Hsub as [Hsub|(pre' & -> & Hsub)].
      * by apply sublist_cons, IH.
      * apply Forall_cons in Hpre as [Hy _]. lia.
Qed.

Lemma sort_by_stable_prefix {A} (key : A → Z) (pre post : list A) :
  sorted_by key pre → pre `sublist_of` sort_by key (pre ++ post).
Proof.
  induction pre as [|a pre IH]; intros Hs; [apply sublist_nil_l|].
  simpl. apply Sorted_StronglySorted in Hs; [|intros x y z; lia].
  apply StronglySorted_inv in Hs as [Hs Ha].
  apply insert_by_sublist; [done|].
  by apply IH, StronglySorted_Sorted.
Qed.

Lemma fmap_injective_on {A B} (f : A → B) (l : list A) x y :
  NoDup (f <$> l) → x ∈ l → y ∈ l → f x = f y → x = y.
Proof.
  induction l as [|a l IH]; intros Hnd Hx Hy Hf; [inv Hx|].
  rewrite fmap_cons in Hnd. apply NoDup_cons in Hnd as [Ha Hnd].
  apply elem_of_cons in Hx as [->|Hx]; apply elem_of_cons in Hy as [->|Hy].
  - done.
  - destruct Ha. rewrite Hf. by apply list_elem_of_fmap_2.
  - destruct Ha. rewrite <- Hf. by apply list_elem_of_fmap_2.
  - by apply IH.
Qed.

Lemma minimal_new_ids R em kept :
  mm_id <$> minimal_new_of R em kept = m_event_id <$> kept.
Proof.
  unfold minimal_new_of. rewrite <- list_fmap_compose.
  apply list_fmap_ext. intros i m _. apply to_minimal_message_id.
Qed.

Lemma kept_ids_NoDup K batch prior :
  NoDup (m_event_id <$> batch) →
  NoDup (m_event_id <$> kept_of K (new_only_of batch prior)).
Proof.
  intros Hnd. unfold kept_of. rewrite sort_by_perm.
  apply (sublist_NoDup _ (m_event_id <$> batch)); [exact Hnd|].
  apply fmap_sublist. etrans; [apply sublist_filter|].
  destruct prior; [apply sublist_filter|done].
Qed.

(** An id the merge keeps names a record of the result. *)
Lemma keep_ids_recorded batch prior e :
  e ∈ keep_ids_of
        (category_root_ids_of (existing_root_ids_of prior) (new_only_of batch prior))
        (new_only_of batch prior) →
  ∃ r, r ∈ messages (process_messages batch prior) ∧ mm_id r = e.
Proof.
  intros He.
  assert (e ∈ existing_root_ids_of prior
          ∨ ∃ m, m ∈ new_only_of batch prior ∧ m_event_id m = e) as [Hex|Hnew].
  { apply keep_ids_sub, elem_of_union in He as [He|He].
    - apply elem_of_category_root_ids in He as [He|(m & ? & _ & _ & ?)]; eauto.
    - apply elem_of_list_to_set, list_elem_of_fmap in He as (m & -> & ?). eauto. }
  - apply elem_of_existing_root_ids in Hex as (r & Hr & _ & Hid).
    exists r. split; [|done]. rewrite messages_perm. apply elem_of_app. by left.
  - destruct Hnew as (m & Hm & <-).
    eexists. split; [|apply to_minimal_message_id].
    rewrite messages_perm. apply elem_of_app. right.
    apply elem_of_minimal_new. exists m. split; [|done]. by apply elem_of_kept.
Qed.

(** X1: the records of every merged state are in ascending order of
    timestamp, and the merge is stable: when the prior records were in
    order, they keep their relative order in the result. *)
Theorem merge_chronological (batch : list RawMessage) (prior : option ExportState) :
  sorted_by min_ts (messages (process_messages batch prior))
  ∧ (sorted_by min_ts (existing_messages_of prior) →
     existing_messages_of prior
       `sublist_of` messages (process_messages batch prior)).
Proof.
  split.
  - rewrite process_messages_unfold. simpl.
    destruct (existing_messages_of prior).
    + apply minimal_new_sorted.
    + apply sort_by_sorted.
  - intros Hs. rewrite process_messages_unfold. simpl.
    destruct (existing_messages_of prior) as [|r rs] eqn:Hex.
    + apply sublist_nil_l.
    + by apply sort_by_stable_prefix.
Qed.

(** X2: whatever the prior id list looked like, the id list of a merged
    state is in ascending code-point order, without duplicates, and holds
    the id of every record built in this run. *)
Theorem processed_ids_canonical (batch : list RawMessage)
    (prior : option ExportState) :
  let new_only := new_only_of batch prior in
  let roots := category_root_ids_of (existing_root_ids_of prior) new_only in
  let kept := kept_of (keep_ids_of roots new_only) new_only in
  Sorted str_le (processed_ids (process_messages batch prior))
  ∧ NoDup (processed_ids (process_messages batch prior))
  ∧ ∀ r, r ∈ minimal_new_of roots (build_edit_map batch) kept →
         mm_id r ∈ processed_ids (process_messages batch prior).
Proof.
  intros new_only roots kept. split; [|split].
  - rewrite process_messages_unfold. simpl.
    destruct (existing_messages_of prior); apply sorted_ids_sorted.
  - rewrite process_messages_unfold. simpl.
    destruct (existing_messages_of prior); apply sorted_ids_NoDup.
  - intros r (m & Hm & ->)%elem_of_minimal_new.
    rewrite to_minimal_message_id. apply keep_ids_processed.
    by apply elem_of_kept in Hm as [_ ?].
Qed.

(** X3: the processed ids are the ids of the records.  When this holds of
    the prior state (it does when there is none), it holds of the merged
    state; every root candidate of the batch with an id then has a record
    in the merged state, whether this run or an earlier one built it. *)
Theorem processed_ids_are_record_ids (batch : list RawMessage)
    (prior : option ExportState) :
  (∀ e, e ∈ already_processed_of prior
        ↔ ∃ r, r ∈ existing_messages_of prior ∧ mm_id r = e) →
  (∀ e, e ∈ processed_ids (process_messages batch prior)
        ↔ ∃ r, r ∈ messages (process_messages batch prior) ∧ mm_id r = e)
  ∧ ∀ m, m ∈ batch → is_category_post m = true → m_event_id m ≠ [] →
         ∃ r, r ∈ messages (process_messages batch prior)
              ∧ mm_id r = m_event_id m.
Proof.
  intros Hprior.
  assert (∀ e, e ∈ already_processed_of prior →
               ∃ r, r ∈ messages (process_messages batch prior) ∧ mm_id r = e)
    as Hold.
  { intros e (r & Hr & Hid)%Hprior. exists r. split; [|done].
    rewrite messages_perm. apply elem_of_app. by left. }
  split.
  - intros e. split.
    + rewrite process_messages_unfold. cbn [processed_ids].
      destruct (existing_messages_of prior) as [|r0 rs] eqn:Hex;
        rewrite elem_of_sorted_ids.
      * intros He. apply keep_ids_recorded in He as (r & Hr & Hid).
        rewrite process_messages_unfold, Hex in Hr. by exists r.
      * intros [He|He]%elem_of_union.
        -- apply Hold in He as (r & Hr & Hid).
           rewrite process_messages_unfold, Hex in Hr. by exists r.
        -- apply keep_ids_recorded in He as (r & Hr & Hid).
           rewrite process_messages_unfold, Hex in Hr. by exists r.
    + intros (r & Hr & <-). rewrite messages_perm in Hr.
      apply elem_of_app in Hr as [Hr|Hr].
      * rewrite process_messages_unfold. simpl.
        destruct (existing_messages_of prior) as [|r0 rs] eqn:Hex; [inv Hr|].
        apply elem_of_sorted_ids, elem_of_union. left.
        apply Hprior. by exists r.
      * apply elem_of_minimal_new in Hr as (m & Hm & ->).
        rewrite to_minimal_message_id. apply keep_ids_processed.
        by apply elem_of_kept in Hm as [_ ?].
  - intros m Hm Hcat Hne.
    destruct (decide (m_event_id m ∈ already_processed_of prior)) as [Hdone|Hfresh].
    + by apply Hold.
    + apply keep_ids_recorded, keep_ids_roots, elem_of_category_root_ids.
      right. exists m. split; [by apply elem_of_new_only|done].
Qed.

(** X4: no record is published twice.  When the events of the batch have
    distinct ids, the prior records have distinct ids and each of them is
    among the prior processed ids, the records of the merged state have
    distinct ids. *)
Theorem no_duplicate_records (batch : list RawMessage) (prior : option ExportState) :
  NoDup (m_event_id <$> batch) →
  NoDup (mm_id <$> existing_messages_of prior) →
  (∀ r, r ∈ existing_messages_of prior → mm_id r ∈ already_processed_of prior) →
  NoDup (mm_id <$> messages (process_messages batch prior)).
Proof.
  intros Hbatch Hrecords Hprior.
  rewrite messages_perm, fmap_app, minimal_new_ids.
  apply NoDup_app. split; [done|]. split; [|by apply kept_ids_NoDup].
  intros e (r & -> & Hr)%list_elem_of_fmap (m & Hid & Hm)%list_elem_of_fmap.
  apply elem_of_kept in Hm as [Hm _].
  apply elem_of_new_only in Hm as [_ Hfresh].
  apply Hfresh. rewrite <- Hid. by apply Hprior.
Qed.

(** ** Where the records of a run come from *)

Lemma new_only_batch batch prior m : m ∈ new_only_of batch prior → m ∈ batch.
Proof. by intros [? _]%elem_of_new_only. Qed.

Lemma to_minimal_message_type m is_reply em :
  mm_type (to_minimal_message m is_reply em) = get_message_type m is_reply.
Proof.
  unfold to_minimal_message, get_message_content.
  by destruct (em !! m_event_id m) as [[? ?]|].
Qed.

Lemma to_minimal_message_parent m is_reply em :
  mm_parent_id (to_minimal_message m is_reply em)
  = match (if is_reply then get_parent_id m else None) with
    | Some p => Val p
    | None => Null
    end.
Proof.
  unfold to_minimal_message, get_message_content.
  by destruct (em !! m_event_id m) as [[? ?]|].
Qed.

(** A kept message that is not a root is a child of a kept id, when the
    ids of the batch are distinct. *)
Lemma kept_reply_child batch prior m :
  let new_only := new_only_of batch prior in
  let roots := category_root_ids_of (existing_root_ids_of prior) new_only in
  NoDup (m_event_id <$> batch) →
  m ∈ new_only →
  m_event_id m ∈ keep_ids_of roots new_only →
  m_event_id m ∉ roots →
  ∃ p, is_child_of m p ∧ p ∈ keep_ids_of roots new_only.
Proof.
  intros new_only roots Hnd Hm Hkeep Hroot.
  apply elem_of_keep_ids in Hkeep.
  inversion Hkeep as [e He Heq|m' p Hm' Hchild Hp Heq]; [done|].
  assert (m' = m) as ->.
  { apply (fmap_injective_on m_event_id batch); eauto using new_only_batch. }
  exists p. split; [done|]. by apply elem_of_keep_ids.
Qed.

(** A kept message whose id is a root is a root candidate, when the ids
    of the batch are distinct and the prior records are processed. *)
Lemma kept_root_candidate batch prior m :
  let new_only := new_only_of batch prior in
  let roots := category_root_ids_of (existing_root_ids_of prior) new_only in
  NoDup (m_event_id <$> batch) →
  (∀ r, r ∈ existing_messages_of prior → mm_id r ∈ already_processed_of prior) →
  m ∈ new_only →
  m_event_id m ∈ roots →
  is_category_post m = true ∧ m_event_id m ≠ [].
Proof.
  intros new_only roots Hnd Hprior Hm Hroot.
  apply elem_of_category_root_ids in Hroot as [Hex|(m' & Hm' & Hcat & Hne & Heq)].
  - apply elem_of_existing_root_ids in Hex as (r & Hr & _ & Hid).
    apply elem_of_new_only in Hm as [_ Hfresh].
    destruct Hfresh. rewrite <- Hid. by apply Hprior.
  - assert (m' = m) as ->; [|done].
    apply (fmap_injective_on m_event_id batch); eauto using new_only_batch.
Qed.

(** X5: no reply is left dangling by the run that builds it.  When the
    events of the batch have distinct ids, every record of type [reply]
    built in a run names, in [parent_id], a non-empty id that is the id of
    a record of the merged state. *)
Theorem reply_parent_recorded (batch : list RawMessage) (prior : option ExportState)
    (r : MinimalMessage) :
  let new_only := new_only_of batch prior in
  let roots := category_root_ids_of (existing_root_ids_of prior) new_only in
  let kept := kept_of (keep_ids_of roots new_only) new_only in
  NoDup (m_event_id <$> batch) →
  r ∈ minimal_new_of roots (build_edit_map batch) kept →
  mm_type r = py "reply" →
  ∃ p, mm_parent_id r = Val p ∧ p ≠ []
       ∧ ∃ r', r' ∈ messages (process_messages batch prior) ∧ mm_id r' = p.
Proof.
  intros new_only roots kept Hnd (m & Hm & ->)%elem_of_minimal_new Htype.
  apply elem_of_kept in Hm as [Hm Hkeep].
  destruct (decide (m_event_id m ∈ roots)) as [Hroot|Hroot].
  { rewrite to_minimal_message_type, bool_decide_true in Htype by done.
    by apply root_type_not_reply in Htype. }
  destruct (kept_reply_child batch prior m Hnd Hm Hkeep Hroot)
    as (p & (_ & Hp & Hne) & Hpk).
  exists p. split; [|split; [done|by apply keep_ids_recorded]].
  rewrite to_minimal_message_parent, bool_decide_false by done. cbn [negb].
  by rewrite Hp.
Qed.

(** X6: every record built in a run comes from a text event of the batch
    that was not processed before, and has one of two roles: a root
    candidate, emitted with a root type and a null parent, or a child of a
    kept message, emitted with type [reply] and that parent.  The events
    of the batch are to have distinct ids and the prior records to be
    among the prior processed ids. *)
Theorem record_provenance (batch : list RawMessage) (prior : option ExportState)
    (r : MinimalMessage) :
  let new_only := new_only_of batch prior in
  let roots := category_root_ids_of (existing_root_ids_of prior) new_only in
  let kept := kept_of (keep_ids_of roots new_only) new_only in
  NoDup (m_event_id <$> batch) →
  (∀ r, r ∈ existing_messages_of prior → mm_id r ∈ already_processed_of prior) →
  r ∈ minimal_new_of roots (build_edit_map batch) kept →
  ∃ m, m ∈ batch
       ∧ mm_id r = m_event_id m
       ∧ m_type m = Some M_ROOM_MESSAGE
       ∧ (m_event_id m ∉ already_processed_of prior)
       ∧ ((is_category_post m = true ∧ m_event_id m ≠ []
           ∧ mm_type r ≠ py "reply" ∧ mm_parent_id r = Null)
          ∨ ((is_category_post m = false ∨ m_event_id m = [])
             ∧ ∃ p, is_child_of m p ∧ p ∈ keep_ids_of roots new_only
                    ∧ mm_type r = py "reply" ∧ mm_parent_id r = Val p)).
Proof.
  intros new_only roots kept Hnd Hprior (m & Hm & ->)%elem_of_minimal_new.
  apply elem_of_kept in Hm as [Hm Hkeep].
  pose proof Hm as [Hb Hfresh]%elem_of_new_only.
  exists m. split; [done|]. split; [apply to_minimal_message_id|].
  destruct (decide (m_event_id m ∈ roots)) as [Hroot|Hroot].
  - destruct (kept_root_candidate batch prior m Hnd Hprior Hm Hroot) as [Hcat Hne].
    split; [by apply is_category_post_spec in Hcat as [? _]|]. split; [done|].
    left. rewrite to_minimal_message_type, to_minimal_message_parent.
    rewrite bool_decide_true by done. cbn [negb].
    split; [done|]. split; [done|]. split; [apply root_type_not_reply|done].
  - destruct (kept_reply_child batch prior m Hnd Hm Hkeep Hroot)
      as (p & Hchild & Hpk).
    pose proof Hchild as (Htype & Hp & Hne).
    split; [done|]. split; [done|]. right. split.
    + destruct (is_category_post m) eqn:Hcat; [|by left].
      destruct (decide (m_event_id m = [])) as [?|Hid]; [by right|].
      destruct Hroot. apply elem_of_category_root_ids. right. by exists m.
    + exists p. rewrite to_minimal_message_type, to_minimal_message_parent.
      rewrite bool_decide_false by done. cbn [negb]. by rewrite Hp.
Qed.

(** ** The high-water mark *)

Lemma foldr_max_init (z : Z) l : (z ≤ foldr Z.max z l)%Z.
Proof. induction l; simpl; lia. Qed.

Lemma foldr_max_elem (z : Z) l x : x ∈ l → (x ≤ foldr Z.max z l)%Z.
Proof.
  induction l as [|y l IH]; intros Hx; [inv Hx|].
  apply elem_of_cons in Hx as [->|Hx]; simpl; [lia|]. specialize (IH Hx). lia.
Qed.

Lemma foldr_max_attained (z : Z) l : foldr Z.max z l = z ∨ foldr Z.max z l ∈ l.
Proof.
  induction l as [|y l IH]; [by left|]. simpl.
  destruct (Z.max_spec y (foldr Z.max z l)) as [[_ ->]|[_ ->]].
  - destruct IH as [?|?]; [by left|]. right. by apply elem_of_cons; right.
  - right. by apply elem_of_cons; left.
Qed.

(** X7: [last_processed_ts] is a high-water mark.  It never goes down, it
    is the prior mark or the timestamp of a record built in this run, no
    record built in this run is later, and when no prior record is later
    than the prior mark, no record of the merged state is later than the
    merged one. *)
Theorem last_processed_ts_high_water (batch : list RawMessage)
    (prior : option ExportState) :
  let new_only := new_only_of batch prior in
  let roots := category_root_ids_of (existing_root_ids_of prior) new_only in
  let kept := kept_of (keep_ids_of roots new_only) new_only in
  let built := minimal_new_of roots (build_edit_map batch) kept in
  let last := last_processed_ts (process_messages batch prior) in
  (existing_last_ts_of prior ≤ last)%Z
  ∧ (∀ r, r ∈ built → (min_ts r ≤ last)%Z)
  ∧ (last = existing_last_ts_of prior ∨ ∃ r, r ∈ built ∧ min_ts r = last)
  ∧ ((∀ r, r ∈ existing_messages_of prior
           → (min_ts r ≤ existing_last_ts_of prior)%Z) →
     ∀ r, r ∈ messages (process_messages batch prior) → (min_ts r ≤ last)%Z).
Proof.
  intros new_only roots kept built last.
  assert (last = foldr Z.max (existing_last_ts_of prior) (raw_ts <$> kept)) as Hlast
    by (unfold last; by rewrite process_messages_unfold).
  assert (∀ r, r ∈ built → (min_ts r ≤ last)%Z) as Hbuilt.
  { intros r (m & Hm & ->)%elem_of_minimal_new.
    rewrite to_minimal_message_ts, Hlast.
    by apply foldr_max_elem, list_elem_of_fmap_2. }
  split; [rewrite Hlast; apply foldr_max_init|]. split; [done|]. split.
  - destruct (foldr_max_attained (existing_last_ts_of prior) (raw_ts <$> kept))
      as [Heq|Hin]; [left; congruence|right].
    apply list_elem_of_fmap in Hin as (m & Heq & Hm).
    eexists. split; [apply elem_of_minimal_new; by exists m|].
    rewrite to_minimal_message_ts. congruence.
  - intros Hprior r Hr. rewrite messages_perm in Hr.
    apply elem_of_app in Hr as [Hr|Hr]; [|by apply Hbuilt].
    etrans; [by apply Hprior|]. rewrite Hlast. apply foldr_max_init.
Qed.

(** X8: a batch of events that are all processed already changes nothing
    but the order: the records are the prior records sorted by timestamp,
    the mark is the prior mark, and the processed ids are the prior ones
    together with the ids of the prior roots; a state without records ends
    with no processed id at all. *)
Theorem merge_processed_batch (batch : list RawMessage) (S : ExportState) :
  (∀ m, m ∈ batch → m_event_id m ∈ processed_ids S) →
  messages (process_messages batch (Some S)) = sort_by min_ts (messages S)
  ∧ last_processed_ts (process_messages batch (Some S)) = last_processed_ts S
  ∧ ∀ e, e ∈ processed_ids (process_messages batch (Some S))
         ↔ messages S ≠ []
           ∧ (e ∈ processed_ids S ∨ e ∈ existing_root_ids_of (Some S)).
Proof.
  intros Hbatch.
  assert (new_only_of batch (Some S) = []) as Hnew.
  { apply elem_of_nil_inv. intros m [Hm Hfresh]%new_only_fresh.
    by apply Hfresh, Hbatch. }
  rewrite process_messages_unfold, Hnew. simpl.
  destruct (messages S) as [|r rs] eqn:Hms.
  - split; [done|]. split; [done|]. intros e. split; [|by intros [? _]].
    rewrite elem_of_sorted_ids. unfold keep_ids_of, thread_closure. simpl.
    intros (r & Hr & _)%elem_of_existing_root_ids.
    simpl in Hr. rewrite Hms in Hr. inv Hr.
  - split; [by rewrite app_nil_r|]. split; [done|]. intros e.
    rewrite elem_of_sorted_ids, elem_of_union, elem_of_list_to_set.
    unfold keep_ids_of, thread_closure. simpl. naive_solver.
Qed.

(** ** The type of a root *)

Lemma startswith_head s p c p' :
  p = c :: p' → Py.startswith s p = true → head s = Some c.
Proof. intros -> [rest ->]%startswith_spec. done. Qed.

Lemma startswith_app s p q : Py.startswith s (p ++ q) = true → Py.startswith s p = true.
Proof.
  intros [rest ->]%startswith_spec. apply startswith_spec.
  exists (q ++ rest). by rewrite app_assoc.
Qed.

(** The type [type_of_emoji] gives when one entry of the table matches and
    every matching entry has the same type. *)
Lemma type_of_emoji_unique body nb table glyph t :
  (glyph, t) ∈ table →
  Py.startswith nb glyph = true →
  (∀ g' t', (g', t') ∈ table → Py.startswith nb g' = true → t' = t) →
  type_of_emoji body nb table
  = if bool_decide (t = py "journal") && is_link_only body then py "link" else t.
Proof.
  intros Hin Hstart Huniq.
  induction table as [|[g0 t0] table IH]; [inv Hin|].
  cbn [type_of_emoji].
  destruct (Py.startswith nb g0 || Py.startswith nb (g0 ++ VS16)) eqn:Htest.
  - assert (t0 = t) as ->; [|done].
    apply (Huniq g0); [by left|].
    apply orb_true_iff in Htest as [?|?%startswith_app]; done.
  - apply IH.
    + apply elem_of_cons in Hin as [[= -> ->]|?]; [|done].
      by rewrite Hstart in Htest.
    + intros g' t' Hin'. apply Huniq. by right.
Qed.

Lemma type_of_emoji_fallback body nb table :
  (∀ g, g ∈ table.*1 → Py.startswith nb g = false) →
  type_of_emoji body nb table = py "field_note".
Proof.
  induction table as [|[g0 t0] table IH]; intros Hnone; [done|].
  cbn [type_of_emoji].
  destruct (Py.startswith nb g0 || Py.startswith nb (g0 ++ VS16)) eqn:Htest.
  - apply orb_true_iff in Htest as [Hs|Hs%startswith_app];
      rewrite (Hnone g0) in Hs; by try left.
  - apply IH. intros g Hg. apply Hnone. by right.
Qed.

(** No two glyphs of the table start alike. *)
Lemma glyphs_apart nb g t g' t' :
  (g, t) ∈ EMOJI_TO_TYPE → (g', t') ∈ EMOJI_TO_TYPE →
  Py.startswith nb g = true → Py.startswith nb g' = true → t' = t.
Proof.
  intros Hin Hin' Hs Hs'.
  assert (Forall (λ x, Forall (λ y, head x.1 = head y.1 → x.1 ≠ [] → y.2 = x.2)
                         EMOJI_TO_TYPE) EMOJI_TO_TYPE) as Htable.
  { apply (bool_decide_unpack _). by vm_compute. }
  assert (Forall (λ x : str * str, x.1 ≠ []) EMOJI_TO_TYPE) as Hne.
  { apply (bool_decide_unpack _). by vm_compute. }
  rewrite Forall_forall in Htable, Hne.
  pose proof (Hne _ Hin) as Hg. pose proof (Hne _ Hin') as Hg'. simpl in Hg, Hg'.
  apply (proj1 (Forall_forall _ _) (Htable _ Hin) _ Hin'); [|done]. simpl.
  destruct g as [|c g]; [done|]. destruct g' as [|c' g']; [done|].
  apply (startswith_head _ _ c g) in Hs; [|done].
  apply (startswith_head _ _ c' g') in Hs'; [|done].
  simpl. congruence.
Qed.

(** X9: the type of a record is one of the eight types of the schema, and
    it is [reply] exactly for a reply.  For a root, the type is read off
    the first glyph of the normalized body: the type the table gives it,
    but [link] for a reading note that is link-only.  A root candidate
    always has such a glyph, and a body without one is a [field_note]. *)
Theorem message_type_by_glyph (msg : RawMessage) :
  (∀ is_reply,
     get_message_type msg is_reply
       ∈ [py "reply"; py "journal"; py "link"; py "question"; py "project";
          py "idea"; py "field_note"; py "blog_post"]
     ∧ (get_message_type msg is_reply = py "reply" ↔ is_reply = true))
  ∧ (∀ glyph t,
       (glyph, t) ∈ EMOJI_TO_TYPE →
       Py.startswith (normalized_body msg) glyph = true →
       get_message_type msg false
       = if bool_decide (t = py "journal")
            && is_link_only (Py.lstrip (get_message_content msg).1)
         then py "link" else t)
  ∧ (is_category_post msg = true →
     ∃ glyph t, (glyph, t) ∈ EMOJI_TO_TYPE
                ∧ Py.startswith (normalized_body msg) glyph = true)
  ∧ ((∀ glyph, glyph ∈ CATEGORY_EMOJIS →
               Py.startswith (normalized_body msg) glyph = false) →
     get_message_type msg false = py "field_note").
Proof.
  split; [|split; [|split]].
  - intros [|]; (split; [|split; [try done|try done]]).
    + by left.
    + unfold get_message_type.
      pose proof (type_of_emoji_range (Py.lstrip (get_message_content msg).1)
                    (normalized_body msg) EMOJI_TO_TYPE) as Hr.
      revert Hr. generalize (type_of_emoji (Py.lstrip (get_message_content msg).1)
                               (normalized_body msg) EMOJI_TO_TYPE).
      intros ty Hr.
      assert (py "link" :: py "field_note" :: EMOJI_TO_TYPE.*2
              ⊆ [py "reply"; py "journal"; py "link"; py "question"; py "project";
                 py "idea"; py "field_note"; py "blog_post"]) as Hsub.
      { apply (bool_decide_unpack _). by vm_compute. }
      by apply Hsub.
    + intros Heq. by apply root_type_not_reply in Heq.
  - intros glyph t Hin Hstart. unfold get_message_type.
    apply (type_of_emoji_unique _ _ _ glyph); [done..|].
    intros g' t' Hin' Hs'. by apply (glyphs_apart (normalized_body msg) glyph t g').
  - unfold is_category_post. intros Hcat.
    destruct (negb _); [done|]. destruct (bool_decide _); [done|].
    destruct (bool_decide _); [done|].
    apply existsb_exists in Hcat as (glyph & Hin & Hs).
    apply list_elem_of_In, list_elem_of_fmap in Hin as ([g t] & -> & Hin).
    by exists g, t.
  - intros Hnone. by apply type_of_emoji_fallback.
Qed.

(** ** Nothing [is_link_only] does makes a body longer *)

Lemma drop_while_length p s : length (Py.drop_while p s) ≤ length s.
Proof. induction s as [|c s IH]; simpl; [done|]. destruct (p c); simpl; lia. Qed.

Lemma lstrip_length s : length (Py.lstrip s) ≤ length s.
Proof. apply drop_while_length. Qed.

Lemma strip_length s : length (Py.strip s) ≤ length s.
Proof.
  unfold Py.strip, Py.rstrip. rewrite length_reverse.
  etrans; [apply drop_while_length|]. rewrite length_reverse. apply lstrip_length.
Qed.

Lemma replace_aux_nil_length old skip s :
  length (Py.replace_aux old [] skip s) ≤ length s.
Proof.
  revert skip. induction s as [|c s IH]; intros skip; [done|].
  cbn [Py.replace_aux]. destruct skip as [|k].
  - destruct (Py.startswith (c :: s) old); cbn [app length].
    + etrans; [apply IH|]. lia.
    + specialize (IH 0). lia.
  - etrans; [apply IH|]. simpl. lia.
Qed.

Lemma strip_emojis_length s : length (strip_emojis s) ≤ length s.
Proof.
  unfold strip_emojis. generalize CATEGORY_EMOJIS. intros glyphs. revert s.
  induction glyphs as [|g glyphs IH]; intros s; simpl; [done|].
  etrans; [apply IH|]. unfold Py.replace.
  etrans; apply replace_aux_nil_length.
Qed.

Lemma group_of_length re pieces :
  length (Re.group_of re pieces) ≤ length (concat pieces).
Proof.
  unfold Re.group_of. revert pieces.
  induction re as [|it re IH]; intros [|p pieces]; simpl; try lia.
  rewrite !length_app. specialize (IH pieces).
  destruct it as [[|] q cls| |]; simpl; lia.
Qed.

(** A match is never longer than what is left of the subject, and its
    group is part of it. *)
Lemma match_here_length re bos s g r :
  Re.match_here re bos s = Some (g, r) → length g + length r ≤ length s.
Proof.
  intros (pieces & _ & -> & ->)%match_here_sound.
  rewrite length_app. pose proof (group_of_length re pieces). lia.
Qed.

Lemma scan_length re (repl : str → str) :
  (∀ bos s g r, Re.match_here re bos s = Some (g, r) →
                length (repl g) + length r ≤ length s) →
  ∀ s skip bos,
    length (flat_map (λ x : N + str, match x with inr g => repl g | inl c => [c] end)
              (Re.scan re skip bos s))
    ≤ length s - skip.
Proof.
  intros Hrepl s. induction s as [|c t IH]; intros skip bos.
  - simpl. destruct skip; [|simpl; lia].
    destruct (Re.match_here re bos []) as [[g r]|] eqn:Hm; [|simpl; lia].
    apply Hrepl in Hm. simpl in *. rewrite length_app. simpl. lia.
  - cbn [Re.scan]. destruct skip as [|k].
    + destruct (Re.match_here re bos (c :: t)) as [[g r]|] eqn:Hm.
      * apply Hrepl in Hm.
        destruct (length (c :: t) - length r) as [|k] eqn:Hn.
        -- cbn [flat_map]. rewrite !length_app.
           specialize (IH 0 false). simpl in *. lia.
        -- cbn [flat_map]. rewrite length_app.
           specialize (IH k false). simpl in *. lia.
      * cbn [flat_map]. rewrite length_app. specialize (IH 0 false). simpl in *. lia.
    + specialize (IH k false). simpl in *. lia.
Qed.

Lemma sub_erase_length re s : length (Re.sub re (λ _, []) s) ≤ length s.
Proof.
  unfold Re.sub. etrans; [apply scan_length|lia].
  intros bos s' g r Hm%match_here_length. simpl. lia.
Qed.

Lemma sub_group_length re s : length (Re.sub re (λ g, g) s) ≤ length s.
Proof.
  unfold Re.sub. etrans; [apply scan_length|lia].
  intros bos s' g r Hm. by apply match_here_length in Hm.
Qed.

Lemma sub_spaces_length s : length (Re.sub re_spaces (λ _, py " ") s) ≤ length s.
Proof.
  unfold Re.sub. etrans; [apply scan_length|lia].
  intros bos s' g r (pieces & Hconf & -> & _)%match_here_sound.
  unfold re_spaces in Hconf.
  apply Forall2_cons_inv_l in Hconf as (p & ps & [Hne _] & Hnil & ->).
  apply Forall2_nil_inv_l in Hnil as ->.
  destruct p; [done|]. simpl. rewrite !length_app. simpl. lia.
Qed.

Lemma link_text_length body : length (link_text body) ≤ length body.
Proof.
  unfold link_text.
  etrans; [apply strip_length|]. etrans; [apply strip_emojis_length|].
  etrans; apply sub_erase_length.
Qed.

Lemma prose_of_length text : length (prose_of text) ≤ length text.
Proof.
  unfold prose_of.
  etrans; [apply strip_length|]. etrans; [apply sub_spaces_length|].
  etrans; [apply sub_group_length|]. apply sub_erase_length.
Qed.

(** X10: a body of fewer than 100 characters is always link-only, so a
    reading note (a root whose normalized body starts with the inbox
    glyph) with such a body is typed [link], never [journal], whatever it
    says. *)
Theorem short_body_is_link (body : str) :
  length body < 100 →
  is_link_only body = true
  ∧ ∀ msg, (get_message_content msg).1 = body →
           Py.startswith (normalized_body msg) (py "📥") = true →
           get_message_type msg false = py "link".
Proof.
  intros Hshort.
  assert (∀ b, length b < 100 → is_link_only b = true) as Hlink.
  { intros b Hb. rewrite is_link_only_eq. apply orb_true_iff. right.
    apply Nat.ltb_lt.
    pose proof (prose_of_length (link_text b)). pose proof (link_text_length b).
    lia. }
  split; [by apply Hlink|].
  intros msg Hbody Hstart. unfold get_message_type.
  rewrite (type_of_emoji_unique _ _ _ (py "📥") (py "journal")).
  - rewrite Hlink; [done|]. rewrite Hbody.
    pose proof (lstrip_length body). lia.
  - by left.
  - done.
  - intros g' t' Hin' Hs'.
    apply (glyphs_apart (normalized_body msg) (py "📥") (py "journal") g');
      [by left|done..].
Qed.

(** ** Edits reach their target only *)

Lemma fold_edit_step_dom l em t :
  is_Some (foldl edit_step em l !! t)
  ↔ is_Some (em !! t) ∨ ∃ e, e ∈ l ∧ is_edit_of e t.
Proof.
  revert em. induction l as [|e l IH]; intros em; simpl.
  - split; [by left|]. intros [?|(e & He & _)]; [done|inv He].
  - rewrite IH, edit_step_lookup.
    destruct (bool_decide_reflect (is_edit_of e t)) as [Hedit|Hedit].
    + split; [|by left]. intros _. right. exists e. split; [by left|done].
    + split.
      * intros [?|(e' & He' & ?)]; [by left|].
        right. exists e'. split; [by right|done].
      * intros [?|(e' & He' & ?)]; [by left|].
        apply elem_of_cons in He' as [->|He']; [done|]. right. by exists e'.
Qed.

Lemma to_minimal_message_unedited m is_reply em :
  em !! m_event_id m = None →
  mm_body (to_minimal_message m is_reply em) = (get_message_content m).1
  ∧ mm_formatted_body (to_minimal_message m is_reply em)
    = (if bool_decide ((get_message_content m).2 = []) then None
       else Some (get_message_content m).2)
  ∧ mm_keywords (to_minimal_message m is_reply em)
    = if is_reply then None
      else match extract_keywords (get_message_content m).1 with
           | [] => None
           | kw => Some kw
           end.
Proof.
  intros Hnone. unfold to_minimal_message, get_message_content.
  by rewrite Hnone.
Qed.

(** X11: the edit map has an entry for exactly the non-empty ids that some
    edit event of the batch targets, and a message that no edit event
    targets is emitted with its own body, formatted body and keywords. *)
Theorem edits_reach_their_target_only (batch : list RawMessage) :
  (∀ t, is_Some (build_edit_map batch !! t) ↔ ∃ e, e ∈ batch ∧ is_edit_of e t)
  ∧ ∀ m is_reply,
      (∀ e, e ∈ batch → ¬ is_edit_of e (m_event_id m)) →
      mm_body (to_minimal_message m is_reply (build_edit_map batch))
      = (get_message_content m).1
      ∧ mm_formatted_body (to_minimal_message m is_reply (build_edit_map batch))
        = (if bool_decide ((get_message_content m).2 = []) then None
           else Some (get_message_content m).2)
      ∧ mm_keywords (to_minimal_message m is_reply (build_edit_map batch))
        = if is_reply then None
          else match extract_keywords (get_message_content m).1 with
               | [] => None
               | kw => Some kw
               end.
Proof.
  split.
  - intros t. unfold build_edit_map. rewrite fold_edit_step_dom, lookup_empty.
    split; [intros [[? [=]]|?]; done|by right].
  - intros m is_reply Hnone.
    by apply to_minimal_message_unedited, build_edit_map_none.
Qed.

(** ** Replies that come after their parent was processed *)

Lemma no_new_event_with_processed_id batch S p :
  p ∈ processed_ids S → p ∉ event_ids (new_only_of batch (Some S)).
Proof.
  intros Hp (m & -> & [_ Hfresh]%new_only_fresh)%elem_of_list_to_set%list_elem_of_fmap.
  done.
Qed.

(** X12: a reply that arrives after its parent was processed is kept only
    when that parent is a root.  Let the events of the batch have distinct
    ids, and let a new text event that is no root candidate name, as its
    parent, an id that the state has processed.  When the parent is a root
    of the state, the event is emitted as a reply to it.  When it is not (a
    reply processed by an earlier run), the event is not kept: no record is
    built for it and its id does not enter the processed ids. *)
Theorem late_reply (batch : list RawMessage) (S : ExportState)
    (m : RawMessage) (p : str) :
  let new_only := new_only_of batch (Some S) in
  let roots := category_root_ids_of (existing_root_ids_of (Some S)) new_only in
  let kept := kept_of (keep_ids_of roots new_only) new_only in
  let built := minimal_new_of roots (build_edit_map batch) kept in
  NoDup (m_event_id <$> batch) →
  m ∈ batch →
  m_event_id m ∉ processed_ids S →
  m_event_id m ∉ existing_root_ids_of (Some S) →
  is_category_post m = false →
  is_child_of m p →
  p ∈ processed_ids S →
  (p ∈ existing_root_ids_of (Some S) →
   ∃ r, r ∈ built ∧ r ∈ messages (process_messages batch (Some S))
        ∧ mm_id r = m_event_id m ∧ mm_type r = py "reply"
        ∧ mm_parent_id r = Val p)
  ∧ (p ∉ existing_root_ids_of (Some S) →
     (∀ r, r ∈ built → mm_id r ≠ m_event_id m)
     ∧ m_event_id m ∉ processed_ids (process_messages batch (Some S))).
Proof.
  intros new_only roots kept built Hnd Hm Hfresh Hnotroot Hcat Hchild Hp.
  assert (m ∈ new_only) as HmN.
  { apply elem_of_new_only. split; [done|]. simpl. by rewrite elem_of_list_to_set. }
  assert (m_event_id m ∉ roots) as Hroot.
  { intros [?|(m' & Hm' & Hcat' & _ & Heq)]%elem_of_category_root_ids; [done|].
    assert (m' = m) as ->; [|congruence].
    apply (fmap_injective_on m_event_id batch); eauto using new_only_batch. }
  split.
  - intros Hproot.
    assert (m_event_id m ∈ keep_ids_of roots new_only) as Hkeep.
    { apply elem_of_keep_ids. apply (reach_child _ _ m p); [done..|].
      by apply reach_seed, category_root_ids_existing. }
    exists (to_minimal_message m true (build_edit_map batch)).
    assert (to_minimal_message m true (build_edit_map batch) ∈ built) as Hbuilt.
    { apply elem_of_minimal_new. exists m. split; [by apply elem_of_kept|].
      by rewrite bool_decide_false. }
    split; [done|]. split.
    { rewrite messages_perm. apply elem_of_app. by right. }
    split; [apply to_minimal_message_id|].
    rewrite to_minimal_message_type, to_minimal_message_parent.
    destruct Hchild as (_ & -> & _). done.
  - intros Hpnot.
    assert (m_event_id m ∉ keep_ids_of roots new_only) as Hkeep.
    { intros Hkeep.
      destruct (kept_reply_child batch (Some S) m Hnd HmN Hkeep Hroot)
        as (p' & (_ & Hp' & _) & Hpk).
      destruct Hchild as (_ & Hpm & _).
      assert (p' = p) as -> by congruence.
      apply keep_ids_sub, elem_of_union in Hpk as [Hpk|Hpk].
      - apply elem_of_category_root_ids in Hpk as [?|(m' & Hm' & _ & _ & Heq)];
          [done|].
        apply (no_new_event_with_processed_id batch S p Hp).
        apply elem_of_list_to_set, list_elem_of_fmap. by exists m'.
      - by apply (no_new_event_with_processed_id batch S p Hp). }
    split.
    + intros r (m' & [Hm' Hk']%elem_of_kept & ->)%elem_of_minimal_new.
      rewrite to_minimal_message_id. intros Heq. apply Hkeep. by rewrite <- Heq.
    + rewrite process_messages_unfold. simpl.
      destruct (messages S); rewrite elem_of_sorted_ids; [done|].
      rewrite elem_of_union, elem_of_list_to_set. by intros [?|?].
Qed.

(** ** The order of delivery *)

Lemma reachable_same_events R N N' e :
  (∀ m, m ∈ N ↔ m ∈ N') → reachable R N e → reachable R N' e.
Proof.
  intros Hsame. induction 1 as [e He|m p Hm Hchild _ IH].
  - by apply reach_seed.
  - apply (reach_child _ _ m p); [by apply Hsame|done..].
Qed.

Lemma new_only_same_events batch batch' prior m :
  batch ≡ₚ batch' → m ∈ new_only_of batch prior ↔ m ∈ new_only_of batch' prior.
Proof. intros Hperm. rewrite !elem_of_new_only. by rewrite Hperm. Qed.

Lemma keep_ids_same_events batch batch' prior :
  batch ≡ₚ batch' →
  keep_ids_of
    (category_root_ids_of (existing_root_ids_of prior) (new_only_of batch prior))
    (new_only_of batch prior)
  = keep_ids_of
      (category_root_ids_of (existing_root_ids_of prior) (new_only_of batch' prior))
      (new_only_of batch' prior).
Proof.
  intros Hperm.
  assert (category_root_ids_of (existing_root_ids_of prior) (new_only_of batch prior)
          = category_root_ids_of (existing_root_ids_of prior)
              (new_only_of batch' prior)) as Hroots.
  { apply set_eq. intros e. rewrite !elem_of_category_root_ids.
    split; (intros [?|(m & Hm & ?)]; [by left|right; exists m; split; [|done]]);
      by eapply new_only_same_events. }
  rewrite Hroots. apply set_eq. intros e. rewrite !elem_of_keep_ids.
  split; apply reachable_same_events; intros m;
    by apply new_only_same_events.
Qed.

(** X13: which messages are kept does not depend on the order in which
    the events of the batch are delivered: two batches with the same
    events give the same processed ids and the same mark, and records with
    the same ids. *)
Theorem delivery_order_irrelevant (batch batch' : list RawMessage)
    (prior : option ExportState) :
  batch ≡ₚ batch' →
  processed_ids (process_messages batch prior)
  = processed_ids (process_messages batch' prior)
  ∧ mm_id <$> messages (process_messages batch prior)
    ≡ₚ mm_id <$> messages (process_messages batch' prior)
  ∧ last_processed_ts (process_messages batch prior)
    = last_processed_ts (process_messages batch' prior).
Proof.
  intros Hperm. pose proof (keep_ids_same_events batch batch' prior Hperm) as Hkeep.
  assert (new_only_of batch prior ≡ₚ new_only_of batch' prior) as Hnew.
  { destruct prior; [|done]. unfold new_only_of. by rewrite Hperm. }
  assert (∀ K, kept_of K (new_only_of batch prior)
               ≡ₚ kept_of K (new_only_of batch' prior)) as Hkept.
  { intros K. unfold kept_of. by rewrite !sort_by_perm, Hnew. }
  split; [|split].
  - rewrite !process_messages_unfold. cbn [processed_ids]. by rewrite Hkeep.
  - rewrite !messages_perm, !fmap_app, !minimal_new_ids.
    by rewrite Hkeep, Hkept.
  - rewrite !process_messages_unfold. cbn [last_processed_ts].
    rewrite Hkeep.
    assert (∀ z (l l' : list Z), l ≡ₚ l' → foldr Z.max z l = foldr Z.max z l')
      as Hmax.
    { intros z l l' Hl. induction Hl; simpl; lia. }
    apply Hmax. by rewrite Hkept.
Qed.

(** ** The edit that wins *)

Lemma last_edit l t :
  (∃ e, e ∈ l ∧ is_edit_of e t) →
  ∃ before e after,
    l = before ++ e :: after ∧ is_edit_of e t
    ∧ ∀ e', e' ∈ after → ¬ is_edit_of e' t.
Proof.
  induction l as [|x l IH]; intros (e & He & Hedit); [inv He|].
  destruct (decide (Exists (λ e, is_edit_of e t) l)) as [Hlater|Hnone].
  - apply Exists_exists in Hlater.
    destruct (IH Hlater) as (before & e' & after & -> & He' & Hafter).
    by exists (x :: before), e', after.
  - apply elem_of_cons in He as [->|He].
    + exists [], x, l. split; [done|]. split; [done|].
      intros e' He' Hedit'. apply Hnone, Exists_exists. by exists e'.
    + destruct Hnone. apply Exists_exists. by exists e.
Qed.

Lemma sorted_before_le {A} (key : A → Z) (before : list A) e after e' :
  sorted_by key (before ++ e :: after) → e' ∈ before → (key e' ≤ key e)%Z.
Proof.
  intros Hsorted He'.
  apply Sorted_StronglySorted in Hsorted; [|intros x y z; lia].
  induction before as [|b before IH]; [inv He'|].
  rewrite <- app_comm_cons in Hsorted.
  apply StronglySorted_inv in Hsorted as [Hsorted Hb].
  apply elem_of_cons in He' as [->|He']; [|by apply IH].
  rewrite Forall_forall in Hb. apply Hb, elem_of_app. right. by left.
Qed.

(** X14: in a batch in ascending order of timestamp, as the bot delivers
    it, the edit that wins is a latest one: the entry of the edit map for a
    target is the replacement text of an edit event of that target that no
    other edit event of the target is later than. *)
Theorem latest_edit_wins (batch : list RawMessage) (t : str) (v : str * str) :
  sorted_by raw_ts batch →
  build_edit_map batch !! t = Some v →
  ∃ e, e ∈ batch ∧ is_edit_of e t ∧ v = replacement_of e
       ∧ ∀ e', e' ∈ batch → is_edit_of e' t → (raw_ts e' ≤ raw_ts e)%Z.
Proof.
  intros Hsorted Hv.
  assert (is_Some (build_edit_map batch !! t)) as Hdom by by rewrite Hv.
  unfold build_edit_map in Hdom.
  apply fold_edit_step_dom in Hdom as [[? Hempty]|Hedit];
    [by rewrite lookup_empty in Hempty|].
  destruct (last_edit batch t Hedit) as (before & e & after & -> & He & Hafter).
  rewrite (build_edit_map_last before e after t He Hafter) in Hv.
  exists e. split; [apply elem_of_app; right; by left|].
  split; [done|]. split; [congruence|].
  intros e' He' Hedit'.
  apply elem_of_app in He' as [He'|He'].
  - by apply (sorted_before_le raw_ts before e after).
  - apply elem_of_cons in He' as [->|He']; [done|]. by destruct (Hafter e' He').
Qed.

End Merge.

(** * Previews: the review listing and the validation report *)

(** [s.replace(a, b)] for one-character [a] and [b] maps the characters. *)
Lemma replace_char (a b : N) (s : str) :
  Py.replace [a] [b] s = (λ c, if (c =? a)%N then b else c) <$> s.
Proof.
  unfold Py.replace. induction s as [|c s IH]; [done|].
  cbn [Py.replace_aux Py.startswith length pred]. rewrite IH, fmap_cons.
  assert (Py.startswith s [] = true) as -> by by destruct s.
  rewrite andb_true_r, (N.eqb_sym a c). by destruct (c =? a)%N.
Qed.

Lemma one_line_length s : length (Py.replace [10%N] (py " ") s) = length s.
Proof. change (py " ") with [32%N]. by rewrite replace_char, length_fmap. Qed.

Lemma one_line_no_newline s : 10%N ∉ Py.replace [10%N] (py " ") s.
Proof.
  change (py " ") with [32%N]. rewrite replace_char.
  intros (c & Hc & _)%list_elem_of_fmap. by destruct (N.eqb_spec c 10).
Qed.

Lemma one_line_id s : 10%N ∉ s → Py.replace [10%N] (py " ") s = s.
Proof.
  intros Hs. change (py " ") with [32%N]. rewrite replace_char.
  induction s as [|c s IH]; [done|].
  apply not_elem_of_cons in Hs as [Hc Hs]. rewrite fmap_cons, IH by done.
  by destruct (N.eqb_spec c 10) as [->|].
Qed.

(** [rstrip] cuts a run of whitespace off the end, and all of it. *)
Lemma rstrip_app s :
  ∃ ws, s = Py.rstrip s ++ ws ∧ Forall (λ c, Py.isspace c = true) ws.
Proof.
  exists (reverse (Py.take_while Py.isspace (reverse s))). split.
  - unfold Py.rstrip. rewrite <- reverse_app, take_drop_while.
    by rewrite reverse_involutive.
  - apply Forall_reverse, take_while_Forall.
Qed.

Lemma head_drop_while p s c : head (Py.drop_while p s) = Some c → p c = false.
Proof.
  induction s as [|d s IH]; [done|]. simpl.
  destruct (p d) eqn:Hd; [done|]. by intros [= <-].
Qed.

Lemma rstrip_last s c : last (Py.rstrip s) = Some c → Py.isspace c = false.
Proof. unfold Py.rstrip. rewrite last_reverse. apply head_drop_while. Qed.

Lemma rstrip_id s :
  match last s with Some c => Py.isspace c = false | None => True end →
  Py.rstrip s = s.
Proof.
  unfold Py.rstrip. rewrite <- head_reverse. intros Hlast.
  destruct (reverse s) as [|c t] eqn:Hrev.
  - apply (f_equal reverse) in Hrev. by rewrite reverse_involutive in Hrev.
  - simpl in *. rewrite Hlast, <- Hrev. apply reverse_involutive.
Qed.

(** X15: the review listing has one line per root of the document, in
    order, and none for a reply.  A line is the id, the type and a preview
    of the body, tab-separated; the preview is on one line, is at most 80
    characters long and does not end in whitespace, and it is followed by
    three dots exactly when the body is longer than 80 characters.  A body
    of at most 80 characters without a newline and without whitespace at
    its end is shown as it is. *)
Theorem review_lists_roots (data : ExportState) :
  Forall2
    (λ m line,
       ∃ preview,
         line = mm_id m ++ [9%N] ++ mm_type m ++ [9%N] ++ preview
                ++ (if bool_decide (80 < length (mm_body m)) then py "..." else [])
         ∧ length preview ≤ 80
         ∧ (10%N ∉ preview)
         ∧ match last preview with
           | Some c => Py.isspace c = false
           | None => True
           end
         ∧ (length (mm_body m) ≤ 80 → 10%N ∉ mm_body m →
            match last (mm_body m) with
            | Some c => Py.isspace c = false
            | None => True
            end →
            preview = mm_body m))
    (filter (λ m, field_truthy (mm_parent_id m) = false) (messages data))
    (review_types data).
Proof.
  unfold review_types. apply Forall2_fmap_r, Forall_Forall2_diag, Forall_forall.
  intros m _. unfold review_line.
  set (cut := Py.replace [10%N] (py " ") (take 80 (mm_body m))).
  exists (Py.rstrip cut). split; [|split; [|split; [|split]]].
  - do 5 f_equal. destruct (Nat.ltb_spec 80 (length (mm_body m)));
      [by rewrite bool_decide_true|by rewrite bool_decide_false by lia].
  - destruct (rstrip_app cut) as (ws & Hcut & _).
    apply (f_equal length) in Hcut. rewrite length_app in Hcut.
    unfold cut in Hcut at 1. rewrite one_line_length, length_take in Hcut. lia.
  - destruct (rstrip_app cut) as (ws & Hcut & _). intros Hin.
    apply (one_line_no_newline (take 80 (mm_body m))). fold cut.
    rewrite Hcut. apply elem_of_app. by left.
  - destruct (last (Py.rstrip cut)) as [c|] eqn:Hlast; [|done].
    by apply rstrip_last in Hlast.
  - intros Hlen Hnl Hlast. unfold cut.
    rewrite take_ge by done. rewrite one_line_id by done. by apply rstrip_id.
Qed.

(** * Reading notes: what [is_link_only] counts *)

(** ** The glyphs *)

Lemma replace_aux_nil_sublist old skip s :
  Py.replace_aux old [] skip s `sublist_of` s.
Proof.
  revert skip. induction s as [|c s IH]; intros skip; [done|].
  cbn [Py.replace_aux]. destruct skip as [|k].
  - destruct (Py.startswith (c :: s) old); cbn [app].
    + by apply sublist_cons.
    + by apply sublist_skip.
  - by apply sublist_cons.
Qed.

(** [s.replace(e, empty)] for a one-character [e] leaves no [e]. *)
Lemma replace_char_nil (e : N) (s : str) :
  Py.replace [e] [] s = filter (λ c, c ≠ e) s.
Proof.
  unfold Py.replace. induction s as [|c s IH]; [done|].
  cbn [Py.replace_aux Py.startswith length pred]. rewrite IH.
  assert (Py.startswith s [] = true) as -> by by destruct s.
  rewrite andb_true_r. destruct (N.eqb_spec e c) as [->|Hne].
  - by rewrite filter_cons_False by (intros Hc; by apply Hc).
  - by rewrite filter_cons_True by (intros ->; by apply Hne).
Qed.

Lemma strip_codes_spec (codes : list N) (s : str) :
  let r := foldl (λ b emoji, Py.replace emoji [] (Py.replace (emoji ++ VS16) [] b))
             s ((λ e, [e]) <$> codes) in
  r `sublist_of` s ∧ Forall (λ c, c ∉ codes) r.
Proof.
  revert s. induction codes as [|e codes IH]; intros s; cbn zeta.
  { split; [done|]. apply Forall_forall. intros c _. apply not_elem_of_nil. }
  rewrite fmap_cons. cbn [foldl]. rewrite replace_char_nil.
  set (s1 := filter (λ c, c ≠ e) (Py.replace ([e] ++ VS16) [] s)).
  destruct (IH s1) as [Hsub Hnone]. cbn zeta in Hsub, Hnone.
  split.
  - etrans; [exact Hsub|]. etrans; [apply sublist_filter|].
    apply replace_aux_nil_sublist.
  - apply Forall_forall. intros c Hc. apply not_elem_of_cons. split.
    + eapply elem_of_sublist in Hc; [|exact Hsub].
      by apply list_elem_of_filter in Hc as [Hne _].
    + by apply (proj1 (Forall_forall _ _) Hnone).
Qed.

(** The glyph removal of [is_link_only] only removes, and leaves no code
    point of a marker glyph. *)
Lemma strip_emojis_spec (s : str) :
  strip_emojis s `sublist_of` s
  ∧ Forall (λ c, [c] ∉ CATEGORY_EMOJIS) (strip_emojis s).
Proof.
  unfold strip_emojis.
  change CATEGORY_EMOJIS with ((λ e : N, [e]) <$> concat CATEGORY_EMOJIS).
  destruct (strip_codes_spec (concat CATEGORY_EMOJIS) s) as [Hsub Hnone].
  split; [exact Hsub|]. eapply Forall_impl; [exact Hnone|].
  intros c Hc (e & [= <-] & He)%list_elem_of_fmap. by apply Hc.
Qed.

Lemma sublist_filter_length {A} (P : A → Prop) `{!∀ x, Decision (P x)}
    (l k : list A) :
  l `sublist_of` k → Forall P l → length l ≤ length (filter P k).
Proof.
  induction 1 as [|x l k _ IH|x l k _ IH]; intros Hl.
  - done.
  - inv Hl. rewrite filter_cons_True by done. simpl.
    apply le_n_S. by apply IH.
  - destruct (decide (P x)).
    + rewrite filter_cons_True by done. simpl. etrans; [by apply IH|]. lia.
    + rewrite filter_cons_False by done. by apply IH.
Qed.

(** What is left of a text once the glyphs are removed is no longer than
    the text of any longer text without its glyphs. *)
Lemma strip_emojis_bound (s b : str) :
  s `sublist_of` b → length (strip_emojis s) ≤ length (without_glyphs b).
Proof.
  intros Hsub. destruct (strip_emojis_spec s) as [Hs Hnone].
  apply sublist_filter_length; [|done]. by etrans.
Qed.

(** ** The italic annotation *)

(** A pattern that ends with a literal character matches up to an
    occurrence of the character. *)
Lemma match_here_last_chr re c0 bos s g r :
  Re.match_here (re ++ [Re.chr c0]) bos s = Some (g, r) →
  ∃ m, s = m ++ c0 :: r.
Proof.
  intros (pieces & Hp & -> & _)%match_here_sound.
  apply Forall2_app_inv_l in Hp as (p1 & p2 & _ & Hp2 & ->).
  inv Hp2. match goal with H : Forall2 _ [] _ |- _ => inv H end.
  match goal with H : Re.conforms _ _ |- _ => destruct H as (c & -> & Hc) end.
  apply N.eqb_eq in Hc as <-. exists (concat p1).
  rewrite concat_app. simpl. by rewrite <- app_assoc.
Qed.

(** A pattern that starts with a literal character finds nothing in a text
    without the character. *)
Lemma scan_first_chr c0 re (full : str → str) bos s :
  Forall (λ c, c ≠ c0) s →
  Re.rebuild full (Re.scan (Re.chr c0 :: re) 0 bos s) = s.
Proof.
  intros Hs. revert bos. induction Hs as [|c s Hc _ IH]; intros bos; [done|].
  cbn [Re.scan Re.match_here Re.chr].
  destruct (N.eqb_spec c0 c) as [->|_]; [done|].
  unfold Re.rebuild. simpl. f_equal. apply IH.
Qed.

Lemma italic_pattern_end :
  re_originally_posted_italic
  = ([Re.chr (ord "_"); Re.Atom false Re.Star Py.isspace]
     ++ Re.ci_lits (py "originally posted")
     ++ [Re.Atom false Re.Star (not_chr "_")])
    ++ [Re.chr (ord "_")].
Proof. unfold re_originally_posted_italic. by rewrite <- !app_assoc. Qed.

(** In front of a text without underscore, the italic annotations are
    erased inside the front part, and the text is left as it is. *)
Lemma scan_italic_prefix b tail skip bos :
  Forall (λ c, c ≠ ord "_") tail → skip ≤ length b →
  ∃ b', Re.rebuild (λ _, [])
          (Re.scan re_originally_posted_italic skip bos (b ++ tail))
        = b' ++ tail
        ∧ b' `sublist_of` b.
Proof.
  intros Htail. revert skip bos.
  induction b as [|c b IH]; intros skip bos Hskip.
  { exists []. split; [|done]. destruct skip; [|simpl in Hskip; lia].
    by apply scan_first_chr. }
  rewrite <- app_comm_cons. cbn [Re.scan]. destruct skip as [|k].
  - destruct (Re.match_here re_originally_posted_italic bos (c :: b ++ tail))
      as [[g r]|] eqn:Hm.
    + assert (∃ k r', r = r' ++ tail ∧ k ≤ length b
                      ∧ length (c :: b ++ tail) - length r = S k)
        as (k & r' & -> & Hk & ->).
      { rewrite italic_pattern_end in Hm.
        apply match_here_last_chr in Hm as [m Hm].
        rewrite app_comm_cons in Hm.
        apply app_eq_inv in Hm as [(x & Hb & Hr)|(x & -> & Hr)].
        - destruct x as [|c' x].
          + simpl in Hr. rewrite <- Hr in Htail. by inv Htail.
          + injection Hr as <- ->. exists (length m), x. split; [done|].
            assert (length (c :: b) = length (m ++ ord "_" :: x)) as Hlen
              by by rewrite Hb.
            rewrite length_app in Hlen. simpl in Hlen. split; [lia|].
            cbn [length]. rewrite !length_app. lia.
        - rewrite Hr in Htail. apply Forall_app in Htail as [_ Htail].
          by inv Htail. }
      destruct (IH k false Hk) as (b' & Hb' & Hsub).
      exists b'. split; [|by apply sublist_cons]. exact Hb'.
    + destruct (IH 0 false ltac:(lia)) as (b' & Hb' & Hsub).
      exists (c :: b'). split; [|by apply sublist_skip].
      unfold Re.rebuild in *. simpl. by rewrite Hb'.
  - destruct (IH k false ltac:(simpl in Hskip; lia)) as (b' & Hb' & Hsub).
    exists b'. split; [done|]. by apply sublist_cons.
Qed.

(** ** The annotation *)

(** A greedy class at the end of a pattern leaves nothing of its own. *)
Lemma match_here_trailing_star_stops re cap cls bos s g r :
  Re.match_here (re ++ [Re.Atom cap Re.Star cls]) bos s = Some (g, r) →
  Re.stops cls r.
Proof.
  revert bos s g.
  induction re as [|[cap' q cls'| |] re IH]; intros bos s g; simpl.
  - rewrite greedy_maximal by (intros; by eexists). intros [= _ <-].
    induction s as [|c' t IHt]; simpl; [done|]. by destruct (cls c') eqn:Hc'.
  - assert (∀ m rest,
              match Re.match_here (re ++ [Re.Atom cap Re.Star cls])
                      (bos && bool_decide (m = [])) rest with
              | Some (g, r) => Some ((if cap' then m else []) ++ g, r)
              | None => None
              end = Some (g, r) → Re.stops cls r) as Hk.
    { intros m rest.
      destruct (Re.match_here _ _ rest) as [[g' r']|] eqn:Hm'; [|done].
      intros [= _ <-]. by eapply IH. }
    destruct q.
    + destruct s as [|c t]; [done|]. destruct (cls' c); [|done]. apply (Hk [c] t).
    + destruct s as [|c t]; [apply (Hk [] [])|].
      destruct (cls' c); [|apply (Hk [] (c :: t))].
      destruct (Re.match_here (re ++ [Re.Atom cap Re.Star cls]) (bos && false) t)
        as [[g1 r1]|] eqn:H1.
      * intros [= _ <-]. by eapply IH.
      * apply (Hk [] (c :: t)).
    + intros (m & rest & -> & _ & Hr)%greedy_sound. by apply (Hk m rest).
    + destruct s as [|c t]; [done|]. destruct (cls' c); [|done].
      intros (m & rest & -> & _ & Hr)%greedy_sound. by apply (Hk (c :: m) rest).
  - destruct bos; [apply IH|done].
  - destruct (Re.at_eol s); [apply IH|done].
Qed.

(** A text that spells the word where the pattern has its letters. *)
Lemma accepts_ci_lits w re bos text rest :
  ci_word w text → Re.accepts re (bos && bool_decide (w = [])) rest →
  Re.accepts (Re.ci_lits w ++ re) bos (text ++ rest).
Proof.
  intros Hw. revert bos.
  induction Hw as [|p c w text Hc _ IH]; intros bos; simpl.
  { by rewrite andb_true_r. }
  rewrite andb_false_r. intros Hrest. exists c, (text ++ rest).
  split; [done|]. split; [done|]. apply IH.
  by destruct (bool_decide (w = [])).
Qed.

(** The characters of a text that spells a word are those the letters of
    the word allow. *)
Lemma ci_word_chars (Q : N → Prop) w text :
  Forall (λ p, ∀ c, Re.ci_eq p c = true → Q c) w → ci_word w text →
  Forall Q text.
Proof.
  intros Hw Htext. revert Hw.
  induction Htext as [|p c w text Hc _ IH]; intros Hw; [done|].
  inv Hw. constructor; auto.
Qed.

Lemma annotation_chars phrase :
  ci_word (py "originally posted") phrase →
  Forall (λ c, c ≠ 10%N ∧ c ≠ ord "_") phrase.
Proof.
  apply ci_word_chars.
  let w := eval vm_compute in (py "originally posted") in
  change (py "originally posted") with w.
  repeat (apply Forall_cons; split;
          [intros c Hc; split; intros ->; by vm_compute in Hc|]).
  apply Forall_nil_2.
Qed.

(** Past the end of the subject the scan finds nothing. *)
Lemma scan_skip_all re skip bos s :
  (∀ bos', Re.match_here re bos' [] = None) → length s ≤ skip →
  Re.scan re skip bos s = [].
Proof.
  intros Hnil. revert skip bos.
  induction s as [|c s IH]; intros skip bos Hskip; simpl.
  - destruct skip; [by rewrite Hnil|done].
  - destruct skip as [|k]; [simpl in Hskip; lia|].
    apply IH. simpl in Hskip. lia.
Qed.

(** From the two words on, a line is erased whole: of a text whose last
    line holds the words, the scan leaves a part of what precedes them. *)
Lemma scan_annotation_prefix b phrase after skip bos :
  ci_word (py "originally posted") phrase →
  Forall (λ c, c ≠ 10%N) after →
  skip ≤ length b ∨ length (b ++ phrase ++ after) ≤ skip →
  Re.rebuild (λ _, [])
    (Re.scan re_originally_posted skip bos (b ++ phrase ++ after))
  `sublist_of` b.
Proof.
  intros Hphrase Hafter.
  assert (Forall (λ c, c ≠ 10%N) (phrase ++ after)) as Htail.
  { apply Forall_app. split; [|done].
    eapply Forall_impl; [by apply annotation_chars|]. by intros c [? _]. }
  assert (∀ bos', is_Some (Re.match_here re_originally_posted bos' (phrase ++ after)))
    as Hfound.
  { intros bos'. apply match_here_accepts, accepts_ci_lits; [done|].
    exists [], after. by split; [|split; [constructor|]]. }
  assert (∀ bos', Re.match_here re_originally_posted bos' [] = None) as Hnil
    by done.
  assert (∀ bos' s g r, Re.match_here re_originally_posted bos' s = Some (g, r) →
                        ∃ m, s = m ++ r ∧ (r = [] ∨ ∃ r', r = 10%N :: r'))
    as Hline.
  { intros bos' s g r Hm.
    pose proof (match_here_trailing_star_stops _ _ _ _ _ _ _ Hm) as Hstop.
    apply match_here_sound in Hm as (pieces & _ & -> & _).
    exists (concat pieces). split; [done|].
    destruct r as [|c r']; [by left|right]. exists r'. f_equal.
    simpl in Hstop. apply negb_false_iff in Hstop. by apply N.eqb_eq in Hstop. }
  assert (phrase ++ after ≠ []) as Hne.
  { inv Hphrase. done. }
  revert Htail Hfound Hne. generalize (phrase ++ after). clear phrase after Hphrase Hafter.
  intros tail Htail Hfound Hne. revert skip bos.
  induction b as [|c b IH]; intros skip bos Hskip.
  - simpl app in *. destruct tail as [|c t]; [done|].
    destruct skip as [|k].
    + cbn [Re.scan]. destruct (Hfound bos) as [[g r] Hm]. rewrite Hm.
      destruct (Hline _ _ _ _ Hm) as (m & Hs & [->|[r' ->]]).
      * cbn [length]. rewrite Nat.sub_0_r.
        rewrite scan_skip_all by done. done.
      * rewrite Hs in Htail. apply Forall_app in Htail as [_ Htail].
        by inv Htail.
    + rewrite scan_skip_all; [done..|]. destruct Hskip as [Hskip|Hskip];
        simpl in Hskip; simpl; lia.
  - rewrite <- app_comm_cons. cbn [Re.scan]. destruct skip as [|k].
    + destruct (Re.match_here re_originally_posted bos (c :: b ++ tail))
        as [[g r]|] eqn:Hm.
      * destruct (length (c :: b ++ tail) - length r) as [|k] eqn:Hlen.
        { unfold Re.rebuild. simpl. apply sublist_skip, (IH 0 false). left. lia. }
        unfold Re.rebuild. simpl. apply sublist_cons, (IH k false).
        destruct (Hline _ _ _ _ Hm) as (m & Hs & Hr).
        rewrite Hs, length_app in Hlen.
        rewrite app_comm_cons in Hs.
        apply app_eq_inv in Hs as [(x & Hb & _)|(x & -> & Ht)].
        -- left. apply (f_equal length) in Hb. rewrite length_app in Hb.
           simpl in Hb. lia.
        -- destruct Hr as [->|[r' ->]].
           ++ right. rewrite app_nil_r in Ht. subst x.
              rewrite length_app in Hlen. simpl in Hlen.
              rewrite length_app. lia.
           ++ rewrite Ht in Htail. apply Forall_app in Htail as [_ Htail].
              by inv Htail.
      * unfold Re.rebuild. simpl. apply sublist_skip, (IH 0 false). left. lia.
    + apply sublist_cons, (IH k false).
      destruct Hskip as [Hskip|Hskip]; simpl in Hskip; [left|right]; lia.
Qed.

(** ** What follows the two words is not counted *)

Lemma link_text_before (b phrase after : str) :
  ci_word (py "originally posted") phrase →
  Forall (λ c, c ≠ 10%N ∧ c ≠ ord "_") after →
  length (link_text (b ++ phrase ++ after)) ≤ length (without_glyphs b).
Proof.
  intros Hphrase Hafter. unfold link_text.
  etrans; [apply strip_length|]. apply strip_emojis_bound.
  change (Re.sub re_originally_posted_italic (λ _, []) (b ++ phrase ++ after))
    with (Re.rebuild (λ _, [])
            (Re.scan re_originally_posted_italic 0 true (b ++ phrase ++ after))).
  destruct (scan_italic_prefix b (phrase ++ after) 0 true) as (b' & -> & Hsub).
  { apply Forall_app. split.
    - eapply Forall_impl; [by apply annotation_chars|]. by intros c [_ ?].
    - eapply Forall_impl; [exact Hafter|]. by intros c [_ ?]. }
  { lia. }
  etrans; [|exact Hsub].
  apply (scan_annotation_prefix b' phrase after 0 true); [done| |left; lia].
  eapply Forall_impl; [exact Hafter|]. by intros c [? _].
Qed.

(** C7. The override does not tell the annotation from prose that uses
    its two words.  Take a root whose normalized body starts with the
    reading-note glyph, and whose body, leading whitespace apart, holds the
    words "originally posted" (in any case) with the rest of a line, free of
    underscores, after them.  When fewer than 100 characters other than
    marker glyphs stand before the words, the root is typed [link], however
    much prose follows the words: [is_link_only] erases the line from the
    words on, wherever they stand, and counts what is left. *)
Theorem annotation_erases_line (msg : RawMessage) (before phrase after : str) :
  Py.startswith (normalized_body msg) (py "📥") = true →
  Py.lstrip (get_message_content msg).1 = before ++ phrase ++ after →
  ci_word (py "originally posted") phrase →
  Forall (λ c, c ≠ 10%N ∧ c ≠ ord "_") after →
  length (without_glyphs before) < 100 →
  get_message_type msg false = py "link".
Proof.
  intros Hstart Hbody Hphrase Hafter Hshort. unfold get_message_type.
  rewrite (type_of_emoji_unique _ _ _ (py "📥") (py "journal")).
  - rewrite Hbody.
    assert (is_link_only (before ++ phrase ++ after) = true) as ->; [|done].
    rewrite is_link_only_eq. apply orb_true_iff. right. apply Nat.ltb_lt.
    pose proof (prose_of_length (link_text (before ++ phrase ++ after))).
    pose proof (link_text_before before phrase after Hphrase Hafter). lia.
  - by left.
  - done.
  - intros g' t' Hin' Hs'.
    apply (glyphs_apart (normalized_body msg) (py "📥") (py "journal") g');
      [by left|done..].
Qed.

(** * The quality gate, and the gate after the merge

    The properties below are stated for any Unicode tables. *)
Section Gate.

Variable uni_isalnum : N → bool.
Variable uni_lower : list N → list N.
Variable uni_isalpha : N → bool.

Set Default Proof Using "Type".

Local Abbreviation to_minimal_message := (to_minimal_message uni_isalnum uni_lower).
Local Abbreviation minimal_new_of := (minimal_new_of uni_isalnum uni_lower).
Local Abbreviation process_messages := (process_messages uni_isalnum uni_lower).
Local Abbreviation isalpha := (ValidateExport.isalpha uni_isalpha).
Local Abbreviation validate_message := (ValidateExport.validate_message uni_isalpha).
Local Abbreviation issues_of := (ValidateExport.issues_of uni_isalpha).
Local Abbreviation flagged_item := (ValidateExport.flagged_item uni_isalpha).
Local Abbreviation validate_step := (ValidateExport.validate_step uni_isalpha).
Local Abbreviation validate_export := (ValidateExport.validate_export uni_isalpha).
Local Abbreviation gated := (ValidateExport.gated uni_isalpha).

(** ** The validation loop *)

Lemma filter_all {A} (P : A → Prop) `{!∀ x, Decision (P x)} (l : list A) :
  (∀ x, x ∈ l → P x) → filter P l = l.
Proof.
  induction l as [|x l IH]; intros Hall; [done|].
  rewrite filter_cons_True by (apply Hall; by left).
  f_equal. apply IH. intros y Hy. apply Hall. by right.
Qed.

Lemma fold_validate_step l st :
  foldl validate_step st l
  = (st.1 ++ filter (λ m, issues_of m = []) l,
     st.2 ++ (flagged_item <$> filter (λ m, issues_of m ≠ []) l)).
Proof.
  revert st. induction l as [|m l IH]; intros [valid flagged]; simpl.
  { by rewrite !app_nil_r. }
  rewrite IH. unfold ValidateExport.validate_step.
  destruct (issues_of m) as [|i rest] eqn:Hm; simpl.
  - rewrite filter_cons_True by done. rewrite filter_cons_False by (by intros []).
    by rewrite <- app_assoc.
  - rewrite filter_cons_False by by rewrite Hm.
    rewrite filter_cons_True by by rewrite Hm.
    by rewrite fmap_cons, <- app_assoc.
Qed.

Lemma validate_export_eq data :
  validate_export data
  = (filter (λ m, issues_of m = []) (messages data),
     flagged_item <$> filter (λ m, issues_of m ≠ []) (messages data)).
Proof. unfold ValidateExport.validate_export. by rewrite fold_validate_step. Qed.

Lemma issues_of_reply m : field_truthy (mm_parent_id m) = true → issues_of m = [].
Proof.
  intros Hp. unfold ValidateExport.issues_of, ValidateExport.validate_message,
    is_root_record.
  by rewrite Hp.
Qed.

(** The document the gate leaves. *)
Lemma gated_eq data :
  gated data
  = match filter (λ m, issues_of m ≠ []) (messages data) with
    | [] => data
    | _ :: _ =>
        {| messages := filter (λ m, issues_of m = []) (messages data);
           processed_ids :=
             filter (λ i, i ∉@{gset str}
                            list_to_set
                              (mm_id <$> filter (λ m, issues_of m ≠ [])
                                           (messages data)))
               (processed_ids data);
           last_processed_ts := last_processed_ts data |}
    end.
Proof.
  unfold ValidateExport.gated, ValidateExport.main. rewrite validate_export_eq.
  destruct (filter (λ m, issues_of m ≠ []) (messages data)) as [|m l] eqn:Hf;
    [done|].
  rewrite fmap_cons. cbn [fst snd].
  by rewrite <- (fmap_cons flagged_item), <- list_fmap_compose.
Qed.

Lemma gated_messages data :
  messages (gated data) = filter (λ m, issues_of m = []) (messages data).
Proof.
  rewrite gated_eq.
  destruct (filter (λ m, issues_of m ≠ []) (messages data)) as [|m l] eqn:Hf;
    [|done].
  symmetry. apply filter_all.
  intros m Hm. destruct (decide (issues_of m = [])) as [?|Hbad]; [done|].
  assert (m ∈ filter (λ m, issues_of m ≠ []) (messages data)) as Hin
    by by apply list_elem_of_filter.
  rewrite Hf in Hin. inv Hin.
Qed.

Lemma gated_clean data m : m ∈ messages (gated data) → issues_of m = [].
Proof. rewrite gated_messages. by intros [? _]%list_elem_of_filter. Qed.

Lemma gated_processed_ids data e :
  e ∈ processed_ids (gated data)
  ↔ e ∈ processed_ids data
    ∧ ¬ ∃ m, m ∈ messages data ∧ issues_of m ≠ [] ∧ mm_id m = e.
Proof.
  rewrite gated_eq.
  destruct (filter (λ m, issues_of m ≠ []) (messages data)) as [|m0 l] eqn:Hf.
  - split; [|by intros [? _]]. intros He. split; [done|].
    intros (m & Hm & Hbad & _).
    assert (m ∈ filter (λ m, issues_of m ≠ []) (messages data)) as Hin
      by by apply list_elem_of_filter.
    rewrite Hf in Hin. inv Hin.
  - cbn [processed_ids].
    rewrite list_elem_of_filter, <- Hf, elem_of_list_to_set, list_elem_of_fmap.
    split.
    + intros [Hno He]. split; [done|].
      intros (m & Hm & Hbad & Hid). apply Hno. exists m. split; [done|].
      by apply list_elem_of_filter.
    + intros [He Hno]. split; [|done].
      intros (m & Hid & [Hbad Hm]%list_elem_of_filter). apply Hno. by exists m.
Qed.

Lemma StronglySorted_sublist {A} (R : relation A) l k :
  l `sublist_of` k → StronglySorted R k → StronglySorted R l.
Proof.
  induction 1 as [|x l k Hsub IH|x l k Hsub IH]; intros Hk.
  - constructor.
  - apply StronglySorted_inv in Hk as [Hk Hx].
    constructor; [by apply IH|].
    rewrite Forall_forall in Hx |- *. intros y Hy. apply Hx.
    by eapply elem_of_sublist.
  - apply StronglySorted_inv in Hk as [Hk _]. by apply IH.
Qed.

Lemma Sorted_sublist {A} (R : relation A) `{!Transitive R} l k :
  l `sublist_of` k → Sorted R k → Sorted R l.
Proof.
  intros Hsub Hk. apply StronglySorted_Sorted.
  eapply StronglySorted_sublist; [done|]. by apply Sorted_StronglySorted.
Qed.

Lemma gated_messages_sublist data : messages (gated data) `sublist_of` messages data.
Proof. rewrite gated_messages. apply sublist_filter. Qed.

Lemma gated_processed_sublist data :
  processed_ids (gated data) `sublist_of` processed_ids data.
Proof.
  rewrite gated_eq. destruct (filter _ (messages data)); [done|].
  apply sublist_filter.
Qed.

(** X16: the validator splits the records in two: [valid] holds, in their
    order, the records without issue, and the report lists, in their
    order, the others, each with its issues and a preview of at most 120
    characters without a newline.  The counts of the report add up to the
    number of records, and a reply is never flagged. *)
Theorem validate_export_partition (data : ExportState) :
  (validate_export data).1 = filter (λ m, issues_of m = []) (messages data)
  ∧ f_id <$> (validate_export data).2
    = mm_id <$> filter (λ m, issues_of m ≠ []) (messages data)
  ∧ f_issues <$> (validate_export data).2
    = issues_of <$> filter (λ m, issues_of m ≠ []) (messages data)
  ∧ Forall (λ f, length (f_body_preview f) ≤ 120 ∧ 10%N ∉ f_body_preview f)
      (validate_export data).2
  ∧ rep_total (ValidateExport.main uni_isalpha data).1.1 = length (messages data)
  ∧ rep_valid_count (ValidateExport.main uni_isalpha data).1.1
    + rep_flagged_count (ValidateExport.main uni_isalpha data).1.1
    = length (messages data)
  ∧ ∀ m, m ∈ messages data → field_truthy (mm_parent_id m) = true →
         m ∈ (validate_export data).1 ∧ m ∈ messages (gated data).
Proof.
  assert (length (filter (λ m, issues_of m = []) (messages data))
          + length (flagged_item
                      <$> filter (λ m, issues_of m ≠ []) (messages data))
          = length (messages data)) as Hlen.
  { rewrite length_fmap, <- length_app.
    by rewrite (filter_app_complement (λ m, issues_of m = [])). }
  rewrite validate_export_eq. simpl.
  split; [done|]. split; [by rewrite <- list_fmap_compose|].
  split; [by rewrite <- list_fmap_compose|].
  split.
  { apply Forall_fmap, Forall_forall. intros m _. simpl.
    unfold ValidateExport.body_preview. split; [|apply one_line_no_newline].
    rewrite one_line_length, length_take. lia. }
  unfold ValidateExport.main. rewrite validate_export_eq.
  split; [|split].
  - by destruct (flagged_item <$> _).
  - by destruct (flagged_item <$> _).
  - intros m Hm Hp. rewrite gated_messages.
    split; apply list_elem_of_filter; split; by try apply issues_of_reply.
Qed.

(** X17: the gate has nothing to say about the document it leaves: a
    second validation flags no record, leaves the document as it is and
    exits with status 0; and the first one exits with status 0 exactly
    when no record has an issue, with status 1 otherwise. *)
Theorem gate_idempotent (data : ExportState) :
  validate_export (gated data) = (messages (gated data), [])
  ∧ gated (gated data) = gated data
  ∧ (ValidateExport.main uni_isalpha (gated data)).2 = 0%Z
  ∧ ((ValidateExport.main uni_isalpha data).2 = 0%Z
     ↔ ∀ m, m ∈ messages data → issues_of m = [])
  ∧ ((ValidateExport.main uni_isalpha data).2 = 0%Z
     ∨ (ValidateExport.main uni_isalpha data).2 = 1%Z).
Proof.
  assert (filter (λ m, issues_of m ≠ []) (messages (gated data)) = []) as Hnone.
  { apply elem_of_nil_inv. intros m [Hbad Hm%gated_clean]%list_elem_of_filter. done. }
  assert (filter (λ m, issues_of m = []) (messages (gated data))
          = messages (gated data)) as Hall.
  { apply filter_all. intros m Hm. by apply gated_clean in Hm. }
  split; [|split; [|split; [|split]]].
  - by rewrite validate_export_eq, Hnone, Hall.
  - by rewrite (gated_eq (gated data)), Hnone.
  - unfold ValidateExport.main. by rewrite validate_export_eq, Hnone.
  - unfold ValidateExport.main. rewrite validate_export_eq.
    destruct (filter (λ m, issues_of m ≠ []) (messages data)) as [|m0 l] eqn:Hf;
      simpl.
    + split; [|done]. intros _ m Hm.
      destruct (decide (issues_of m = [])) as [?|Hbad]; [done|].
      assert (m ∈ filter (λ m, issues_of m ≠ []) (messages data)) as Hin
        by by apply list_elem_of_filter.
      rewrite Hf in Hin. inv Hin.
    + split; [done|]. intros Hclean.
      assert (m0 ∈ filter (λ m, issues_of m ≠ []) (messages data)) as Hin
        by (rewrite Hf; by left).
      apply list_elem_of_filter in Hin as [Hbad Hm0]. by apply Hclean in Hm0.
  - unfold ValidateExport.main. rewrite validate_export_eq.
    destruct (flagged_item <$> _); [by left|by right].
Qed.

(** X18: the gate only removes.  The records and the processed ids it
    leaves are sublists of those it found and the mark is untouched, so a
    document in timestamp order, or with its id list in order or without
    duplicates, stays so; and when the records have distinct ids and the
    processed ids are the ids of the records, this is still so of the
    document the gate leaves. *)
Theorem gate_only_removes (data : ExportState) :
  messages (gated data) `sublist_of` messages data
  ∧ processed_ids (gated data) `sublist_of` processed_ids data
  ∧ last_processed_ts (gated data) = last_processed_ts data
  ∧ (sorted_by min_ts (messages data) → sorted_by min_ts (messages (gated data)))
  ∧ (Sorted str_le (processed_ids data) → Sorted str_le (processed_ids (gated data)))
  ∧ (NoDup (processed_ids data) → NoDup (processed_ids (gated data)))
  ∧ (NoDup (mm_id <$> messages data) →
     (∀ e, e ∈ processed_ids data ↔ ∃ r, r ∈ messages data ∧ mm_id r = e) →
     NoDup (mm_id <$> messages (gated data))
     ∧ ∀ e, e ∈ processed_ids (gated data)
            ↔ ∃ r, r ∈ messages (gated data) ∧ mm_id r = e).
Proof.
  split; [apply gated_messages_sublist|].
  split; [apply gated_processed_sublist|].
  split; [rewrite gated_eq; by destruct (filter _ (messages data))|].
  split; [|split; [|split]].
  - apply Sorted_sublist; [intros x y z; lia|apply gated_messages_sublist].
  - apply Sorted_sublist; [apply _|apply gated_processed_sublist].
  - intros Hnd. eapply sublist_NoDup; [exact Hnd|apply gated_processed_sublist].
  - intros Hnd Hids. split.
    + eapply sublist_NoDup; [exact Hnd|].
      apply fmap_sublist, gated_messages_sublist.
    + intros e. rewrite gated_processed_ids, Hids. split.
      * intros [(r & Hr & Hid) Hno]. exists r. split; [|done].
        rewrite gated_messages. apply list_elem_of_filter. split; [|done].
        destruct (decide (issues_of r = [])) as [?|Hbad]; [done|].
        destruct Hno. by exists r.
      * intros (r & Hr & Hid). pose proof Hr as Hclean%gated_clean.
        rewrite gated_messages in Hr. apply list_elem_of_filter in Hr as [_ Hr].
        split; [by exists r|]. intros (m & Hm & Hbad & Hid').
        assert (m = r) as ->; [|done].
        apply (fmap_injective_on mm_id (messages data)); [done..|congruence].
Qed.

(** ** What the checks let through *)

Lemma contains_spec s sub :
  Str.contains s sub = true ↔ ∃ pre post, s = pre ++ sub ++ post.
Proof.
  induction s as [|c s IH]; cbn [Str.contains].
  - rewrite orb_false_r, startswith_spec. split.
    + intros [rest Hs]. by exists [], rest.
    + intros (pre & post & Hs). destruct pre; [by exists post|done].
  - rewrite orb_true_iff, startswith_spec, IH. split.
    + intros [[rest Hs]|(pre & post & Hs)]; [by exists [], rest|].
      exists (c :: pre), post. by rewrite Hs.
    + intros ([|c' pre] & post & Hs); [left; by exists post|].
      right. exists pre, post. by injection Hs.
Qed.

(** A body that holds a URL scheme holds a letter. *)
Lemma has_url_isalpha body :
  ValidateExport.has_url body = true → existsb isalpha body = true.
Proof.
  intros Hurl. apply existsb_exists. exists 104%N. split; [|done].
  apply list_elem_of_In.
  apply orb_true_iff in Hurl as [Hurl|Hurl];
    apply contains_spec in Hurl as (pre & post & ->);
    apply elem_of_app; right; apply elem_of_app; left; by left.
Qed.

(** X19: what the content checks let through.  A root whose stripped body
    holds a URL scheme, or has 100 characters or more, can only be flagged
    for its encoding (a replacement character, or a final backslash); a
    root whose stripped body is empty is flagged as [empty_or_minimal] and
    nothing else; a reply is never flagged. *)
Theorem content_checks (m : MinimalMessage) :
  let body := Py.strip (mm_body m) in
  (ValidateExport.has_url body = true ∨ 100 ≤ length body →
   validate_message m true
   = if Str.contains body [REPLACEMENT_CHARACTER]
        || Str.endswith_char body BACKSLASH
     then [py "possible_encoding_issue"] else [])
  ∧ (body = [] → validate_message m true = [py "empty_or_minimal"])
  ∧ validate_message m false = [].
Proof.
  intros body. split; [|split; [|done]].
  - intros Hbody. unfold ValidateExport.validate_message. fold body.
    assert ((length body <? 25) && negb (ValidateExport.has_url body) = false) as ->.
    { destruct Hbody as [->|Hlen]; [apply andb_false_r|].
      apply andb_false_iff. left. apply Nat.ltb_ge. lia. }
    assert ((0 <? length body) && (length body <? 100)
            && negb (existsb isalpha body) = false) as ->; [|done].
    destruct Hbody as [Hurl|Hlen].
    + rewrite (has_url_isalpha body Hurl). apply andb_false_r.
    + apply andb_false_iff. left. apply andb_false_iff. right.
      apply Nat.ltb_ge. lia.
  - intros Hempty. unfold ValidateExport.validate_message. fold body.
    by rewrite Hempty.
Qed.

(** ** The gate after the merge *)

(** X20: the exclusion of a root by the gate lasts until the next export.
    When the record of a root candidate of the batch is flagged, the gate
    takes the record and its id out of the document; merging the same
    batch into the document the gate left puts the very same record, and
    its id, back. *)
Theorem flagged_root_returns (batch : list RawMessage) (prior : option ExportState)
    (m : RawMessage) :
  let S := process_messages batch prior in
  let r := to_minimal_message m false (build_edit_map batch) in
  m ∈ batch → is_category_post m = true → m_event_id m ≠ [] →
  r ∈ messages S →
  issues_of r ≠ [] →
  (r ∉ messages (gated S))
  ∧ (m_event_id m ∉ processed_ids (gated S))
  ∧ r ∈ messages (process_messages batch (Some (gated S)))
  ∧ m_event_id m ∈ processed_ids (process_messages batch (Some (gated S))).
Proof.
  intros S r Hm Hcat Hne Hr Hbad.
  assert (mm_id r = m_event_id m) as Hid by apply to_minimal_message_id.
  assert (m_event_id m ∉ processed_ids (gated S)) as Hgone.
  { intros [_ Hno]%gated_processed_ids. apply Hno. by exists r. }
  split; [by intros ?%gated_clean|]. split; [done|].
  set (N2 := new_only_of batch (Some (gated S))).
  set (R2 := category_root_ids_of (existing_root_ids_of (Some (gated S))) N2).
  assert (m ∈ N2) as HmN.
  { apply elem_of_new_only. split; [done|]. simpl. by rewrite elem_of_list_to_set. }
  assert (m_event_id m ∈ R2) as Hroot.
  { apply elem_of_category_root_ids. right. by exists m. }
  assert (m_event_id m ∈ keep_ids_of R2 N2) as Hkeep by by apply keep_ids_roots.
  split; [|by apply keep_ids_processed].
  rewrite messages_perm. apply elem_of_app. right.
  apply elem_of_minimal_new. exists m. split; [by apply elem_of_kept|].
  fold N2 R2. by rewrite bool_decide_true.
Qed.

End Gate.

(** * The bot: what it hands to the merge *)

(** ** The merge reads four things of an event *)

Lemma foldl_fmap_same {A B} (f : A → B → A) (g : B → B) a l :
  (∀ a x, f a (g x) = f a x) → foldl f a (g <$> l) = foldl f a l.
Proof.
  intros Hf. revert a. induction l as [|x l IH]; intros a; [done|].
  simpl. by rewrite Hf, IH.
Qed.

Lemma filter_fmap {A B} (f : A → B) (P : B → Prop) `{!∀ x, Decision (P x)}
    (l : list A) :
  filter P (f <$> l) = f <$> filter (λ x, P (f x)) l.
Proof.
  induction l as [|x l IH]; [done|].
  rewrite fmap_cons. destruct (decide (P (f x))).
  - rewrite !filter_cons_True by done. by rewrite fmap_cons, IH.
  - by rewrite !filter_cons_False.
Qed.

Lemma insert_by_fmap {A B} (f : A → B) (key : B → Z) x l :
  insert_by key (f x) (f <$> l) = f <$> insert_by (λ y, key (f y)) x l.
Proof.
  induction l as [|y l IH]; [done|]. rewrite fmap_cons. cbn [insert_by].
  destruct (key (f x) <=? key (f y))%Z; [by rewrite !fmap_cons|].
  by rewrite IH, fmap_cons.
Qed.

Lemma sort_by_fmap {A B} (f : A → B) (key : B → Z) l :
  sort_by key (f <$> l) = f <$> sort_by (λ y, key (f y)) l.
Proof.
  induction l as [|x l IH]; [done|]. rewrite fmap_cons. cbn [sort_by].
  by rewrite IH, insert_by_fmap.
Qed.

Lemma closure_loop_filled fuel N K :
  closure_loop fuel (filled <$> N) K = closure_loop fuel N K.
Proof.
  revert K. induction fuel as [|fuel IH]; intros K; [done|].
  cbn [closure_loop]. unfold closure_pass.
  rewrite (foldl_fmap_same closure_step filled) by done.
  destruct (foldl closure_step (K, false) N) as [K' [|]]; [apply IH|done].
Qed.

Lemma keep_ids_filled R N : keep_ids_of R (filled <$> N) = keep_ids_of R N.
Proof.
  unfold keep_ids_of, thread_closure.
  rewrite (foldl_fmap_same (child_step R) filled) by done.
  by rewrite length_fmap, closure_loop_filled.
Qed.

Lemma kept_filled K N : kept_of K (filled <$> N) = filled <$> kept_of K N.
Proof. unfold kept_of. by rewrite filter_fmap, sort_by_fmap. Qed.

Lemma new_only_filled batch prior :
  new_only_of (filled <$> batch) prior = filled <$> new_only_of batch prior.
Proof. destruct prior; [|done]. unfold new_only_of. by rewrite filter_fmap. Qed.

Section Bot.

Variable uni_isalnum : N → bool.
Variable uni_lower : list N → list N.

Set Default Proof Using "Type".

Local Abbreviation to_minimal_message := (to_minimal_message uni_isalnum uni_lower).
Local Abbreviation minimal_new_of := (minimal_new_of uni_isalnum uni_lower).
Local Abbreviation process_messages := (process_messages uni_isalnum uni_lower).

Lemma minimal_new_filled R em kept :
  minimal_new_of R em (filled <$> kept) = minimal_new_of R em kept.
Proof.
  unfold minimal_new_of. rewrite <- list_fmap_compose.
  by apply list_fmap_ext.
Qed.

Lemma raw_ts_filled (kept : list RawMessage) :
  raw_ts <$> (filled <$> kept) = raw_ts <$> kept.
Proof. rewrite <- list_fmap_compose. by apply list_fmap_ext. Qed.

Lemma process_messages_filled batch prior :
  process_messages (filled <$> batch) prior = process_messages batch prior.
Proof.
  rewrite !process_messages_unfold. cbv zeta.
  rewrite new_only_filled.
  unfold category_root_ids_of, build_edit_map.
  rewrite (foldl_fmap_same root_step filled) by done.
  rewrite (foldl_fmap_same edit_step filled) by done.
  fold (category_root_ids_of (existing_root_ids_of prior) (new_only_of batch prior)).
  fold (build_edit_map batch).
  by rewrite keep_ids_filled, kept_filled, minimal_new_filled, raw_ts_filled.
Qed.

Lemma event_to_message_filled ev :
  ev_type ev ≠ Absent → filled (event_to_message ev) = filled (raw_message ev).
Proof.
  intros Htype. destruct ev as [[| |t] id [| |ts] [| |c]]; done.
Qed.

(** X21: wrapping the events of the client in [event_to_message] changes
    nothing to the export: for events that have a [type] key, the merge of
    the wrapped events is the merge of the events themselves, read as
    [export.py] reads the events of an export file. *)
Theorem event_to_message_transparent (events : list ClientEvent)
    (prior : option ExportState) :
  Forall (λ ev, ev_type ev ≠ Absent) events →
  process_messages (event_to_message <$> events) prior
  = process_messages (raw_message <$> events) prior.
Proof.
  intros Htypes.
  rewrite <- (process_messages_filled (event_to_message <$> events)).
  rewrite <- (process_messages_filled (raw_message <$> events)).
  f_equal. rewrite <- !list_fmap_compose.
  apply Forall_fmap_ext_1. eapply Forall_impl; [exact Htypes|].
  intros ev Hev. by apply event_to_message_filled.
Qed.

(** ** The history the bot fetches *)

Lemma fetch_loop_stops pages stop rest messages :
  Forall (λ resp, goes_on resp = true) pages → goes_on stop = false →
  fetch_loop (pages ++ stop :: rest) messages
  = Some (messages
          ++ (event_to_message
                <$> filter (λ ev, is_text_event ev = true)
                      (concat (chunk_of <$> pages ++ [stop])))).
Proof.
  intros Hpages Hstop. revert messages.
  induction Hpages as [|resp pages Hresp _ IH]; intros messages.
  - simpl. rewrite app_nil_r.
    destruct stop as [| |[|ev chunk] end_token]; simpl;
      rewrite ?app_nil_r; try done.
    simpl in Hstop. by rewrite Hstop.
  - destruct resp as [| |[|ev chunk] end_token]; try done.
    simpl in Hresp. cbn [app fetch_loop]. rewrite Hresp, IH.
    rewrite <- app_assoc. do 2 f_equal.
    rewrite fmap_cons, concat_cons. cbn [chunk_of].
    by rewrite filter_app, (fmap_app event_to_message).
Qed.

Lemma fetch_loop_waits pages messages :
  Forall (λ resp, goes_on resp = true) pages → fetch_loop pages messages = None.
Proof.
  intros Hpages. revert messages.
  induction Hpages as [|resp pages Hresp _ IH]; intros messages; [done|].
  destruct resp as [| |[|ev chunk] end_token]; try done.
  simpl in Hresp. cbn [fetch_loop]. by rewrite Hresp, IH.
Qed.

(** X22: the history the bot fetches.  The loop reads the answers of the
    server up to the first one that is an error, is not a page, brings an
    empty page or brings no token for a next page, and nothing after it;
    what it returns is made of the text events of the pages read, that of
    the last answer included, wrapped by [event_to_message], in ascending
    order of timestamp.  An error does not discard the pages read before
    it.  As long as every answer is a non-empty page with a token, the
    loop goes on. *)
Theorem fetch_reads_pages (pages : list Response) (stop : Response)
    (rest : list Response) :
  Forall (λ resp, goes_on resp = true) pages →
  goes_on stop = false →
  let taken := filter (λ ev, is_text_event ev = true)
                 (concat (chunk_of <$> pages ++ [stop])) in
  fetch_room_messages (pages ++ stop :: rest)
  = Some (sort_by raw_ts (event_to_message <$> taken))
  ∧ sorted_by raw_ts (sort_by raw_ts (event_to_message <$> taken))
  ∧ sort_by raw_ts (event_to_message <$> taken) ≡ₚ event_to_message <$> taken
  ∧ Forall (λ m, m_type m = Some M_ROOM_MESSAGE) (event_to_message <$> taken)
  ∧ fetch_room_messages pages = None.
Proof.
  intros Hpages Hstop taken. split; [|split; [|split; [|split]]].
  - unfold fetch_room_messages. by rewrite fetch_loop_stops.
  - apply sort_by_sorted.
  - apply sort_by_perm.
  - apply Forall_fmap, Forall_forall.
    intros ev [Htext _]%list_elem_of_filter. simpl.
    unfold is_text_event in Htext. apply bool_decide_eq_true in Htext.
    by destruct (ev_type ev).
  - unfold fetch_room_messages. by rewrite fetch_loop_waits.
Qed.

End Bot.

(** ** The properties at work on sample batches *)

Local Abbreviation run := (process_messages ascii_isalnum_only ascii_lower_only).
Local Abbreviation record := (to_minimal_message ascii_isalnum_only ascii_lower_only).

(** C1: a glyph-prefixed direct reply passes the root-candidate test. *)
Lemma glyph_reply_is_root_candidate :
  is_category_post glyph_reply = true
  ∧ get_parent_id glyph_reply = Some (py "$parent").
Proof. split; reflexivity. Defined.

(** C1: and the merge emits it as a root. *)
Lemma root_candidate_gating_witness :
  ∃ r, r ∈ messages (run [glyph_reply] None)
       ∧ r = record glyph_reply false (build_edit_map [glyph_reply])
       ∧ mm_parent_id r = Null
       ∧ mm_type r ≠ py "reply".
Proof.
  apply (proj2 (root_candidate_gating ascii_isalnum_only ascii_lower_only glyph_reply)
           [glyph_reply] None).
  - reflexivity.
  - discriminate.
  - by_computation.
Defined.

(** C2: merging the chain batch twice. *)
Lemma merge_idempotent_witness :
  run chain_batch (Some (run chain_batch None)) = run chain_batch None
  ∧ messages (run chain_batch (Some (run chain_batch None)))
    = messages (run chain_batch None)
  ∧ processed_ids (run chain_batch (Some (run chain_batch None)))
    = processed_ids (run chain_batch None)
  ∧ last_processed_ts (run chain_batch (Some (run chain_batch None)))
    = last_processed_ts (run chain_batch None).
Proof.
  apply (proj1 (merge_idempotent ascii_isalnum_only ascii_lower_only
                  chain_batch None (run chain_batch None) eq_refl)).
  apply (bool_decide_unpack (set_Forall _ _)). vm_compute. exact I.
Defined.

(** C3: the persisted record of [$A] survives the merge of its edit. *)
Lemma prior_records_unchanged_witness :
  let prior := run [text_message "$A" 1 "💡 draft" None] None in
  let r := record (text_message "$A" 1 "💡 draft" None) false ∅ in
  mm_body r = py "💡 draft"
  ∧ r ∈ messages (run draft_batch (Some prior))
  ∧ (∃ built, messages (run draft_batch (Some prior)) ≡ₚ messages prior ++ built)
  ∧ ∀ r', r' ∈ messages (run draft_batch (Some prior)) →
          mm_id r' ∈ processed_ids prior → r' ∈ messages prior.
Proof.
  intros prior r. split; [reflexivity|].
  apply (prior_records_unchanged ascii_isalnum_only ascii_lower_only draft_batch prior r).
  by_computation.
Defined.

(** C4: the third reply of the chain is kept. *)
Lemma closure_correct_witness :
  py "$r3" ∈ keep_ids_of {[py "$root"]} chain_batch.
Proof.
  apply (proj1 (proj2 (closure_correct ascii_isalnum_only ascii_lower_only
                         {[py "$root"]} chain_batch))
           (py "$root")
           [text_message "$r1" 2 "first" (in_thread "$root");
            text_message "$r2" 3 "second" (in_reply_to "$r1");
            text_message "$r3" 4 "third" (in_reply_to "$r2")]
           (text_message "$r3" 4 "third" (in_reply_to "$r2"))).
  - by_computation.
  - by_computation.
  - vm_compute. repeat split; discriminate.
  - by_computation.
Defined.

(** C5: the record of the root of the chain batch. *)
Lemma output_field_presence_witness :
  ∃ m, m ∈ new_only_of chain_batch None
       ∧ record (text_message "$root" 1 "❓ who knows" None) false ∅
         = record m
             (negb (bool_decide
                      (m_event_id m
                       ∈ category_root_ids_of (existing_root_ids_of None)
                           (new_only_of chain_batch None))))
             (build_edit_map chain_batch)
       ∧ mm_parent_id (record (text_message "$root" 1 "❓ who knows" None) false ∅)
         ≠ Absent
       ∧ mm_parent_id (record (text_message "$root" 1 "❓ who knows" None) false ∅)
         = (if bool_decide
                 (m_event_id m
                  ∈ category_root_ids_of (existing_root_ids_of None)
                      (new_only_of chain_batch None))
            then Null
            else match get_parent_id m with Some p => Val p | None => Null end)
       ∧ mm_keywords (record (text_message "$root" 1 "❓ who knows" None) false ∅)
         = (if bool_decide
                 (m_event_id m
                  ∈ category_root_ids_of (existing_root_ids_of None)
                      (new_only_of chain_batch None))
            then match extract_keywords ascii_isalnum_only ascii_lower_only
                         (mm_body (record (text_message "$root" 1 "❓ who knows" None)
                                     false ∅)) with
                 | [] => None
                 | kw => Some kw
                 end
            else None).
Proof.
  apply (output_field_presence ascii_isalnum_only ascii_lower_only chain_batch None).
  by_computation.
Defined.

(** C5: the claim as stated fails: the record of a root holds [parent_id],
    with a null value. *)
Lemma root_record_has_parent_id_key :
  ¬ ∀ uni_isalnum uni_lower r,
      r ∈ messages (process_messages uni_isalnum uni_lower chain_batch None) →
      mm_type r ≠ py "reply" → mm_parent_id r = Absent.
Proof.
  intros Hclaim.
  specialize (Hclaim ascii_isalnum_only ascii_lower_only
                (record (text_message "$root" 1 "❓ who knows" None) false ∅)).
  discriminate Hclaim; [by_computation|by_computation].
Defined.

(** C8: root [$A] with a draft body and a later edit to "final". *)
Lemma edit_resolution_witness :
  build_edit_map draft_batch !! py "$A" = Some (py "final", [])
  ∧ ∃ r, r ∈ messages (run draft_batch None)
         ∧ mm_id r = py "$A"
         ∧ mm_ts r = Some 1%Z
         ∧ mm_body r = py "final"
         ∧ mm_formatted_body r = None.
Proof.
  apply (edit_resolution ascii_isalnum_only ascii_lower_only
           [text_message "$A" 1 "💡 draft" None] []
           (edit_message "$edit" 2 "$A" "final") None
           (text_message "$A" 1 "💡 draft" None)).
  - vm_compute. repeat split; discriminate.
  - intros e' He'. inversion He'.
  - by_computation.
  - by_computation.
Defined.

(** C7: the reading note of 190 characters whose first sentence holds
    the two words of the annotation.  What follows them, 169 characters of
    prose, is not counted. *)
Lemma annotation_erases_line_witness :
  get_message_content reposted_note
  = (py "📥 I " ++ py "originally posted"
       ++ py " this elsewhere, but the argument deserves repeating in full: incentives shape behaviour far more than rules do, and the paper shows it with three careful field studies.",
     [])
  ∧ length (py " this elsewhere, but the argument deserves repeating in full: incentives shape behaviour far more than rules do, and the paper shows it with three careful field studies.") = 169
  ∧ get_message_type reposted_note false = py "link".
Proof.
  split; [by vm_compute|]. split; [by vm_compute|].
  apply (annotation_erases_line reposted_note (py "📥 I ") (py "originally posted")
           (py " this elsewhere, but the argument deserves repeating in full: incentives shape behaviour far more than rules do, and the paper shows it with three careful field studies.")).
  - by vm_compute.
  - by vm_compute.
  - unfold ci_word. by_computation.
  - by_computation.
  - vm_compute. lia.
Defined.

(** ** Sample runs *)

Example glyph_code_points :
  CATEGORY_EMOJIS
  = [[0x1F4E5]; [0x1F517]; [0x2753]; [0x1F4BE]; [0x1F4A1]; [0x1F4D4]; [0x1F4C4]]%N.
Proof. reflexivity. Qed.

(** The two sample bodies of a reading note: an address alone is typed
    [link], a note of more than 100 characters [journal]. *)
Example reading_note_samples :
  get_message_type bare_address_note false = py "link"
  ∧ get_message_type long_note false = py "journal".
Proof. by vm_compute. Qed.

(** The chain is kept whole, the dangling reply is not. *)
Example chain_batch_run :
  processed_ids (run chain_batch None) = [py "$r1"; py "$r2"; py "$r3"; py "$root"]
  ∧ mm_body <$> messages (run chain_batch None)
    = [py "❓ who knows"; py "first"; py "second"; py "third"]
  ∧ mm_parent_id <$> messages (run chain_batch None)
    = [Null; Val (py "$root"); Val (py "$r1"); Val (py "$r2")]
  ∧ last_processed_ts (run chain_batch None) = 4%Z.
Proof. by vm_compute. Qed.

(** A cycle without a root: one pass, nothing kept. *)
Example cyclic_batch_run :
  closure_loop 1 cyclic_batch ∅ = Some ∅
  ∧ run cyclic_batch None
    = {| messages := []; processed_ids := []; last_processed_ts := 0 |}.
Proof. by vm_compute. Qed.

(** The glyph-prefixed direct reply comes out as a root of type [idea]. *)
Example glyph_reply_run :
  (λ r, (mm_id r, mm_type r, mm_parent_id r)) <$> messages (run [glyph_reply] None)
  = [(py "$reply", py "idea", Null)].
Proof. by vm_compute. Qed.

(** Without the premise of [merge_idempotent] the second merge may differ:
    the first merge of the chain batch into [stale_state] forgets the id of
    the root, and the second one then takes the root in. *)
Example merge_twice_stale_state :
  processed_ids (run chain_batch (Some stale_state)) = []
  ∧ processed_ids (run chain_batch (Some (run chain_batch (Some stale_state))))
    = [py "$r1"; py "$r2"; py "$r3"; py "$root"].
Proof. by vm_compute. Qed.

(** ** The further properties at work *)

Local Abbreviation issues := (ValidateExport.issues_of ascii_isalpha_only).
Local Abbreviation gate := (ValidateExport.gated ascii_isalpha_only).

(** X3: the ids of the second delivery, merged into the first. *)
Lemma processed_ids_are_record_ids_witness :
  py "$r1" ∈ processed_ids (run second_delivery (Some (run first_delivery None)))
  ↔ ∃ r, r ∈ messages (run second_delivery (Some (run first_delivery None)))
         ∧ mm_id r = py "$r1".
Proof.
  refine (proj1 (processed_ids_are_record_ids ascii_isalnum_only ascii_lower_only
                   second_delivery (Some (run first_delivery None)) _)
            (py "$r1")).
  intros e. cbn [already_processed_of existing_messages_of].
  rewrite elem_of_list_to_set.
  apply (processed_ids_are_record_ids ascii_isalnum_only ascii_lower_only
           first_delivery None).
  intros e'. split.
  - intros He'. by apply not_elem_of_empty in He'.
  - intros (r & Hr & _). by apply not_elem_of_nil in Hr.
Defined.

(** X4: no record of the second delivery doubles one of the first. *)
Lemma no_duplicate_records_witness :
  NoDup (mm_id <$> messages (run second_delivery (Some (run first_delivery None)))).
Proof.
  apply (no_duplicate_records ascii_isalnum_only ascii_lower_only
           second_delivery (Some (run first_delivery None))).
  - by_computation.
  - by_computation.
  - apply Forall_forall. by_computation.
Defined.

(** X5: the parent of the third reply of the chain is recorded. *)
Lemma reply_parent_recorded_witness :
  ∃ p, mm_parent_id (record (text_message "$r3" 4 "third" (in_reply_to "$r2")) true ∅)
       = Val p
       ∧ p ≠ []
       ∧ ∃ r', r' ∈ messages (run chain_batch None) ∧ mm_id r' = p.
Proof.
  apply (reply_parent_recorded ascii_isalnum_only ascii_lower_only chain_batch None
           (record (text_message "$r3" 4 "third" (in_reply_to "$r2")) true ∅)).
  - by_computation.
  - by_computation.
  - reflexivity.
Defined.

(** X8: the first reply of the chain, delivered again. *)
Lemma merge_processed_batch_witness :
  messages (run [text_message "$r1" 2 "first" (in_thread "$root")]
              (Some (run chain_batch None)))
  = sort_by min_ts (messages (run chain_batch None)).
Proof.
  apply (merge_processed_batch ascii_isalnum_only ascii_lower_only
           [text_message "$r1" 2 "first" (in_thread "$root")]
           (run chain_batch None)).
  apply Forall_forall. by_computation.
Defined.

(** X10: a short reading note. *)
Lemma short_body_is_link_witness :
  get_message_type (text_message "$s" 1 "📥 worth a look, says everyone" None) false
  = py "link".
Proof.
  apply (proj2 (short_body_is_link (py "📥 worth a look, says everyone")
                  ltac:(by_computation))
           (text_message "$s" 1 "📥 worth a look, says everyone" None)).
  - reflexivity.
  - reflexivity.
Defined.

(** X6: where the record of the first reply of the chain comes from. *)
Lemma record_provenance_witness :
  ∃ m, m ∈ chain_batch
       ∧ mm_id (record (text_message "$r1" 2 "first" (in_thread "$root")) true ∅)
         = m_event_id m
       ∧ m_type m = Some M_ROOM_MESSAGE
       ∧ (m_event_id m ∉ already_processed_of None)
       ∧ ((is_category_post m = true ∧ m_event_id m ≠ []
           ∧ mm_type (record (text_message "$r1" 2 "first" (in_thread "$root"))
                        true ∅) ≠ py "reply"
           ∧ mm_parent_id (record (text_message "$r1" 2 "first" (in_thread "$root"))
                             true ∅) = Null)
          ∨ ((is_category_post m = false ∨ m_event_id m = [])
             ∧ ∃ p, is_child_of m p
                    ∧ p ∈ keep_ids_of
                            (category_root_ids_of (existing_root_ids_of None)
                               (new_only_of chain_batch None))
                            (new_only_of chain_batch None)
                    ∧ mm_type (record (text_message "$r1" 2 "first"
                                         (in_thread "$root")) true ∅) = py "reply"
                    ∧ mm_parent_id (record (text_message "$r1" 2 "first"
                                              (in_thread "$root")) true ∅)
                      = Val p)).
Proof.
  apply (record_provenance ascii_isalnum_only ascii_lower_only chain_batch None
           (record (text_message "$r1" 2 "first" (in_thread "$root")) true ∅)).
  - by_computation.
  - intros r Hr. by apply not_elem_of_nil in Hr.
  - by_computation.
Defined.

(** X12: the reply to the first reply comes with the second delivery, and
    is not kept. *)
Lemma late_reply_witness :
  (∀ r, r ∈ minimal_new_of ascii_isalnum_only ascii_lower_only
              (category_root_ids_of
                 (existing_root_ids_of (Some (run first_delivery None)))
                 (new_only_of second_delivery (Some (run first_delivery None))))
              (build_edit_map second_delivery)
              (kept_of
                 (keep_ids_of
                    (category_root_ids_of
                       (existing_root_ids_of (Some (run first_delivery None)))
                       (new_only_of second_delivery (Some (run first_delivery None))))
                    (new_only_of second_delivery (Some (run first_delivery None))))
                 (new_only_of second_delivery (Some (run first_delivery None)))) →
        mm_id r ≠ py "$r2")
  ∧ py "$r2" ∉ processed_ids (run second_delivery (Some (run first_delivery None))).
Proof.
  apply (proj2 (late_reply ascii_isalnum_only ascii_lower_only second_delivery
                  (run first_delivery None) late_nested_reply (py "$r1")
                  ltac:(by_computation) ltac:(by_computation) ltac:(by_computation)
                  ltac:(by_computation) eq_refl
                  ltac:(vm_compute; repeat split; discriminate)
                  ltac:(by_computation))).
  by_computation.
Defined.

(** X13: the chain batch, delivered backwards. *)
Lemma delivery_order_irrelevant_witness :
  processed_ids (run (reverse chain_batch) None) = processed_ids (run chain_batch None)
  ∧ mm_id <$> messages (run (reverse chain_batch) None)
    ≡ₚ mm_id <$> messages (run chain_batch None)
  ∧ last_processed_ts (run (reverse chain_batch) None)
    = last_processed_ts (run chain_batch None).
Proof.
  apply (delivery_order_irrelevant ascii_isalnum_only ascii_lower_only
           (reverse chain_batch) chain_batch None).
  apply reverse_Permutation.
Defined.

(** X14: of two edits, the later one wins. *)
Lemma latest_edit_wins_witness :
  ∃ e, e ∈ twice_edited_batch ∧ is_edit_of e (py "$A")
       ∧ (py "final", []) = replacement_of e
       ∧ ∀ e', e' ∈ twice_edited_batch → is_edit_of e' (py "$A") →
               (raw_ts e' ≤ raw_ts e)%Z.
Proof.
  apply (latest_edit_wins twice_edited_batch (py "$A") (py "final", [])).
  - repeat constructor; by vm_compute.
  - reflexivity.
Defined.

(** X20: a root that is a glyph and nothing else is flagged, taken out, and
    back with the next export. *)
Lemma flagged_root_returns_witness :
  (record bare_question false (build_edit_map [bare_question])
     ∉ messages (gate (run [bare_question] None)))
  ∧ (py "$q" ∉ processed_ids (gate (run [bare_question] None)))
  ∧ record bare_question false (build_edit_map [bare_question])
      ∈ messages (run [bare_question] (Some (gate (run [bare_question] None))))
  ∧ py "$q"
      ∈ processed_ids (run [bare_question] (Some (gate (run [bare_question] None)))).
Proof.
  apply (flagged_root_returns ascii_isalnum_only ascii_lower_only ascii_isalpha_only
           [bare_question] None bare_question).
  - by_computation.
  - reflexivity.
  - discriminate.
  - by_computation.
  - by vm_compute.
Defined.

(** X21: a text event and a membership event, wrapped or not. *)
Lemma event_to_message_transparent_witness :
  run (event_to_message <$> [text_event "$e1" 1 "💡 an idea"; member_event "$e2"]) None
  = run (raw_message <$> [text_event "$e1" 1 "💡 an idea"; member_event "$e2"]) None.
Proof.
  apply (event_to_message_transparent ascii_isalnum_only ascii_lower_only
           [text_event "$e1" 1 "💡 an idea"; member_event "$e2"] None).
  repeat constructor; discriminate.
Defined.

(** X22: two pages, the newest first, and an answer that is never read. *)
Lemma fetch_reads_pages_witness :
  fetch_room_messages [newest_page; oldest_page; RoomMessagesError]
  = Some [event_to_message (text_event "$n1" 1 "earlier");
          event_to_message (text_event "$n2" 2 "later")].
Proof.
  apply (proj1 (fetch_reads_pages [newest_page] oldest_page [RoomMessagesError]
                  ltac:(repeat constructor) eq_refl)).
Defined.
